(** * xkmsoft/crawler: a shallow embedding of the crawl engine

    The development follows the Go sources of the repository:
    - [collector/utils]  : [AbsoluteURL], [TrimAndSanitize], [URLExists];
    - [collector/request]: [Request.Request], [HeadRequest], [GetRequest];
    - [collector/scrapper]: the [Scrapper] state tracker and [Scrape];
    - [collector/collector.go]: [Loggers], [NewCollector], [StartCrawling],
      [Crawl].

    Go strings that hold URLs are byte strings ([string]); extracted page
    text is a sequence of Unicode code points ([text]); Go maps are [gmap]s;
    a nil pointer is [None]; a Go [error] is its message. *)

From Stdlib Require Import ZArith NArith Bool Ascii String List Lia DecimalString.
From stdpp Require Import gmap strings list.
Import ListNotations.

Local Open Scope string_scope.
Local Open Scope bool_scope.
Local Open Scope list_scope.

(** ** Byte-string helpers in the shape of Go's [strings] package *)

Module GoStrings.

Definition byte_in (lo hi c : ascii) : bool :=
  (N_of_ascii lo <=? N_of_ascii c)%N && (N_of_ascii c <=? N_of_ascii hi)%N.

Definition is_letter (c : ascii) : bool :=
  byte_in "a" "z" c || byte_in "A" "Z" c.

Definition is_digit (c : ascii) : bool := byte_in "0" "9" c.

(** [strings.HasPrefix(s, p)] *)
Fixpoint HasPrefix (s p : string) : bool :=
  match p, s with
  | EmptyString, _ => true
  | String _ _, EmptyString => false
  | String a p', String b s' => Ascii.eqb a b && HasPrefix s' p'
  end.

(** [strings.IndexByte(s, c)]; [None] stands for -1. *)
Fixpoint IndexByte (s : string) (c : ascii) : option nat :=
  match s with
  | EmptyString => None
  | String b s' =>
      if Ascii.eqb b c then Some 0 else option_map S (IndexByte s' c)
  end.

(** [strings.LastIndex(s, c)] for a one-byte separator. *)
Fixpoint LastIndexByte (s : string) (c : ascii) : option nat :=
  match s with
  | EmptyString => None
  | String b s' =>
      match LastIndexByte s' c with
      | Some i => Some (S i)
      | None => if Ascii.eqb b c then Some 0 else None
      end
  end.

(** [strings.Index(s, sub)] *)
Fixpoint Index (s sub : string) : option nat :=
  if HasPrefix s sub then Some 0
  else match s with
       | EmptyString => None
       | String _ s' => option_map S (Index s' sub)
       end.

(** [strings.Contains(s, sub)] *)
Definition Contains (s sub : string) : bool :=
  match Index s sub with Some _ => true | None => false end.

(** [strings.Count(s, c)] for a one-byte pattern. *)
Fixpoint CountByte (s : string) (c : ascii) : nat :=
  match s with
  | EmptyString => 0
  | String b s' => (if Ascii.eqb b c then 1 else 0) + CountByte s' c
  end.

(** The slices [s[:i]] and [s[i:]]. *)
Fixpoint take (i : nat) (s : string) : string :=
  match i, s with
  | S i', String c s' => String c (take i' s')
  | _, _ => EmptyString
  end.

Fixpoint drop (i : nat) (s : string) : string :=
  match i, s with
  | S i', String _ s' => drop i' s'
  | _, _ => s
  end.

(** [strings.HasSuffix(s, suf)] for a one-byte suffix. *)
Fixpoint HasSuffixByte (s : string) (c : ascii) : bool :=
  match s with
  | EmptyString => false
  | String b EmptyString => Ascii.eqb b c
  | String _ s' => HasSuffixByte s' c
  end.

(** [strings.ToLower] on the ASCII letters; other bytes are kept. *)
Definition lower_byte (c : ascii) : ascii :=
  if byte_in "A" "Z" c then ascii_of_N (N_of_ascii c + 32) else c.

Fixpoint ToLower (s : string) : string :=
  match s with
  | EmptyString => EmptyString
  | String c s' => String (lower_byte c) (ToLower s')
  end.

(** [strings.Split(s, "/")]: never empty, one more field than separators. *)
Fixpoint SplitByte (s : string) (sep : ascii) : list string :=
  match s with
  | EmptyString => [EmptyString]
  | String c s' =>
      if Ascii.eqb c sep then EmptyString :: SplitByte s' sep
      else match SplitByte s' sep with
           | f :: fs => String c f :: fs
           | [] => [String c EmptyString]
           end
  end.

(** [strings.Join(elems, "/")] *)
Fixpoint JoinByte (elems : list string) (sep : ascii) : string :=
  match elems with
  | [] => EmptyString
  | [e] => e
  | e :: rest => e +:+ String sep (JoinByte rest sep)
  end.

(** [strings.TrimPrefix(s, "/")] *)
Definition TrimPrefixByte (s : string) (c : ascii) : string :=
  match s with
  | String b s' => if Ascii.eqb b c then s' else s
  | EmptyString => s
  end.

(** Does the byte [c] occur in [s]? *)
Fixpoint has_byte (c : ascii) (s : string) : bool :=
  match s with
  | EmptyString => false
  | String b s' => Ascii.eqb b c || has_byte c s'
  end.

End GoStrings.
Import GoStrings.

(** ** Go's [net/url], as far as [AbsoluteURL] reaches into it

    [url.ParseRequestURI], [URL.Parse], [URL.ResolveReference] and
    [URL.String] belong to the Go standard library, not to the
    repository; they are transcribed here (release 1.17, the one go.mod
    names) so that [AbsoluteURL] can be evaluated. An error is [None]. *)

Module NetURL.

Inductive encoding :=
| encodePath | encodePathSegment | encodeHost | encodeZone
| encodeUserPassword | encodeQueryComponent | encodeFragment.

Definition is_host_mode (m : encoding) : bool :=
  match m with encodeHost | encodeZone => true | _ => false end.

Record Userinfo := mkUserinfo
  { username : string; password : string; passwordSet : bool }.

Record URL := mkURL
  { Scheme : string;
    Opaque : string;
    User : option Userinfo;
    Host : string;
    Path : string;
    RawPath : string;
    ForceQuery : bool;
    RawQuery : string;
    Fragment : string;
    RawFragment : string }.

Definition emptyURL : URL := mkURL "" "" None "" "" "" false "" "" "".

Definition dquote : ascii := ascii_of_nat 34.

Definition ishex (c : ascii) : bool :=
  is_digit c || byte_in "a" "f" c || byte_in "A" "F" c.

Definition unhex (c : ascii) : N :=
  if is_digit c then N_of_ascii c - N_of_ascii "0"
  else if byte_in "a" "f" c then N_of_ascii c - N_of_ascii "a" + 10
  else if byte_in "A" "F" c then N_of_ascii c - N_of_ascii "A" + 10
  else 0.

Definition upperhex (n : N) : ascii :=
  if (n <? 10)%N then ascii_of_N (N_of_ascii "0" + n)
  else ascii_of_N (N_of_ascii "A" + (n - 10)).

(** [shouldEscape(c, mode)] *)
Definition shouldEscape (c : ascii) (mode : encoding) : bool :=
  if is_letter c || is_digit c then false
  else if is_host_mode mode
          && has_byte c ("!$&'()*+,;=:[]<>" +:+ String dquote "") then false
  else if has_byte c "-_.~" then false
  else if has_byte c "$&+,/:;=?@" then
    match mode with
    | encodePath => Ascii.eqb c "?"
    | encodePathSegment => has_byte c "/;,?"
    | encodeUserPassword => has_byte c "@/?:"
    | encodeQueryComponent => true
    | encodeFragment => false
    | encodeHost | encodeZone => true
    end
  else match mode with
       | encodeFragment => negb (has_byte c "!()*")
       | _ => true
       end.

(** First loop of [unescape]: are all the percent triples well formed? *)
Fixpoint unescape_ok (s : string) (mode : encoding) : bool :=
  match s with
  | EmptyString => true
  | String c rest =>
      if Ascii.eqb c "%" then
        match rest with
        | String h1 (String h2 rest') =>
            let is25 := Ascii.eqb h1 "2" && Ascii.eqb h2 "5" in
            let v := (unhex h1 * 16 + unhex h2)%N in
            if negb (ishex h1) || negb (ishex h2) then false
            else if match mode with encodeHost => true | _ => false end
                    && (unhex h1 <? 8)%N && negb is25 then false
            else if match mode with encodeZone => true | _ => false end
                    && negb is25 && negb (v =? 32)%N
                    && shouldEscape (ascii_of_N v) encodeHost then false
            else unescape_ok rest' mode
        | _ => false
        end
      else if Ascii.eqb c "+" then unescape_ok rest mode
      else if is_host_mode mode && (N_of_ascii c <? 128)%N
              && shouldEscape c encodeHost then false
      else unescape_ok rest mode
  end.

(** Second loop of [unescape]: decode. *)
Fixpoint unescape_decode (s : string) (mode : encoding) : string :=
  match s with
  | EmptyString => EmptyString
  | String c rest =>
      if Ascii.eqb c "%" then
        match rest with
        | String h1 (String h2 rest') =>
            String (ascii_of_N (unhex h1 * 16 + unhex h2))
                   (unescape_decode rest' mode)
        | _ => String c (unescape_decode rest mode)
        end
      else if Ascii.eqb c "+" then
        String (match mode with encodeQueryComponent => " "%char | _ => "+"%char end)
               (unescape_decode rest mode)
      else String c (unescape_decode rest mode)
  end.

Definition unescape (s : string) (mode : encoding) : option string :=
  if unescape_ok s mode then Some (unescape_decode s mode) else None.

(** [escape(s, mode)] *)
Fixpoint escape (s : string) (mode : encoding) : string :=
  match s with
  | EmptyString => EmptyString
  | String c rest =>
      if Ascii.eqb c " "
         && match mode with encodeQueryComponent => true | _ => false end
      then String "+" (escape rest mode)
      else if shouldEscape c mode then
        String "%" (String (upperhex (N_of_ascii c / 16))
                   (String (upperhex (N_of_ascii c mod 16)) (escape rest mode)))
      else String c (escape rest mode)
  end.

(** [validEncoded(s, mode)] *)
Fixpoint validEncoded (s : string) (mode : encoding) : bool :=
  match s with
  | EmptyString => true
  | String c rest =>
      (has_byte c "!$&'()*+,;=:@[]%" || negb (shouldEscape c mode))
      && validEncoded rest mode
  end.

(** [getScheme(rawURL)]: the loop, at index [i] with [s = rawURL[i:]]. *)
Fixpoint getScheme_from (i : nat) (s rawURL : string) : option (string * string) :=
  match s with
  | EmptyString => Some ("", rawURL)
  | String c rest =>
      if is_letter c then getScheme_from (S i) rest rawURL
      else if is_digit c || has_byte c "+-." then
        if Nat.eqb i 0 then Some ("", rawURL)
        else getScheme_from (S i) rest rawURL
      else if Ascii.eqb c ":" then
        if Nat.eqb i 0 then None else Some (take i rawURL, rest)
      else Some ("", rawURL)
  end.

Definition getScheme (rawURL : string) : option (string * string) :=
  getScheme_from 0 rawURL rawURL.

(** [split(s, sep, cutc)] *)
Definition split (s : string) (sep : ascii) (cutc : bool) : string * string :=
  match IndexByte s sep with
  | None => (s, "")
  | Some i => if cutc then (take i s, drop (S i) s) else (take i s, drop i s)
  end.

(** [stringContainsCTLByte(s)] *)
Fixpoint stringContainsCTLByte (s : string) : bool :=
  match s with
  | EmptyString => false
  | String b rest =>
      (N_of_ascii b <? 32)%N || (N_of_ascii b =? 127)%N
      || stringContainsCTLByte rest
  end.

(** [validOptionalPort(port)] *)
Fixpoint all_digits (s : string) : bool :=
  match s with
  | EmptyString => true
  | String b rest => is_digit b && all_digits rest
  end.

Definition validOptionalPort (port : string) : bool :=
  match port with
  | EmptyString => true
  | String c rest => Ascii.eqb c ":" && all_digits rest
  end.

(** [parseHost(host)] *)
Definition parseHost (host : string) : option string :=
  if HasPrefix host "[" then
    match LastIndexByte host "]" with
    | None => None
    | Some i =>
        if negb (validOptionalPort (drop (S i) host)) then None
        else match Index (take i host) "%25" with
             | Some zone =>
                 match unescape (take zone host) encodeHost,
                       unescape (drop zone (take i host)) encodeZone,
                       unescape (drop i host) encodeHost with
                 | Some host1, Some host2, Some host3 =>
                     Some (host1 +:+ host2 +:+ host3)
                 | _, _, _ => None
                 end
             | None => unescape host encodeHost
             end
    end
  else
    match LastIndexByte host ":" with
    | Some i =>
        if negb (validOptionalPort (drop i host)) then None
        else unescape host encodeHost
    | None => unescape host encodeHost
    end.

(** [validUserinfo(s)] *)
Fixpoint validUserinfo (s : string) : bool :=
  match s with
  | EmptyString => true
  | String r rest =>
      (is_letter r || is_digit r || has_byte r "-._:~!$&'()*+,;=%@")
      && validUserinfo rest
  end.

(** [parseAuthority(authority)] *)
Definition parseAuthority (authority : string) : option (option Userinfo * string) :=
  match LastIndexByte authority "@" with
  | None =>
      match parseHost authority with
      | None => None
      | Some host => Some (None, host)
      end
  | Some i =>
      match parseHost (drop (S i) authority) with
      | None => None
      | Some host =>
          let userinfo := take i authority in
          if negb (validUserinfo userinfo) then None
          else if negb (has_byte ":" userinfo) then
            match unescape userinfo encodeUserPassword with
            | None => None
            | Some u => Some (Some (mkUserinfo u "" false), host)
            end
          else
            let '(username, password) := split userinfo ":" true in
            match unescape username encodeUserPassword,
                  unescape password encodeUserPassword with
            | Some u, Some p => Some (Some (mkUserinfo u p true), host)
            | _, _ => None
            end
      end
  end.

(** [URL.setPath(p)] *)
Definition setPath (u : URL) (p : string) : option URL :=
  match unescape p encodePath with
  | None => None
  | Some path =>
      Some (mkURL (Scheme u) (Opaque u) (User u) (Host u) path
                  (if String.eqb p (escape path encodePath) then "" else p)
                  (ForceQuery u) (RawQuery u) (Fragment u) (RawFragment u))
  end.

(** [URL.setFragment(f)] *)
Definition setFragment (u : URL) (f : string) : option URL :=
  match unescape f encodeFragment with
  | None => None
  | Some frag =>
      Some (mkURL (Scheme u) (Opaque u) (User u) (Host u) (Path u) (RawPath u)
                  (ForceQuery u) (RawQuery u) frag
                  (if String.eqb f (escape frag encodeFragment) then "" else f))
  end.

(** The test on the first path segment of a relative reference. *)
Definition colon_in_first_segment (rest : string) : bool :=
  match IndexByte rest ":", IndexByte rest "/" with
  | Some _, None => true
  | Some colon, Some slash => Nat.ltb colon slash
  | None, _ => false
  end.

(** [parse(rawURL, viaRequest)] *)
Definition parse (rawURL : string) (viaRequest : bool) : option URL :=
  if stringContainsCTLByte rawURL then None
  else if String.eqb rawURL "" && viaRequest then None
  else if String.eqb rawURL "*" then
    Some (mkURL "" "" None "" "*" "" false "" "" "")
  else
    match getScheme rawURL with
    | None => None
    | Some (scheme0, rest0) =>
        let scheme := ToLower scheme0 in
        let '(rest, forceQuery, rawQuery) :=
          if HasSuffixByte rest0 "?" && Nat.eqb (CountByte rest0 "?") 1
          then (take (String.length rest0 - 1) rest0, true, "")
          else let '(r, q) := split rest0 "?" true in (r, false, q) in
        let url := mkURL scheme "" None "" "" "" forceQuery rawQuery "" "" in
        if negb (HasPrefix rest "/") && negb (String.eqb scheme "") then
          Some (mkURL scheme rest None "" "" "" forceQuery rawQuery "" "")
        else if negb (HasPrefix rest "/") && viaRequest then None
        else if negb (HasPrefix rest "/") && colon_in_first_segment rest then None
        else if (negb (String.eqb scheme "")
                 || (negb viaRequest && negb (HasPrefix rest "///")))
                && HasPrefix rest "//" then
          let '(authority, rest') := split (drop 2 rest) "/" false in
          match parseAuthority authority with
          | None => None
          | Some (user, host) =>
              setPath (mkURL scheme "" user host "" "" forceQuery rawQuery "" "")
                      rest'
          end
        else setPath url rest
    end.

(** [url.Parse(rawURL)] *)
Definition Parse (rawURL : string) : option URL :=
  let '(u, frag) := split rawURL "#" true in
  match parse u false with
  | None => None
  | Some url => if String.eqb frag "" then Some url else setFragment url frag
  end.

(** [url.ParseRequestURI(rawURL)]: the fragment is not split off. *)
Definition ParseRequestURI (rawURL : string) : option URL := parse rawURL true.

(** [URL.EscapedPath()] *)
Definition EscapedPath (u : URL) : string :=
  if negb (String.eqb (RawPath u) "") && validEncoded (RawPath u) encodePath
     && match unescape (RawPath u) encodePath with
        | Some p => String.eqb p (Path u)
        | None => false
        end
  then RawPath u
  else if String.eqb (Path u) "*" then "*"
  else escape (Path u) encodePath.

(** [URL.EscapedFragment()] *)
Definition EscapedFragment (u : URL) : string :=
  if negb (String.eqb (RawFragment u) "")
     && validEncoded (RawFragment u) encodeFragment
     && match unescape (RawFragment u) encodeFragment with
        | Some f => String.eqb f (Fragment u)
        | None => false
        end
  then RawFragment u
  else escape (Fragment u) encodeFragment.

(** The loop of [resolvePath] over the fields of [full]. *)
Fixpoint resolve_segments (src dst : list string) : list string :=
  match src with
  | [] => dst
  | elem :: src' =>
      if String.eqb elem "." then resolve_segments src' dst
      else if String.eqb elem ".." then resolve_segments src' (removelast dst)
      else resolve_segments src' (dst ++ [elem])%list
  end.

(** [resolvePath(base, ref)] *)
Definition resolvePath (base ref : string) : string :=
  let full :=
    match ref with
    | EmptyString => base
    | String c _ =>
        if Ascii.eqb c "/" then ref
        else match LastIndexByte base "/" with
             | Some i => take (S i) base +:+ ref
             | None => ref
             end
    end in
  if String.eqb full "" then ""
  else
    let src := SplitByte full "/" in
    let dst := resolve_segments src [] in
    let last := List.last src "" in
    let dst := if String.eqb last "." || String.eqb last ".."
               then (dst ++ [""])%list else dst in
    String "/" (TrimPrefixByte (JoinByte dst "/") "/").

(** [URL.ResolveReference(ref)]; a failing [setPath] is ignored. *)
Definition setPath_ignore (u : URL) (p : string) : URL :=
  match setPath u p with Some u' => u' | None => u end.

Definition ResolveReference (u ref : URL) : URL :=
  let scheme := if String.eqb (Scheme ref) "" then Scheme u else Scheme ref in
  if negb (String.eqb (Scheme ref) "") || negb (String.eqb (Host ref) "")
     || match User ref with Some _ => true | None => false end
  then
    setPath_ignore
      (mkURL scheme (Opaque ref) (User ref) (Host ref) (Path ref) (RawPath ref)
             (ForceQuery ref) (RawQuery ref) (Fragment ref) (RawFragment ref))
      (resolvePath (EscapedPath ref) "")
  else if negb (String.eqb (Opaque ref) "") then
    mkURL scheme (Opaque ref) None "" "" (RawPath ref)
          (ForceQuery ref) (RawQuery ref) (Fragment ref) (RawFragment ref)
  else
    let inherit := String.eqb (Path ref) "" && String.eqb (RawQuery ref) "" in
    let rawQuery := if inherit then RawQuery u else RawQuery ref in
    let keepfrag := inherit && String.eqb (Fragment ref) "" in
    setPath_ignore
      (mkURL scheme (Opaque ref) (User u) (Host u) (Path ref) (RawPath ref)
             (ForceQuery ref) rawQuery
             (if keepfrag then Fragment u else Fragment ref)
             (if keepfrag then RawFragment u else RawFragment ref))
      (resolvePath (EscapedPath u) (EscapedPath ref)).

(** [URL.Parse(ref)] *)
Definition URL_Parse (u : URL) (ref : string) : option URL :=
  match Parse ref with
  | None => None
  | Some refURL => Some (ResolveReference u refURL)
  end.

(** [Userinfo.String()] *)
Definition Userinfo_String (ui : Userinfo) : string :=
  escape (username ui) encodeUserPassword
  +:+ (if passwordSet ui
       then ":" +:+ escape (password ui) encodeUserPassword else "").

(** [URL.String()]: the builder is threaded as [buf]. *)
Definition URL_String (u : URL) : string :=
  let buf := if String.eqb (Scheme u) "" then "" else Scheme u +:+ ":" in
  let buf :=
    if negb (String.eqb (Opaque u) "") then buf +:+ Opaque u
    else
      let has_user := match User u with Some _ => true | None => false end in
      let buf :=
        if negb (String.eqb (Scheme u) "") || negb (String.eqb (Host u) "")
           || has_user
        then
          let buf :=
            if negb (String.eqb (Host u) "") || negb (String.eqb (Path u) "")
               || has_user
            then buf +:+ "//" else buf in
          let buf := match User u with
                     | Some ui => buf +:+ Userinfo_String ui +:+ "@"
                     | None => buf
                     end in
          if negb (String.eqb (Host u) "")
          then buf +:+ escape (Host u) encodeHost else buf
        else buf in
      let path := EscapedPath u in
      let buf :=
        if negb (String.eqb path "") && negb (HasPrefix path "/")
           && negb (String.eqb (Host u) "")
        then buf +:+ "/" else buf in
      let buf :=
        if String.eqb buf "" then
          match IndexByte path ":" with
          | Some i => if has_byte "/" (take i path) then buf else buf +:+ "./"
          | None => buf
          end
        else buf in
      buf +:+ path in
  let buf := if ForceQuery u || negb (String.eqb (RawQuery u) "")
             then buf +:+ "?" +:+ RawQuery u else buf in
  if negb (String.eqb (Fragment u) "")
  then buf +:+ "#" +:+ EscapedFragment u else buf.


(** Used in the statements about [String]. *)
Definition hash : ascii := "#"%char.


(** The parts of a parsed URL that [String] writes out unescaped. *)
Definition raw_parts_clean (u : URL) : Prop :=
  has_byte hash (Opaque u) = false /\ has_byte hash (RawQuery u) = false.

End NetURL.

(** ** collector/utils: [AbsoluteURL] and [URLExists] *)

Definition error := string.

Inductive result (A : Type) : Type :=
| Ok (a : A)
| Err (e : error).
Arguments Ok {A} a.
Arguments Err {A} e.

Definition AbsoluteURL (pageURL href : string) : result string :=
  if HasPrefix href "#" then Err "url has #"
  else
    match NetURL.ParseRequestURI pageURL with
    | None => Err "page url could not be parsed"
    | Some baseURL =>
        match NetURL.URL_Parse baseURL href with
        | None => Err "base url could not be parsed with href"
        | Some absURL =>
            let absURL :=
              NetURL.mkURL (NetURL.Scheme absURL) (NetURL.Opaque absURL)
                (NetURL.User absURL) (NetURL.Host absURL) (NetURL.Path absURL)
                (NetURL.RawPath absURL) (NetURL.ForceQuery absURL)
                (NetURL.RawQuery absURL) "" (NetURL.RawFragment absURL) in
            let absURL :=
              if String.eqb (NetURL.Scheme absURL) "//"
              then NetURL.mkURL (NetURL.Scheme baseURL) (NetURL.Opaque absURL)
                     (NetURL.User absURL) (NetURL.Host absURL) (NetURL.Path absURL)
                     (NetURL.RawPath absURL) (NetURL.ForceQuery absURL)
                     (NetURL.RawQuery absURL) (NetURL.Fragment absURL)
                     (NetURL.RawFragment absURL)
              else absURL in
            if negb (String.eqb (NetURL.Scheme absURL) "http")
               && negb (String.eqb (NetURL.Scheme absURL) "https")
            then Err "unknown scheme"
            else Ok (NetURL.URL_String absURL)
        end
    end.

Fixpoint URLExists (urls : list string) (url : string) : bool :=
  match urls with
  | [] => false
  | item :: rest => if String.eqb item url then true else URLExists rest url
  end.

(** ** collector/utils: [TrimAndSanitize]

    Page text is decoded text: a list of code points. [strings.TrimSpace]
    and the [regexp] engine both work rune by rune. *)

Definition rune := N.
Definition text := list rune.

Module Normalizer.

(** [unicode.IsSpace]: the Latin-1 switch, then the [White_Space] table. *)
Definition IsSpace (r : rune) : bool :=
  if (r <=? 255)%N then
    (r =? 9)%N || (r =? 10)%N || (r =? 11)%N || (r =? 12)%N || (r =? 13)%N
    || (r =? 32)%N || (r =? 133)%N || (r =? 160)%N
  else
    (r =? 5760)%N || ((8192 <=? r)%N && (r <=? 8202)%N)
    || (r =? 8232)%N || (r =? 8233)%N || (r =? 8239)%N || (r =? 8287)%N
    || (r =? 12288)%N.

(** The class [[\s\p{Zs}]] of the pattern: [\s] is tab, line feed, form
    feed, carriage return and space; [Zs] is the space separators. *)
Definition perl_space (r : rune) : bool :=
  (r =? 9)%N || (r =? 10)%N || (r =? 12)%N || (r =? 13)%N || (r =? 32)%N.

Definition unicode_Zs (r : rune) : bool :=
  (r =? 32)%N || (r =? 160)%N || (r =? 5760)%N
  || ((8192 <=? r)%N && (r <=? 8202)%N)
  || (r =? 8239)%N || (r =? 8287)%N || (r =? 12288)%N.

Definition class_space (r : rune) : bool := perl_space r || unicode_Zs r.

(** [strings.TrimLeftFunc(s, unicode.IsSpace)] *)
Fixpoint TrimLeft (s : text) : text :=
  match s with
  | [] => []
  | r :: s' => if IsSpace r then TrimLeft s' else s
  end.

(** [strings.TrimRightFunc(s, unicode.IsSpace)] *)
Definition TrimRight (s : text) : text := rev (TrimLeft (rev s)).

(** [strings.TrimSpace(s)] *)
Definition TrimSpace (s : text) : text := TrimRight (TrimLeft s).

(** [re.ReplaceAllString(s, "")] for [re = [\s\p{Zs}]{2,}]: scanning from
    the left, a match needs two class runes and is greedy, so it takes
    the whole run ([skip]); where no match starts, the rune is copied. *)
Fixpoint ReplaceAllString (s : text) : text :=
  match s with
  | [] => []
  | r :: s' =>
      if class_space r && match s' with
                          | r2 :: _ => class_space r2
                          | [] => false
                          end
      then (fix skip (rest : text) : text :=
              match rest with
              | [] => []
              | d :: rest' =>
                  if class_space d then skip rest'
                  else d :: ReplaceAllString rest'
              end) s'
      else r :: ReplaceAllString s'
  end.

(** [TrimAndSanitize], over the sanitizer [p.Sanitize] of
    [bluemonday.StrictPolicy()], which is not part of the repository. *)
Definition TrimAndSanitize (Sanitize : text -> text) (s : text) : text :=
  let s := Sanitize s in
  let s := TrimSpace s in
  let s := ReplaceAllString s in
  s.





(** The rest of a text after its leading class runes. *)
Fixpoint skip_class (s : text) : text :=
  match s with
  | [] => []
  | d :: rest => if class_space d then skip_class rest else s
  end.


Definition starts_class (s : text) : bool :=
  match s with r2 :: _ => class_space r2 | [] => false end.

End Normalizer.
(** ** The records of the collector package *)

Module SucceededPage.
Record t := mk
  { Url : string;
    Title : text;
    Description : text;
    ContentType : string;
    ContentLength : Z;
    Timestamp : Z;
    Urls : list string;
    Paragrahps : list text }.
End SucceededPage.

Module FailedPage.
Record t := mk
  { Url : string;
    FailReason : error;
    Timestamp : Z }.
End FailedPage.

Record ScrapeResult := mkScrapeResult
  { Page : option SucceededPage.t;
    Error : option error }.

(** The three maps of the [Scrapper] struct. Its [Loggers] pointer is the
    one the [Collector] holds as well; the object both point to is kept in
    the world below. The [Mutex] makes each method one atomic step. *)
Record Scrapper := mkScrapper
  { Succeed : gmap string SucceededPage.t;
    Failed : gmap string FailedPage.t;
    InProcess : gmap string Z }.

Record Collector := mkCollector
  { Seed : string;
    Depth : Z;
    SaveToFile : bool;
    FileName : string }.

Record ResultData := mkResultData
  { rd_Seed : string;
    rd_Depth : Z;
    rd_TotalPages : Z;
    rd_SucceededPages : Z;
    rd_FailedPages : Z;
    rd_Succeed : gmap string SucceededPage.t;
    rd_Failed : gmap string FailedPage.t }.

(** ** What lies outside the program *)

Inductive Method := HEAD | GET.

(** A document as goquery presents it to [Scrape]: what [Find(sel).Each]
    visits for the four selectors, in document order. *)
Record MetaTag := mkMetaTag
  { meta_name : text;                 (* [s.Attr("name")], empty when absent *)
    meta_content : option text }.     (* [s.Attr("content")] *)

Record Document := mkDocument
  { doc_title : list text;            (* [s.Text()] of each title element *)
    doc_meta : list MetaTag;
    doc_p : list text;                (* [s.Text()] of each p element *)
    doc_a : list (option string) }.   (* [s.Attr("href")] of each a element *)

Record Response := mkResponse
  { StatusCode : Z;
    Header_ContentType : string;      (* [Header.Get("Content-Type")] *)
    Resp_ContentLength : Z;
    Body : result Document }.         (* [goquery.NewDocumentFromReader] *)

(** The network answers by the number of requests made before; the wall
    clock is read at that same count. *)
Record Env := mkEnv
  { Sanitize : text -> text;
    http_NewRequest : Method -> string -> option error;
    http_Do : nat -> Method -> string -> result Response;
    time_Now : nat -> Z;
    os_OpenFile : string -> option error;
    json_MarshalIndent : option error;
    ioutil_WriteFile : string -> option error }.

(** What a run does that can be observed from outside. *)
Inductive Event :=
| EvPrint (msg : string)                     (* fmt.Printf *)
| EvGo (gid : Z) (url : string)              (* go c.Scrapper.Scrape(url, ..) *)
| EvDo (m : Method) (url : string)           (* r.Client.Do(request) *)
| EvInitiate (url : string)                  (* s.InProcess[url] = s.Id() *)
| EvSucceed (url : string)                   (* s.Succeed[url] = page *)
| EvFailed (url : string)                    (* s.Failed[url] = page *)
| EvSend (r : ScrapeResult)                  (* channel <- r *)
| EvRecv (r : ScrapeResult)                  (* <-channel *)
| EvWriteFile (name : string) (data : ResultData).

Record World := mkWorld
  { scrapper : Scrapper;
    loggers : option (list (Z * string));    (* the Loggers object, or nil *)
    clock : nat;                             (* requests made so far *)
    goroutines : Z;                          (* goroutines started so far *)
    trace : list Event }.                    (* oldest event first *)

(** ** Effects: a state monad over the world, with panics *)

Inductive Outcome (A : Type) : Type :=
| Done (a : A) (w : World)
| Panic.
Arguments Done {A} a w.
Arguments Panic {A}.

Definition M (A : Type) : Type := World -> Outcome A.

Definition ret {A} (a : A) : M A := fun w => Done a w.

Definition bind {A B} (c : M A) (k : A -> M B) : M B :=
  fun w => match c w with
           | Done a w' => k a w'
           | Panic => Panic
           end.

Notation "x <- c ;; k" := (bind c (fun x => k))
  (at level 100, c at next level, right associativity).
Notation "c ;;; k" := (bind c (fun _ => k))
  (at level 100, right associativity).

Definition emit (e : Event) : M unit :=
  fun w => Done tt (mkWorld (scrapper w) (loggers w) (clock w) (goroutines w)
                            (trace w ++ [e])).

Definition get_scrapper : M Scrapper := fun w => Done (scrapper w) w.

Definition put_scrapper (s : Scrapper) : M unit :=
  fun w => Done tt (mkWorld s (loggers w) (clock w) (goroutines w) (trace w)).

Definition nl : string := String (ascii_of_nat 10) "".

Definition itoa (n : Z) : string :=
  NilZero.string_of_int (Z.to_int n).

(** ** collector/collector.go: the loggers *)

Definition LogFile : string := "logs.txt".

Definition INFO : Z := 0.
Definition WARNING : Z := 1.
Definition ERROR : Z := 2.

(** [Loggers.Log]: locking the mutex of a nil receiver is a nil dereference. *)
Definition Log (t : Z) (msg : string) : M unit :=
  fun w =>
    match loggers w with
    | None => Panic
    | Some lines =>
        let lines' :=
          if (t =? INFO)%Z || (t =? WARNING)%Z || (t =? ERROR)%Z
          then lines ++ [(t, msg)] else lines in
        Done tt (mkWorld (scrapper w) (Some lines') (clock w) (goroutines w)
                         (trace w))
    end.

(** [CreateLoggers]: the pointer it returns, nil on error. *)
Definition CreateLoggers (E : Env) (fileName : string)
  : option (list (Z * string)) * option error :=
  match os_OpenFile E fileName with
  | Some err => (None, Some err)
  | None => (Some [], None)
  end.

(** ** collector/request *)

Definition Client_Do (E : Env) (method : Method) (url : string)
  : M (result Response) :=
  fun w =>
    Done (http_Do E (clock w) method url)
         (mkWorld (scrapper w) (loggers w) (S (clock w)) (goroutines w)
                  (trace w ++ [EvDo method url])).

Definition Request (E : Env) (url : string) (method : Method)
  : M (result Response) :=
  match http_NewRequest E method url with
  | Some err => ret (Err ("new http request failed: " +:+ err +:+ nl))
  | None =>
      r <- Client_Do E method url ;;
      match r with
      | Err err => ret (Err ("http request failed: " +:+ err +:+ nl))
      | Ok response =>
          if negb (StatusCode response =? 200)%Z
          then ret (Err ("status code: " +:+ itoa (StatusCode response) +:+ nl))
          else ret (Ok response)
      end
  end.

Definition HeadRequest (E : Env) (url : string) : M (result Response) :=
  Request E url HEAD.

Definition GetRequest (E : Env) (url : string) : M (result Response) :=
  Request E url GET.

(** ** collector/scrapper: the state tracker *)

Definition NewScrapper : Scrapper := mkScrapper ∅ ∅ ∅.

Definition CurrentTimestamp (E : Env) : M Z :=
  fun w => Done (time_Now E (clock w)) w.

Definition InitiateScrape (gid : Z) (url : string) : M unit :=
  s <- get_scrapper ;;
  put_scrapper (mkScrapper (Succeed s) (Failed s) (<[url := gid]> (InProcess s))) ;;;
  emit (EvInitiate url).

Definition ScrapeSucceed (url : string) (page : SucceededPage.t) : M unit :=
  s <- get_scrapper ;;
  put_scrapper (mkScrapper (<[url := page]> (Succeed s)) (Failed s)
                           (delete url (InProcess s))) ;;;
  emit (EvSucceed url) ;;;
  Log INFO ("Scrape succeded on page :" +:+ SucceededPage.Url page +:+ nl).

Definition ScrapeFailed (url : string) (page : FailedPage.t) : M unit :=
  s <- get_scrapper ;;
  put_scrapper (mkScrapper (Succeed s) (<[url := page]> (Failed s))
                           (delete url (InProcess s))) ;;;
  emit (EvFailed url) ;;;
  Log INFO ("Scrape failed on page: " +:+ FailedPage.Url page +:+ " Reason: "
            +:+ FailedPage.FailReason page +:+ nl).

(** [IsProcessed] answers false while the URL is in process. *)
Definition IsProcessed (url : string) : M bool :=
  s <- get_scrapper ;;
  match InProcess s !! url with
  | Some _ => ret false
  | None => ret true
  end.

Definition IsVisited (url : string) : M bool :=
  s <- get_scrapper ;;
  match Succeed s !! url with
  | Some _ => ret true
  | None => ret false
  end.

Definition IsFailed (url : string) : M bool :=
  s <- get_scrapper ;;
  match Failed s !! url with
  | Some _ => ret true
  | None => ret false
  end.

Definition NumberOfPagesSucceed : M Z :=
  s <- get_scrapper ;; ret (Z.of_nat (size (Succeed s))).

Definition NumberOfPagesFailed : M Z :=
  s <- get_scrapper ;; ret (Z.of_nat (size (Failed s))).

Definition NumberOfPagesBeingProcessed : M Z :=
  s <- get_scrapper ;; ret (Z.of_nat (size (InProcess s))).

(** ** collector/scrapper: [Scrape] *)

Definition text_of_string (s : string) : text :=
  map N_of_ascii (list_ascii_of_string s).

(** [strings.EqualFold(s, t)] for an ASCII [t]: the only runes that fold
    onto ASCII letters are the letters themselves, U+017F and U+212A. *)
Definition simple_fold (r : rune) : rune :=
  if (65 <=? r)%N && (r <=? 90)%N then (r + 32)%N
  else if (r =? 383)%N then 115%N
  else if (r =? 8490)%N then 107%N
  else r.

Definition EqualFold (s t : text) : bool :=
  bool_decide (map simple_fold s = map simple_fold t).

Definition is_empty_text (s : text) : bool :=
  match s with [] => true | _ => false end.

Section Extraction.
Variable E : Env.

(** [doc.Find("title").Each]: every title element overwrites [title]. *)
Definition extract_title (doc : Document) : text :=
  fold_left (fun _ s => Normalizer.TrimAndSanitize (Sanitize E) s)
            (doc_title doc) [].

(** [doc.Find("meta").Each] *)
Definition extract_description (title : text) (doc : Document) : text :=
  fold_left
    (fun description m =>
       if EqualFold (meta_name m) (text_of_string "description") then
         match meta_content m with
         | Some content => content
         | None => title
         end
       else description)
    (doc_meta doc) [].

(** [doc.Find("p").Each] *)
Definition extract_paragraphs (doc : Document) : list text :=
  fold_left
    (fun paragraphs s =>
       let para := Normalizer.TrimAndSanitize (Sanitize E) s in
       if negb (is_empty_text para) then paragraphs ++ [para] else paragraphs)
    (doc_p doc) [].

(** [doc.Find("a").Each] *)
Definition extract_urls (url : string) (doc : Document) : list string :=
  fold_left
    (fun urls a =>
       match a with
       | Some href =>
           match AbsoluteURL url href with
           | Err _ => urls
           | Ok absoluteUrl =>
               if negb (URLExists urls absoluteUrl)
               then urls ++ [absoluteUrl] else urls
           end
       | None => urls
       end)
    (doc_a doc) [].

(** [channel <- r]; the caller returns right after. *)
Definition send (r : ScrapeResult) : M ScrapeResult :=
  emit (EvSend r) ;;; ret r.

Definition fail_with (url : string) (e : error) : M ScrapeResult :=
  ts <- CurrentTimestamp E ;;
  ScrapeFailed url (FailedPage.mk url e ts) ;;;
  send (mkScrapeResult None (Some e)).

(** [Scrapper.Scrape], run in goroutine [gid] up to its send. *)
Definition Scrape (gid : Z) (url : string) : M ScrapeResult :=
  if String.eqb url "" then
    send (mkScrapeResult None (Some "empty url"))
  else
    visited <- IsVisited url ;;
    if visited then
      send (mkScrapeResult None (Some "page already visited"))
    else
      free <- IsProcessed url ;;
      if negb free then
        send (mkScrapeResult None (Some "page still being processed"))
      else
        InitiateScrape gid url ;;;
        head <- HeadRequest E url ;;
        match head with
        | Err headError => fail_with url headError
        | Ok headResponse =>
            let contentLength := Resp_ContentLength headResponse in
            let contentType := ToLower (Header_ContentType headResponse) in
            if negb (Contains contentType "text/html") then
              ts <- CurrentTimestamp E ;;
              let page := SucceededPage.mk url [] [] contentType
                            contentLength ts [] [] in
              ScrapeSucceed url page ;;;
              send (mkScrapeResult (Some page) None)
            else
              get <- GetRequest E url ;;
              match get with
              | Err getError => fail_with url getError
              | Ok getResponse =>
                  match Body getResponse with
                  | Err err => fail_with url err
                  | Ok doc =>
                      let title := extract_title doc in
                      let description := extract_description title doc in
                      let paragraphs := extract_paragraphs doc in
                      let urls := extract_urls url doc in
                      ts <- CurrentTimestamp E ;;
                      let page := SucceededPage.mk url title description
                                    contentType contentLength ts urls
                                    paragraphs in
                      ScrapeSucceed url page ;;;
                      send (mkScrapeResult (Some page) None)
                  end
              end
        end.

(** ** collector/collector.go: the orchestrator

    The goroutines of one [Crawl] frame are run in the order of the [go]
    statements, each up to its send on the unbuffered channel; the
    receive loop then takes the results in that order. This is one
    schedule of the program; the orchestrator and its goroutines under
    every schedule are [crawl_step], further down. *)

Definition spawn (url : string) : M Z :=
  fun w =>
    let gid := (goroutines w + 1)%Z in
    Done gid (mkWorld (scrapper w) (loggers w) (clock w) gid
                      (trace w ++ [EvGo gid url])).

(** [for _, u := range page.Urls { go c.Scrapper.Scrape(u, channel, &wg) }] *)
Fixpoint launch_all (urls : list string) : M (list ScrapeResult) :=
  match urls with
  | [] => ret []
  | u :: rest =>
      gid <- spawn u ;;
      r <- Scrape gid u ;;
      rs <- launch_all rest ;;
      ret (r :: rs)
  end.

Definition log_scrape_error (scrapeResult : ScrapeResult) : M unit :=
  match Error scrapeResult with
  | Some e => Log ERROR ("Scrape error: " +:+ e +:+ nl)
  | None => ret tt
  end.

(** [for range page.Urls { scrapeResult := <-channel; ... }], with the
    recursive call as [crawl]. *)
Fixpoint receive_all (crawl : option SucceededPage.t -> M unit)
         (results : list ScrapeResult) : M unit :=
  match results with
  | [] => ret tt
  | scrapeResult :: rest =>
      emit (EvRecv scrapeResult) ;;;
      log_scrape_error scrapeResult ;;;
      match Page scrapeResult with
      | Some p => crawl (Some p)
      | None => ret tt
      end ;;;
      receive_all crawl rest
  end.

(** [Collector.Crawl], by recursion on the depth that is left:
    [depth <= 0] is [Z.to_nat depth = 0], and [depth-1] is its
    predecessor. *)
Fixpoint Crawl_at (n : nat) (page : option SucceededPage.t) : M unit :=
  match page with
  | None => ret tt
  | Some p =>
      match n with
      | O => ret tt
      | S n' =>
          results <- launch_all (SucceededPage.Urls p) ;;
          receive_all (Crawl_at n') results
      end
  end.

Definition Crawl (page : option SucceededPage.t) (depth : Z) : M unit :=
  Crawl_at (Z.to_nat depth) page.

Definition SaveResultsToFile (c : Collector) : M (bool * option error) :=
  n1 <- NumberOfPagesSucceed ;;
  n2 <- NumberOfPagesFailed ;;
  Log INFO ("Collecting finished " +:+ itoa n1
            +:+ " pages scrapped successfully " +:+ itoa n2
            +:+ " pages failed" +:+ nl) ;;;
  succeededPages <- NumberOfPagesSucceed ;;
  failedPages <- NumberOfPagesFailed ;;
  let totalPages := (succeededPages + failedPages)%Z in
  s <- get_scrapper ;;
  let data := mkResultData (Seed c) (Depth c) totalPages succeededPages
                           failedPages (Succeed s) (Failed s) in
  match json_MarshalIndent E with
  | Some err =>
      Log ERROR ("Error marshalling to json the results: " +:+ err +:+ nl) ;;;
      ret (false, Some err)
  | None =>
      match ioutil_WriteFile E (FileName c) with
      | Some err =>
          Log ERROR ("Error saving the results into the file: " +:+ err
                     +:+ nl) ;;;
          ret (false, Some err)
      | None =>
          emit (EvWriteFile (FileName c) data) ;;;
          Log INFO ("Results saved successfully into the file :"
                    +:+ FileName c +:+ nl) ;;;
          ret (true, None)
      end
  end.

Definition StartCrawling (c : Collector) : M (Z * option error) :=
  let message := "Crawling starting for url: " +:+ Seed c
                 +:+ " with depth: " +:+ itoa (Depth c) +:+ nl in
  emit (EvPrint message) ;;;
  Log INFO message ;;;
  gid <- spawn (Seed c) ;;
  sent <- Scrape gid (Seed c) ;;
  emit (EvRecv sent) ;;;
  let scrapeResult := sent in
  log_scrape_error scrapeResult ;;;
  match Page scrapeResult with
  | Some p => Crawl (Some p) (Depth c - 1)
  | None => ret tt
  end ;;;
  (if SaveToFile c then SaveResultsToFile c ;;; ret tt else ret tt) ;;;
  n <- NumberOfPagesSucceed ;;
  ret (n, None).

(** [NewCollector]: the collector and the world it starts in. *)
Definition NewCollector (seed : string) (depth : Z) (saveToFile : bool)
           (fileName : string) : result (Collector * World) :=
  match NetURL.ParseRequestURI seed with
  | None => Err "seed is not valid url"   (* the parser's own text is left out *)
  | Some _ =>
      if (depth <=? 0)%Z then Err "depth should be a positive number"
      else
        let '(loggers, err) := CreateLoggers E LogFile in
        let console :=
          match err with
          | Some e => [EvPrint ("Error creating loggers: " +:+ e +:+ nl)]
          | None => []
          end in
        Ok (mkCollector seed depth saveToFile fileName,
            mkWorld NewScrapper loggers 0 1 console)
  end.

End Extraction.

(** ** Scrape units side by side

    The same [Scrape], cut at its calls into the tracker, the network and
    the channel: a unit is a goroutine, its URL and the point it has
    reached. Every mutex-guarded method is one step, so units started by
    different frames interleave between steps. *)

Inductive pc :=
| PStart                                   (* before [IsVisited] *)
| PCheckProcessed                          (* before [IsProcessed] *)
| PMark                                    (* before [InitiateScrape] *)
| PHead                                    (* before [HeadRequest] *)
| PGet (contentType : string) (contentLength : Z)   (* before [GetRequest] *)
| PFail (e : error)                        (* before [ScrapeFailed] *)
| PSucceed (page : SucceededPage.t)        (* before [ScrapeSucceed] *)
| PSend (r : ScrapeResult)                 (* before the send *)
| PDone (r : ScrapeResult).                (* returned *)

Record Unit := mkUnit { u_gid : Z; u_url : string; u_pc : pc }.

Definition with_Timestamp (ts : Z) (p : SucceededPage.t) : SucceededPage.t :=
  SucceededPage.mk (SucceededPage.Url p) (SucceededPage.Title p)
    (SucceededPage.Description p) (SucceededPage.ContentType p)
    (SucceededPage.ContentLength p) ts (SucceededPage.Urls p)
    (SucceededPage.Paragrahps p).

Section Units.
Variable E : Env.

Definition unit_step (u : Unit) : M Unit :=
  let gid := u_gid u in
  let url := u_url u in
  let goto p := ret (mkUnit gid url p) in
  match u_pc u with
  | PStart =>
      if String.eqb url "" then
        goto (PSend (mkScrapeResult None (Some "empty url")))
      else
        visited <- IsVisited url ;;
        if visited
        then goto (PSend (mkScrapeResult None (Some "page already visited")))
        else goto PCheckProcessed
  | PCheckProcessed =>
      free <- IsProcessed url ;;
      if negb free
      then goto (PSend (mkScrapeResult None
                          (Some "page still being processed")))
      else goto PMark
  | PMark => InitiateScrape gid url ;;; goto PHead
  | PHead =>
      head <- HeadRequest E url ;;
      match head with
      | Err headError => goto (PFail headError)
      | Ok headResponse =>
          let contentLength := Resp_ContentLength headResponse in
          let contentType := ToLower (Header_ContentType headResponse) in
          if negb (Contains contentType "text/html")
          then goto (PSucceed (SucceededPage.mk url [] [] contentType
                                 contentLength 0 [] []))
          else goto (PGet contentType contentLength)
      end
  | PGet contentType contentLength =>
      get <- GetRequest E url ;;
      match get with
      | Err getError => goto (PFail getError)
      | Ok getResponse =>
          match Body getResponse with
          | Err err => goto (PFail err)
          | Ok doc =>
              let title := extract_title E doc in
              goto (PSucceed (SucceededPage.mk url title
                                (extract_description title doc) contentType
                                contentLength 0 (extract_urls url doc)
                                (extract_paragraphs E doc)))
          end
      end
  | PFail e =>
      ts <- CurrentTimestamp E ;;
      ScrapeFailed url (FailedPage.mk url e ts) ;;;
      goto (PSend (mkScrapeResult None (Some e)))
  | PSucceed page0 =>
      ts <- CurrentTimestamp E ;;
      let page := with_Timestamp ts page0 in
      ScrapeSucceed url page ;;;
      goto (PSend (mkScrapeResult (Some page) None))
  | PSend r => emit (EvSend r) ;;; goto (PDone r)
  | PDone r => ret u
  end.

(** A unit run alone for [n] steps. *)
Fixpoint unit_run (n : nat) (u : Unit) : M Unit :=
  match n with
  | O => ret u
  | S n' => u' <- unit_step u ;; unit_run n' u'
  end.

(** Race-free scheduling: the entry sequence check, check, mark of a unit
    is not interleaved with other units; later steps are. *)
Definition racefree_step (u : Unit) : M Unit :=
  match u_pc u with
  | PStart =>
      u1 <- unit_step u ;;
      match u_pc u1 with
      | PCheckProcessed =>
          u2 <- unit_step u1 ;;
          match u_pc u2 with
          | PMark => unit_step u2
          | _ => ret u2
          end
      | _ => ret u1
      end
  | _ => unit_step u
  end.

Definition initial (w : World) : Prop :=
  scrapper w = NewScrapper /\ Forall (fun e => exists m, e = EvPrint m) (trace w).

(** The worlds and unit pools a run can be in, when units are launched
    at any time for any URL and advanced in any order by [step]. *)
Inductive reachable (step : Unit -> M Unit) : World -> list Unit -> Prop :=
| reach_init w0 :
    initial w0 -> reachable step w0 []
| reach_launch w us url gid w' :
    reachable step w us ->
    spawn url w = Done gid w' ->
    reachable step w' (us ++ [mkUnit gid url PStart])
| reach_step w us i u u' w' :
    reachable step w us ->
    us !! i = Some u ->
    step u w = Done u' w' ->
    reachable step w' (<[i := u']> us).

End Units.

(** The state tracker read as sets of URLs. *)
Definition succeeded (w : World) (url : string) : Prop :=
  is_Some (Succeed (scrapper w) !! url).
Definition failed (w : World) (url : string) : Prop :=
  is_Some (Failed (scrapper w) !! url).
Definition in_flight (w : World) (url : string) : Prop :=
  is_Some (InProcess (scrapper w) !! url).

(** The link graph a world has observed: an edge from a succeeded URL to
    each outbound link of its page record. *)
Definition edge (w : World) (u v : string) : Prop :=
  exists p, Succeed (scrapper w) !! u = Some p /\ In v (SucceededPage.Urls p).

(** [within w n seed u]: [u] is at most [n] links away from [seed]. *)
Inductive within (w : World) (seed : string) : nat -> string -> Prop :=
| within_seed n : within w seed n seed
| within_edge n m u : within w seed n m -> edge w m u -> within w seed (S n) u.

(** Counting the events of one kind in a trace. *)
Definition is_send (e : Event) : bool :=
  match e with EvSend _ => true | _ => false end.
Definition is_recv (e : Event) : bool :=
  match e with EvRecv _ => true | _ => false end.
Definition is_go (e : Event) : bool :=
  match e with EvGo _ _ => true | _ => false end.
Definition is_commit (e : Event) : bool :=
  match e with EvSucceed _ | EvFailed _ => true | _ => false end.
Definition is_request (e : Event) : bool :=
  match e with EvDo _ _ => true | _ => false end.

Definition count (p : Event -> bool) (tr : list Event) : nat :=
  List.length (List.filter p tr).

(** The events a computation adds to the trace of the world it starts in. *)
Definition added (w w' : World) : list Event :=
  List.skipn (List.length (trace w)) (trace w').

(** A pool advanced along a schedule: the number [i] steps unit [i]. *)
Fixpoint pool_run (step : Unit -> M Unit) (sched : list nat) (w : World)
         (us : list Unit) : option (World * list Unit) :=
  match sched with
  | [] => Some (w, us)
  | i :: rest =>
      match us !! i with
      | None => None
      | Some u =>
          match step u w with
          | Panic => None
          | Done u' w' => pool_run step rest w' (<[i := u']> us)
          end
      end
  end.

(** The world after [go] has started goroutine [gid] for [url]. *)
Definition logged_go (w : World) (gid : Z) (url : string) : World :=
  mkWorld (scrapper w) (loggers w) (clock w) gid (trace w ++ [EvGo gid url]).

(** ** Concrete environments, for the examples *)

Module Examples.

(** The world of a collector whose log file could be opened. *)
Definition world0 : World := mkWorld NewScrapper (Some []) 0 1 [].

Definition respond (status : Z) (contentType : string)
           (body : result Document) : result Response :=
  Ok (mkResponse status contentType 10 body).

Definition html (links : list string) : result Response :=
  respond 200 "text/html; charset=UTF-8"
          (Ok (mkDocument [text_of_string " A  page "] [] []
                          (map Some links))).

Definition pdf : result Response :=
  respond 200 "application/pdf" (Err "not a document").

Definition env_of (net : nat -> Method -> string -> result Response)
           (open : string -> option error) : Env :=
  mkEnv (fun t => t) (fun _ _ => None) net (fun n => 1000 + Z.of_nat n)%Z
        open None (fun _ => None).

(** Every request is answered with the given status and no content. *)
Definition env_status (status : Z) : Env :=
  env_of (fun _ _ _ => respond status "text/html" (Ok (mkDocument [] [] [] [])))
         (fun _ => None).

(** Every request is answered with a PDF. *)
Definition env_pdf : Env := env_of (fun _ _ _ => pdf) (fun _ => None).

(** The log file cannot be opened. *)
Definition env_nolog : Env :=
  env_of (fun _ _ _ => pdf) (fun _ => Some "open logs.txt: permission denied").

Definition seed : string := "https://s.test/".
Definition flaky : string := "https://s.test/u".
Definition other : string := "https://s.test/p".

(** A site whose seed links to [flaky] and [other], and [other] links to
    [flaky] again; the first request for [flaky] times out, the second
    is answered. *)
Definition net_flaky (n : nat) (m : Method) (url : string) : result Response :=
  if String.eqb url seed then html ["/u"; "/p"]
  else if String.eqb url other then html ["/u"]
  else if String.eqb url flaky then
    if Nat.ltb n 3 then Err "context deadline exceeded" else pdf
  else Err "no such host".

Definition env_flaky : Env := env_of net_flaky (fun _ => None).

(** [flaky] alone: the first request fails, later ones are answered. *)
Definition net_retry (n : nat) (m : Method) (url : string) : result Response :=
  if Nat.eqb n 0 then Err "context deadline exceeded" else pdf.

Definition env_retry : Env := env_of net_retry (fun _ => None).

(** The world after a first launch for [flaky], and after a second. *)
Definition world_of (o : Outcome ScrapeResult) (w : World) : World :=
  match o with Done _ w' => w' | Panic => w end.

Definition after_failure : World :=
  world_of (Scrape env_retry 2 flaky world0) world0.

Definition after_retry : World :=
  world_of (Scrape env_retry 3 flaky after_failure) after_failure.


(** One unit for [flaky], launched and past its entry sequence. *)
Definition launched_world : World := logged_go world0 2 flaky.

Definition marked_world : World :=
  match racefree_step env_pdf (mkUnit 2 flaky PStart) launched_world with
  | Done _ w => w
  | Panic => launched_world
  end.

End Examples.

(** ** Predicates of the statements *)

(** The world after one more event. *)
Definition logged (w : World) (e : Event) : World :=
  mkWorld (scrapper w) (loggers w) (clock w) (goroutines w) (trace w ++ [e]).

(** The steps of the orchestrator that leave the state tracker alone. *)
Definition same_tracker (w w' : World) (evs : list Event) : Prop :=
  scrapper w' = scrapper w /\ trace w' = trace w ++ evs
  /\ (is_Some (loggers w) -> is_Some (loggers w')).

(** [grows w w']: records are only added, and the in-flight markers are
    as before. *)
Definition grows (w w' : World) : Prop :=
  Succeed (scrapper w) ⊆ Succeed (scrapper w')
  /\ (forall u, failed w u -> failed w' u)
  /\ InProcess (scrapper w') = InProcess (scrapper w)
  /\ (is_Some (loggers w) -> is_Some (loggers w')).

(** Every URL in a terminal collection is at most [b] links from the seed. *)
Definition bounded (w : World) (seed : string) (b : nat) : Prop :=
  forall u, succeeded w u \/ failed w u -> within w seed b u.

(** The frame below [p], given what is known when it is entered. *)
Definition frame_ok (seed : string) (b : nat) (n k : nat)
           (crawl : option SucceededPage.t -> M unit) : Prop :=
  forall (p : SucceededPage.t) (w w' : World),
    crawl (Some p) w = Done tt w' ->
    Succeed (scrapper w) !! SucceededPage.Url p = Some p ->
    within w seed k (SucceededPage.Url p) ->
    (k + n <= b)%nat ->
    bounded w seed b ->
    grows w w' /\ bounded w' seed b.

Definition silent (e : Event) : bool :=
  match e with EvPrint _ | EvWriteFile _ _ => true | _ => false end.

Definition quiet {A} (c : M A) : Prop :=
  forall w a w', c w = Done a w' ->
                 exists evs, same_tracker w w' evs /\ forallb silent evs = true.

(** What a computation adds to the trace: [gos] launches, [sends] sends,
    [recvs] receives. *)
Definition adds (w w' : World) (gos sends recvs : nat) : Prop :=
  exists evs, trace w' = trace w ++ evs
              /\ count is_go evs = gos /\ count is_send evs = sends
              /\ count is_recv evs = recvs.

(** A nested frame that is balanced in itself. *)
Definition balanced_frame (crawl : option SucceededPage.t -> M unit) : Prop :=
  forall page w w', crawl page w = Done tt w' -> exists n, adds w w' n n n.

(** The entry checks of [Scrape] turn the launch away. *)
Definition rejected (w : World) (url : string) : Prop :=
  url = "" \/ succeeded w url \/ in_flight w url.

(** Nothing fetched, nothing committed, [g] units launched. *)
Definition no_fetch (w w' : World) (g : nat) : Prop :=
  scrapper w' = scrapper w
  /\ exists evs, trace w' = trace w ++ evs /\ count is_go evs = g
                 /\ count is_request evs = 0%nat /\ count is_commit evs = 0%nat.

Inductive kind := KSame | KMark | KCommit.

Definition no_initiate (evs : list Event) : Prop :=
  forall u, ~ In (EvInitiate u) evs.

(** What one step of a unit for [url] does to the tracker. *)
Definition move (k : kind) (url : string) (gid : Z) (w w' : World) : Prop :=
  match k with
  | KSame =>
      scrapper w' = scrapper w
      /\ exists evs, trace w' = trace w ++ evs /\ no_initiate evs
  | KMark =>
      Succeed (scrapper w') = Succeed (scrapper w)
      /\ Failed (scrapper w') = Failed (scrapper w)
      /\ InProcess (scrapper w') = <[url := gid]> (InProcess (scrapper w))
      /\ trace w' = trace w ++ [EvInitiate url]
  | KCommit =>
      InProcess (scrapper w') = delete url (InProcess (scrapper w))
      /\ ((exists p, Succeed (scrapper w') = <[url := p]> (Succeed (scrapper w))
                     /\ Failed (scrapper w') = Failed (scrapper w))
          \/ (exists fp, Failed (scrapper w') = <[url := fp]> (Failed (scrapper w))
                         /\ Succeed (scrapper w') = Succeed (scrapper w)))
      /\ exists evs, trace w' = trace w ++ evs /\ no_initiate evs
  end.

(** No URL is in-flight and succeeded at once. *)
Definition disjoint_marks (w : World) : Prop :=
  forall u, in_flight w u -> ~ succeeded w u.

(** Every URL that was ever marked in-flight is in one of the collections. *)
Definition covered (w : World) : Prop :=
  forall u, In (EvInitiate u) (trace w) ->
            in_flight w u \/ succeeded w u \/ failed w u.

Definition is_late (p : pc) : bool :=
  match p with PStart | PCheckProcessed | PMark => false | _ => true end.


(** ** The extraction loops, their bodies apart *)

(** The body of [doc.Find("a").Each] in [Scrape]. *)
Definition link_step (url : string) (urls : list string) (a : option string)
  : list string :=
  match a with
  | Some href =>
      match AbsoluteURL url href with
      | Err _ => urls
      | Ok absoluteUrl =>
          if negb (URLExists urls absoluteUrl)
          then urls ++ [absoluteUrl] else urls
      end
  | None => urls
  end.

(** The meta elements that [Scrape] takes the description from. *)
Definition is_description (m : MetaTag) : bool :=
  EqualFold (meta_name m) (text_of_string "description").

(** No two neighbours in the text are both in the class of the pattern. *)
Fixpoint single_spaced (s : text) : bool :=
  match s with
  | [] => true
  | r :: s' =>
      negb (Normalizer.class_space r && Normalizer.starts_class s')
      && single_spaced s'
  end.

(** Neither the first nor the last rune is white space. *)
Definition no_space_at_ends (s : text) : Prop :=
  match s with r :: _ => Normalizer.IsSpace r = false | [] => True end
  /\ match rev s with r :: _ => Normalizer.IsSpace r = false | [] => True end.

(** ** Observing a unit and the tracker *)

(** The requests among the events. *)
Definition requests (evs : list Event) : list Event :=
  List.filter is_request evs.

Definition is_write (e : Event) : bool :=
  match e with EvWriteFile _ _ => true | _ => false end.

(** What a query of the tracker answers in a world. *)
Definition answer {A} (c : M A) (w : World) : option A :=
  match c w with Done a _ => Some a | Panic => None end.

(** The three queries for one URL, side by side. *)
Definition status (url : string) (w : World) : option (bool * bool * bool) :=
  answer (visited <- IsVisited url ;;
          free <- IsProcessed url ;;
          failed <- IsFailed url ;;
          ret (visited, free, failed)) w.

(** The three counters of the tracker. *)
Definition counts (w : World) : option (Z * Z * Z) :=
  answer (succeeded <- NumberOfPagesSucceed ;;
          failed <- NumberOfPagesFailed ;;
          processing <- NumberOfPagesBeingProcessed ;;
          ret (succeeded, failed, processing)) w.

(** The world after [InitiateScrape]. *)
Definition marked (w : World) (gid : Z) (url : string) : World :=
  mkWorld (mkScrapper (Succeed (scrapper w)) (Failed (scrapper w))
                      (<[url := gid]> (InProcess (scrapper w))))
          (loggers w) (clock w) (goroutines w) (trace w ++ [EvInitiate url]).

(** The world after a request has gone out. *)
Definition requested (w : World) (m : Method) (url : string) : World :=
  mkWorld (scrapper w) (loggers w) (S (clock w)) (goroutines w)
          (trace w ++ [EvDo m url]).

(** The record [SaveResultsToFile] builds from the tracker of a world. *)
Definition result_data (c : Collector) (w : World) : ResultData :=
  let succeededPages := Z.of_nat (size (Succeed (scrapper w))) in
  let failedPages := Z.of_nat (size (Failed (scrapper w))) in
  mkResultData (Seed c) (Depth c) (succeededPages + failedPages)
               succeededPages failedPages
               (Succeed (scrapper w)) (Failed (scrapper w)).

(** Every request is answered with a page that cannot be read. *)
Definition env_unreadable : Env :=
  Examples.env_of
    (fun _ _ _ => Examples.respond 200 "text/html" (Err "unexpected EOF"))
    (fun _ => None).

(** ** searcher/indexer.go

    The inverted index [Indexer.Indexes] maps a token to the URLs of the
    documents that hold it. [Tokenizer], [Filterer] and [Stemmer], which
    make up [Analyze], are declared in other files of the package:
    [Analyze] is a parameter here. Reading the collector's document goes
    through [os], [ioutil] and [encoding/json]; what they give is a
    parameter as well. The ranks of [Search] are [float64] quotients and
    are left out, with the sort that follows them. *)

Module Searcher.

(** The body of the loop of [AddIndex], for one token. *)
Definition add_token (url : string) (indexes : gmap string (list string))
           (token : string) : gmap string (list string) :=
  match indexes !! token with
  | Some urls =>
      let urls := if negb (URLExists urls url) then urls ++ [url] else urls in
      <[token := urls]> indexes
  | None => <[token := [url]]> indexes
  end.

Definition AddIndex (tokens : list string) (url : string)
           (indexes : gmap string (list string)) : gmap string (list string) :=
  fold_left (add_token url) tokens indexes.

(** Go's [int], 64 bits wide on the platforms of the program, wraps
    around. *)
Definition int (n : Z) : Z := ((n + 2 ^ 63) mod 2 ^ 64 - 2 ^ 63)%Z.

(** The first loop of [Search]: how often each URL is listed under the
    tokens of the phrase. *)
Definition count_url (frequency : gmap string Z) (url : string)
  : gmap string Z :=
  match frequency !! url with
  | Some v => <[url := int (v + 1)]> frequency
  | None => <[url := 1%Z]> frequency
  end.

Definition count_token (indexes : gmap string (list string))
           (frequency : gmap string Z) (token : string) : gmap string Z :=
  match indexes !! token with
  | Some urls => fold_left count_url urls frequency
  | None => frequency
  end.

Definition Search_frequency (tokens : list string)
           (indexes : gmap string (list string)) : gmap string Z :=
  fold_left (count_token indexes) tokens ∅.

(** [FindMax], over the entries in the order the [range] visits them,
    which Go leaves open. *)
Definition FindMax_range (visited : list (string * Z)) : Z :=
  fold_left (fun max entry => if (snd entry >? max)%Z then snd entry else max)
            visited 0%Z.

Definition FindMax (frequency : gmap string Z) : Z :=
  FindMax_range (map_to_list frequency).



End Searcher.

(** [url] is listed under [token]. *)
Definition posted (indexes : gmap string (list string)) (token url : string)
  : Prop :=
  exists urls, indexes !! token = Some urls /\ In url urls.

(** No URL is listed twice under one token. *)
Definition distinct_postings (indexes : gmap string (list string)) : Prop :=
  forall token urls, indexes !! token = Some urls -> List.NoDup urls.


(** The URLs listed under the tokens of a phrase, one after the other. *)
Definition postings (tokens : list string) (indexes : gmap string (list string))
  : list string :=
  flat_map (fun token => default [] (indexes !! token)) tokens.

(** How often [url] is among [urls]. *)
Definition occurrences (url : string) (urls : list string) : nat :=
  count_occ string_dec urls url.

(** A frequency map that holds the counts [g], and no entry for a count
    of zero. *)
Definition counted (frequency : gmap string Z) (g : string -> nat) : Prop :=
  forall u, frequency !! u
            = match g u with O => None | S _ => Some (Z.of_nat (g u)) end.


(** ** The orchestrator and its goroutines, interleaved

    [StartCrawling] and [Crawl] run in one goroutine, the orchestrator;
    every [go c.Scrapper.Scrape(..)] starts another. A goroutine advances
    by the steps of [unit_step] until its send; the send on the unbuffered
    channel of its frame happens together with a receive of the loop
    [for range page.Urls] of that frame. Between any two steps of one
    goroutine the others may take any number of steps. The [wg.Done] that
    [Scrape] defers follows the send and touches nothing but the wait
    group, so [wg.Wait] is passed as soon as the loop has taken the result
    of every goroutine of the frame. *)

(** A goroutine running [Scrape], and the channel it was given. *)
Record Task := mkTask { t_unit : Unit; t_chan : nat }.

(** A call of [Crawl] that has passed its two tests; the launch and the
    one receive of [StartCrawling] are such a frame as well, with the seed
    as its only URL and [c.Depth] as its depth. *)
Record Frame := mkFrame
  { f_chan : nat;             (* channel := make(chan ScrapeResult) *)
    f_depth : Z;              (* depth: the calls in the loop get depth-1 *)
    f_todo : list string;     (* the URLs the launch loop has not reached *)
    f_wait : nat }.           (* the results the receive loop has not taken *)

(** Where the orchestrator stands. *)
Inductive Ctl :=
| CBegin                          (* [StartCrawling] is about to run *)
| CLoop                           (* in the loops of the innermost frame *)
| CGot (r : ScrapeResult)         (* scrapeResult := <-channel is done *)
| CCall (r : ScrapeResult)        (* before the test of scrapeResult.Page *)
| CEnd (x : Z * option error).    (* [StartCrawling] has returned [x] *)

Record Run := mkRun
  { r_world : World;
    r_pool : list Task;           (* the goroutines started so far *)
    r_stack : list Frame;         (* the frames, innermost first *)
    r_ctl : Ctl;
    r_chans : nat }.              (* channels made so far *)

(** Who takes the next step. *)
Inductive Choice :=
| Orchestrator
| Goroutine (i : nat)             (* goroutine [i] takes a step of [Scrape] *)
| Receive (i : nat).              (* goroutine [i] sends, the loop receives *)

(** A goroutine at its send waits for the receiver. *)
Definition blocked (p : pc) : bool :=
  match p with PSend _ | PDone _ => true | _ => false end.

Section Concurrent.
Variable E : Env.
Variable c : Collector.

Definition goroutine_step (i : nat) (s : Run) : option Run :=
  match r_pool s !! i with
  | None => None
  | Some t =>
      if blocked (u_pc (t_unit t)) then None
      else
        match unit_step E (t_unit t) (r_world s) with
        | Panic => None
        | Done u' w' =>
            Some (mkRun w' (<[i := mkTask u' (t_chan t)]> (r_pool s))
                        (r_stack s) (r_ctl s) (r_chans s))
        end
  end.

Definition receive_step (i : nat) (s : Run) : option Run :=
  match r_ctl s, r_stack s, r_pool s !! i with
  | CLoop, f :: rest, Some t =>
      match f_todo f, f_wait f, u_pc (t_unit t) with
      | [], S n, PSend r =>
          if Nat.eqb (t_chan t) (f_chan f) then
            Some (mkRun (logged (logged (r_world s) (EvSend r)) (EvRecv r))
                        (<[i := mkTask (mkUnit (u_gid (t_unit t))
                                               (u_url (t_unit t)) (PDone r))
                                       (t_chan t)]> (r_pool s))
                        (mkFrame (f_chan f) (f_depth f) [] n :: rest)
                        (CGot r) (r_chans s))
          else None
      | _, _, _ => None
      end
  | _, _, _ => None
  end.

(** The end of [StartCrawling], when every goroutine has returned. *)
Definition finish : M (Z * option error) :=
  (if SaveToFile c then SaveResultsToFile E c ;;; ret tt else ret tt) ;;;
  n <- NumberOfPagesSucceed ;;
  ret (n, None).

Definition orchestrator_step (s : Run) : option Run :=
  match r_ctl s with
  | CBegin =>
      let message := "Crawling starting for url: " +:+ Seed c
                     +:+ " with depth: " +:+ itoa (Depth c) +:+ nl in
      match (emit (EvPrint message) ;;; Log INFO message) (r_world s) with
      | Panic => None
      | Done _ w' =>
          Some (mkRun w' (r_pool s)
                      [mkFrame (r_chans s) (Depth c) [Seed c] 1]
                      CLoop (S (r_chans s)))
      end
  | CLoop =>
      match r_stack s with
      | [] => None
      | f :: rest =>
          match f_todo f with
          | u :: todo =>
              (* go c.Scrapper.Scrape(u, channel, &wg) *)
              match spawn u (r_world s) with
              | Panic => None
              | Done gid w' =>
                  Some (mkRun w'
                          (r_pool s ++ [mkTask (mkUnit gid u PStart) (f_chan f)])
                          (mkFrame (f_chan f) (f_depth f) todo (f_wait f) :: rest)
                          CLoop (r_chans s))
              end
          | [] =>
              match f_wait f with
              | S _ => None                  (* waiting on the channel *)
              | O =>
                  (* wg.Wait() and the return *)
                  match rest with
                  | _ :: _ =>
                      Some (mkRun (r_world s) (r_pool s) rest CLoop (r_chans s))
                  | [] =>
                      match finish (r_world s) with
                      | Panic => None
                      | Done x w' =>
                          Some (mkRun w' (r_pool s) [] (CEnd x) (r_chans s))
                      end
                  end
              end
          end
      end
  | CGot r =>
      match log_scrape_error r (r_world s) with
      | Panic => None
      | Done _ w' =>
          Some (mkRun w' (r_pool s) (r_stack s) (CCall r) (r_chans s))
      end
  | CCall r =>
      match r_stack s with
      | [] => None
      | f :: _ =>
          match Page r with
          | None => Some (mkRun (r_world s) (r_pool s) (r_stack s) CLoop
                                (r_chans s))
          | Some page =>
              (* c.Crawl(scrapeResult.Page, depth-1) *)
              let depth := (f_depth f - 1)%Z in
              if (depth <=? 0)%Z then
                Some (mkRun (r_world s) (r_pool s) (r_stack s) CLoop (r_chans s))
              else
                Some (mkRun (r_world s) (r_pool s)
                            (mkFrame (r_chans s) depth (SucceededPage.Urls page)
                                     (List.length (SucceededPage.Urls page))
                             :: r_stack s)
                            CLoop (S (r_chans s)))
          end
      end
  | CEnd _ => None
  end.

Definition crawl_step (ch : Choice) (s : Run) : option Run :=
  match ch with
  | Orchestrator => orchestrator_step s
  | Goroutine i => goroutine_step i s
  | Receive i => receive_step i s
  end.

(** A run along a schedule. *)
Fixpoint crun (sched : list Choice) (s : Run) : option Run :=
  match sched with
  | [] => Some s
  | ch :: rest =>
      match crawl_step ch s with
      | None => None
      | Some s' => crun rest s'
      end
  end.

(** The state [StartCrawling] is called in. *)
Definition start (w0 : World) : Run := mkRun w0 [] [] CBegin 0.

(** The states a run from [w0] can be in, under every schedule. *)
Inductive crawling (w0 : World) : Run -> Prop :=
| crawling_start : crawling w0 (start w0)
| crawling_step s ch s' :
    crawling w0 s -> crawl_step ch s = Some s' -> crawling w0 s'.

(** The first choice that can take a step: the orchestrator, then the
    goroutines in the order of their launch, then the sends. *)
Definition enabled (s : Run) : list Choice :=
  List.filter (fun ch => match crawl_step ch s with Some _ => true | None => false end)
    (Orchestrator :: map Goroutine (seq 0 (List.length (r_pool s)))
     ++ map Receive (seq 0 (List.length (r_pool s)))).

(** A run in which the choice number [pick n] among the enabled ones
    takes step [n]. *)
Fixpoint drive (pick : nat -> nat) (n : nat) (fuel : nat) (s : Run) : Run :=
  match fuel with
  | O => s
  | S fuel' =>
      match enabled s with
      | [] => s
      | ch0 :: chs =>
          let ch := nth (pick n mod List.length (ch0 :: chs)) (ch0 :: chs) ch0 in
          match crawl_step ch s with
          | None => s
          | Some s' => drive pick (S n) fuel' s'
          end
      end
  end.

End Concurrent.

(** The links the crawl has seen: from the URL of a page record that a
    goroutine has sent to each link of that record. *)
Definition seen_link (tr : list Event) (u v : string) : Prop :=
  exists r p, In (EvSend r) tr /\ Page r = Some p
              /\ SucceededPage.Url p = u /\ In v (SucceededPage.Urls p).

(** [reached tr seed n u]: [u] is at most [n] seen links away from [seed]. *)
Inductive reached (tr : list Event) (seed : string) : nat -> string -> Prop :=
| reached_seed n : reached tr seed n seed
| reached_link n m u :
    reached tr seed n m -> seen_link tr m u -> reached tr seed (S n) u.

(** The level of a frame: how many links its URLs are from the seed. *)
Definition level (c : Collector) (f : Frame) : nat :=
  Z.to_nat (Depth c - f_depth f).

(** The page record a goroutine holds is the record of its own URL. *)
Definition own_page (u : Unit) : Prop :=
  match u_pc u with
  | PSucceed p => SucceededPage.Url p = u_url u
  | PSend r | PDone r =>
      forall p, Page r = Some p -> SucceededPage.Url p = u_url u
  | _ => True
  end.

(** A URL the tracker holds, in any of its three maps. *)
Definition tracked (w : World) (u : string) : Prop :=
  succeeded w u \/ failed w u \/ in_flight w u.

(** What holds of the goroutines, the frames and the tracker at every
    instant of a run of the collector [c]. *)
Definition depth_inv (c : Collector) (s : Run) : Prop :=
  let tr := trace (r_world s) in
  (forall t, In t (r_pool s) ->
     reached tr (Seed c) (Z.to_nat (Depth c - 1)) (u_url (t_unit t))
     /\ own_page (t_unit t)
     /\ (t_chan t < r_chans s)%nat
     /\ forall f, In f (r_stack s) -> f_chan f = t_chan t ->
                  reached tr (Seed c) (level c f) (u_url (t_unit t)))
  /\ (forall f, In f (r_stack s) ->
        (1 <= f_depth f <= Depth c)%Z /\ (f_chan f < r_chans s)%nat
        /\ forall u, In u (f_todo f) -> reached tr (Seed c) (level c f) u)
  /\ List.NoDup (map f_chan (r_stack s))
  /\ (forall u, tracked (r_world s) u ->
                exists t, In t (r_pool s) /\ u_url (t_unit t) = u)
  /\ match r_ctl s with
     | CGot r | CCall r =>
         exists f rest,
           r_stack s = f :: rest
           /\ forall p, Page r = Some p ->
                        In (EvSend r) tr
                        /\ reached tr (Seed c) (level c f) (SucceededPage.Url p)
     | _ => True
     end.

(** The frames of a run lie one depth level apart, the outermost at the
    depth [d] of the collector. *)
Inductive nested (d : Z) : list Frame -> Prop :=
| nested_none : nested d []
| nested_outer f : f_depth f = d -> nested d [f]
| nested_inner f g rest :
    f_depth f = (f_depth g - 1)%Z -> nested d (g :: rest) ->
    nested d (f :: g :: rest).

(** The requests a goroutine at [p] can have made, and whether it has
    committed its record. *)
Definition spent (p : pc) : nat :=
  match p with
  | PStart | PCheckProcessed | PMark | PHead => 0
  | PGet _ _ => 1
  | _ => 2
  end.

Definition committed (p : pc) : nat :=
  match p with PSend _ | PDone _ => 1 | _ => 0 end.

(** A goroutine that has sent its result and returned. *)
Definition is_done (p : pc) : bool :=
  match p with PDone _ => true | _ => false end.

Definition returned (p : pc) : nat := if is_done p then 1 else 0.

(** A measure of the goroutines, summed over the pool. *)
Definition summed (f : pc -> nat) (pool : list Task) : nat :=
  list_sum (map (fun t => f (u_pc (t_unit t))) pool).

(** The result file is written: the collector was asked to, and
    marshalling and writing succeed. *)
Definition saves (E : Env) (c : Collector) : bool :=
  match SaveToFile c, json_MarshalIndent E, ioutil_WriteFile E (FileName c) with
  | true, None, None => true
  | _, _, _ => false
  end.

(** The events of a run, counted against its goroutines. *)
Definition budget_inv (E : Env) (c : Collector) (s : Run) : Prop :=
  let tr := trace (r_world s) in
  count is_go tr = List.length (r_pool s)
  /\ (count is_request tr <= summed spent (r_pool s))%nat
  /\ (count is_commit tr <= summed committed (r_pool s))%nat
  /\ count is_send tr = summed returned (r_pool s)
  /\ count is_recv tr = summed returned (r_pool s)
  /\ count is_write tr
     = match r_ctl s with
       | CEnd _ => if saves E c then 1%nat else 0%nat
       | _ => 0%nat
       end.

(** Between its mark and its commit. *)
Definition mid (p : pc) : bool :=
  match p with PHead | PGet _ _ | PFail _ | PSucceed _ => true | _ => false end.

(** The goroutines of channel [ch] that have not returned. *)
Definition live (ch : nat) (pool : list Task) : nat :=
  List.length (List.filter (fun t => Nat.eqb (t_chan t) ch
                                     && negb (is_done (u_pc (t_unit t)))) pool).

(** What the frames wait for, and what the end of a run looks like. *)
Definition join_inv (E : Env) (c : Collector) (s : Run) : Prop :=
  let w := r_world s in
  (forall f, In f (r_stack s) ->
             f_wait f = (List.length (f_todo f) + live (f_chan f) (r_pool s))%nat)
  /\ (forall t, In t (r_pool s) ->
                is_done (u_pc (t_unit t)) = true
                \/ exists f, In f (r_stack s) /\ f_chan f = t_chan t)
  /\ (forall u, in_flight w u ->
                exists t, In t (r_pool s) /\ u_url (t_unit t) = u
                          /\ mid (u_pc (t_unit t)) = true)
  /\ covered w
  /\ match r_ctl s with
     | CEnd x =>
         r_stack s = []
         /\ x = (Z.of_nat (size (Succeed (scrapper w))), None)
         /\ (saves E c = true ->
             exists tr, trace w = tr ++ [EvWriteFile (FileName c)
                                           (result_data c w)])
     | CBegin => r_pool s = []
     | _ => True
     end.

(** What the end of a run relies on: the URL of a goroutine past its entry
    checks is in the tracker, and the seed has a goroutine once it is
    launched. *)
Definition settle_inv (c : Collector) (s : Run) : Prop :=
  (forall t, In t (r_pool s) -> is_late (u_pc (t_unit t)) = true ->
             u_url (t_unit t) = ""
             \/ tracked (r_world s) (u_url (t_unit t)))
  /\ match r_ctl s with
     | CBegin => True
     | _ => (exists f, In f (r_stack s) /\ In (Seed c) (f_todo f))
            \/ exists t, In t (r_pool s) /\ u_url (t_unit t) = Seed c
     end.

(** The loggers are in place, and the receive loop has its frame. *)
Definition awake_inv (s : Run) : Prop :=
  is_Some (loggers (r_world s))
  /\ match r_ctl s with
     | CLoop | CGot _ | CCall _ => r_stack s <> []
     | _ => True
     end.

(** Every page record that was sent is still the record of its URL, as
    far as its links go. *)
Definition links_kept (w : World) : Prop :=
  forall r p, In (EvSend r) (trace w) -> Page r = Some p ->
              exists q, Succeed (scrapper w) !! SucceededPage.Url p = Some q
                        /\ SucceededPage.Urls q = SucceededPage.Urls p.

(** A crawl of the site of [Examples.net_flaky] to depth 3, on the
    schedule on which step [n] is taken by choice number [n] among those
    that can move. *)
Definition demo_collector : Collector :=
  mkCollector Examples.seed 3 false "out.json".

Definition demo_run : Run :=
  drive Examples.env_flaky demo_collector (fun n => n) 0 300
        (start Examples.world0).

(** A crawl of one PDF document, saved to a file, on the schedule on which
    the first choice that can move does. *)
Definition pdf_collector : Collector :=
  mkCollector "https://a.test/doc.pdf" 1 true "out.json".

Definition pdf_run : Run :=
  drive Examples.env_pdf pdf_collector (fun _ => 0%nat) 0 100
        (start Examples.world0).

(** A site that changes while it is crawled, and a schedule on which two
    goroutines for one of its pages both pass the entry checks. *)
Module Shifting.

Definition seed : string := "https://r.test/".
Definition page_a : string := "https://r.test/a".
Definition page_b : string := "https://r.test/b".
Definition page_c : string := "https://r.test/c".

(** The seed links to [page_a] and [page_b], and [page_b] to [page_a];
    [page_a] links to [page_c] until six requests have been made, and to
    nothing from then on. *)
Definition net (n : nat) (m : Method) (url : string) : result Response :=
  if String.eqb url seed then Examples.html ["/a"; "/b"]
  else if String.eqb url page_b then Examples.html ["/a"]
  else if String.eqb url page_a then
    if Nat.ltb n 6 then Examples.html ["/c"] else Examples.html []
  else if String.eqb url page_c then Examples.pdf
  else Err "no such host".

Definition env : Env := Examples.env_of net (fun _ => None).

Definition collector : Collector := mkCollector seed 3 false "out.json".

(** Goroutine 1 is the one the frame of the seed starts for [page_a],
    goroutine 3 the one the frame of [page_b] starts for it. Both take
    their entry checks before either marks the page; goroutine 1 commits
    its record first and waits at its send while the inner frame receives
    the record of goroutine 3, which has replaced it. *)
Definition schedule : list Choice :=
  [Orchestrator; Orchestrator] ++ repeat (Goroutine 0) 6
  ++ [Receive 0; Orchestrator; Orchestrator; Orchestrator; Orchestrator]
  ++ repeat (Goroutine 2) 6
  ++ [Receive 2; Orchestrator; Orchestrator; Orchestrator]
  ++ repeat (Goroutine 1) 2 ++ repeat (Goroutine 3) 2
  ++ repeat (Goroutine 1) 4 ++ repeat (Goroutine 3) 4
  ++ [Receive 3; Orchestrator; Orchestrator; Orchestrator]
  ++ [Receive 1; Orchestrator; Orchestrator; Orchestrator]
  ++ repeat (Goroutine 4) 5
  ++ [Receive 4; Orchestrator; Orchestrator; Orchestrator; Orchestrator;
      Orchestrator].

(** The state the schedule ends in. *)
Definition final : Run :=
  default (start Examples.world0)
          (crun env collector schedule (start Examples.world0)).

End Shifting.

(** ** The work a run has ahead

    A bound on the steps that are left, level by level: the frames of a
    greater depth count more, since a result they receive can start a
    frame of the next depth with any number of links. *)

(** The steps a goroutine at [p] has ahead at most, with those the
    orchestrator takes for its result. *)
Definition ahead (p : pc) : nat :=
  match p with
  | PStart => 10
  | PCheckProcessed => 9
  | PMark => 8
  | PHead => 7
  | PGet _ _ => 6
  | PFail _ | PSucceed _ => 5
  | PSend _ => 4
  | PDone _ => 0
  end.

(** The steps the orchestrator has ahead for the result it holds. *)
Definition ctl_ahead (k : Ctl) : nat :=
  match k with CGot _ => 3 | CCall _ => 2 | _ => 0 end.

(** The work of the goroutines of channel [ch]. *)
Definition pool_ahead (ch : nat) (pool : list Task) : nat :=
  list_sum (map (fun t => if Nat.eqb (t_chan t) ch
                          then ahead (u_pc (t_unit t)) else 0%nat) pool).

(** The work of a frame: its return, its launches and its goroutines. *)
Definition frame_ahead (pool : list Task) (f : Frame) : nat :=
  (1 + 11 * List.length (f_todo f) + pool_ahead (f_chan f) pool)%nat.

Definition at_level (d : nat) (f : Frame) : bool :=
  Nat.eqb (Z.to_nat (f_depth f)) d.

Fixpoint stack_ahead (pool : list Task) (d : nat) (stack : list Frame) : nat :=
  match stack with
  | [] => 0%nat
  | f :: rest =>
      ((if at_level d f then frame_ahead pool f else 0) + stack_ahead pool d rest)%nat
  end.

(** The work of a run at level [d]; the first step of [StartCrawling] is
    a level of its own, above the depth of the collector. *)
Definition work (c : Collector) (s : Run) (d : nat) : nat :=
  (stack_ahead (r_pool s) d (r_stack s)
   + match r_stack s with
     | f :: _ => if at_level d f then ctl_ahead (r_ctl s) else 0
     | [] => 0
     end
   + match r_ctl s with
     | CBegin => if Nat.eqb d (S (Z.to_nat (Depth c))) then 1 else 0
     | _ => 0
     end)%nat.

(** Less work: less at some level, and the same at every level above. *)
Definition less_work (f g : nat -> nat) : Prop :=
  exists d, (f d < g d)%nat /\ forall d', (d < d')%nat -> f d' = g d'.

(** One step of a run, read backwards. *)
Definition steps_to (E : Env) (c : Collector) (s' s : Run) : Prop :=
  exists ch, crawl_step E c ch s = Some s'.

(** *** Facts about the byte-string helpers *)

Section StringFacts.

Lemma has_byte_app c (a b : string) :
  has_byte c (a +:+ b) = has_byte c a || has_byte c b.
Proof.
  induction a as [|x a IH]; simpl; [reflexivity|].
  rewrite IH. apply orb_assoc.
Qed.

Lemma has_byte_take c i (s : string) :
  has_byte c s = false -> has_byte c (take i s) = false.
Proof.
  revert s; induction i as [|i IH]; intros [|x s]; simpl; try reflexivity.
  intros H. apply orb_false_iff in H as [-> H]. simpl. now apply IH.
Qed.

Lemma has_byte_drop c i (s : string) :
  has_byte c s = false -> has_byte c (drop i s) = false.
Proof.
  revert s; induction i as [|i IH]; intros [|x s]; simpl; try easy.
  intros H. apply orb_false_iff in H as [_ H]. now apply IH.
Qed.

Lemma take_IndexByte_no_byte c (s : string) i :
  IndexByte s c = Some i -> has_byte c (take i s) = false.
Proof.
  revert i; induction s as [|x s IH]; intros i; simpl; [discriminate|].
  destruct (Ascii.eqb x c) eqn:E.
  - intros [= <-]. reflexivity.
  - destruct (IndexByte s c) as [j|]; simpl; [|discriminate].
    intros [= <-]. simpl. rewrite E. now apply IH.
Qed.

Lemma IndexByte_None_no_byte c (s : string) :
  IndexByte s c = None -> has_byte c s = false.
Proof.
  induction s as [|x s IH]; simpl; [reflexivity|].
  destruct (Ascii.eqb x c); [discriminate|].
  destruct (IndexByte s c); simpl; [discriminate|]. intros _. now apply IH.
Qed.

Lemma HasPrefix_refl (p : string) : HasPrefix p p = true.
Proof.
  induction p as [|x p IH]; simpl; [reflexivity|].
  now rewrite Ascii.eqb_refl.
Qed.

Lemma HasPrefix_app (a b p : string) :
  HasPrefix a p = true -> HasPrefix (a +:+ b) p = true.
Proof.
  revert a; induction p as [|x p IH]; intros a.
  - intros _. now destruct (a +:+ b).
  - destruct a as [|y a]; simpl; [discriminate|].
    intros H. apply andb_true_iff in H as [-> H]. simpl. now apply IH.
Qed.

Lemma HasPrefix_app_refl (p b : string) : HasPrefix (p +:+ b) p = true.
Proof. apply HasPrefix_app, HasPrefix_refl. Qed.

End StringFacts.

(** *** Facts about the [net/url] transcription *)

Module NetURLFacts.
Import NetURL.

(** No encoding mode lets a ['#'] through, and no hex digit is one. *)
Lemma escape_byte_no_hash (c : ascii) (m : encoding) :
  has_byte hash (escape (String c "") m) = false.
Proof.
  destruct c as [[] [] [] [] [] [] [] []]; destruct m; reflexivity.
Qed.

Lemma escape_cons (c : ascii) (s : string) (m : encoding) :
  escape (String c s) m = escape (String c "") m +:+ escape s m.
Proof.
  simpl.
  destruct (Ascii.eqb c " " && _); [reflexivity|].
  destruct (shouldEscape c m); reflexivity.
Qed.

Lemma escape_no_hash (s : string) (m : encoding) :
  has_byte hash (escape s m) = false.
Proof.
  induction s as [|c s IH]; [reflexivity|].
  rewrite escape_cons, has_byte_app, IH, escape_byte_no_hash. reflexivity.
Qed.

Lemma validEncoded_byte_no_hash (c : ascii) (m : encoding) :
  (has_byte c "!$&'()*+,;=:@[]%" || negb (shouldEscape c m)) = true ->
  Ascii.eqb c hash = false.
Proof.
  destruct c as [[] [] [] [] [] [] [] []]; destruct m; vm_compute; congruence.
Qed.

Lemma validEncoded_no_hash (s : string) (m : encoding) :
  validEncoded s m = true -> has_byte hash s = false.
Proof.
  induction s as [|c s IH]; simpl; [reflexivity|].
  intros H. apply andb_true_iff in H as [Hc Hs].
  rewrite (validEncoded_byte_no_hash _ _ Hc). simpl. now apply IH.
Qed.

Lemma EscapedPath_no_hash (u : URL) : has_byte hash (EscapedPath u) = false.
Proof.
  unfold EscapedPath.
  destruct (negb (String.eqb (RawPath u) "")) ; simpl.
  - destruct (validEncoded (RawPath u) encodePath) eqn:V; simpl.
    + destruct (unescape (RawPath u) encodePath) as [p|].
      * destruct (String.eqb p (Path u)).
        -- now apply validEncoded_no_hash in V.
        -- destruct (String.eqb (Path u) "*"); [reflexivity|apply escape_no_hash].
      * destruct (String.eqb (Path u) "*"); [reflexivity|apply escape_no_hash].
    + destruct (String.eqb (Path u) "*"); [reflexivity|apply escape_no_hash].
  - destruct (String.eqb (Path u) "*"); [reflexivity|apply escape_no_hash].
Qed.

Lemma Userinfo_String_no_hash (ui : Userinfo) :
  has_byte hash (Userinfo_String ui) = false.
Proof.
  unfold Userinfo_String. rewrite has_byte_app, escape_no_hash. simpl.
  destruct (passwordSet ui); [|reflexivity].
  rewrite has_byte_app, escape_no_hash. reflexivity.
Qed.

(** [setPath] and [setFragment] touch the path and the fragment only. *)
Lemma setPath_fields (u u' : URL) (p : string) :
  setPath u p = Some u' ->
  Scheme u' = Scheme u /\ Opaque u' = Opaque u /\ User u' = User u
  /\ Host u' = Host u /\ ForceQuery u' = ForceQuery u
  /\ RawQuery u' = RawQuery u /\ Fragment u' = Fragment u.
Proof.
  unfold setPath. destruct (unescape p encodePath); [|discriminate].
  intros [= <-]. simpl. repeat split.
Qed.

Lemma setPath_ignore_fields (u : URL) (p : string) :
  Scheme (setPath_ignore u p) = Scheme u
  /\ Opaque (setPath_ignore u p) = Opaque u
  /\ User (setPath_ignore u p) = User u
  /\ Host (setPath_ignore u p) = Host u
  /\ ForceQuery (setPath_ignore u p) = ForceQuery u
  /\ RawQuery (setPath_ignore u p) = RawQuery u
  /\ Fragment (setPath_ignore u p) = Fragment u.
Proof.
  unfold setPath_ignore. destruct (setPath u p) as [u'|] eqn:E.
  - now apply setPath_fields in E.
  - repeat split.
Qed.

Lemma setFragment_fields (u u' : URL) (f : string) :
  setFragment u f = Some u' ->
  Scheme u' = Scheme u /\ Opaque u' = Opaque u /\ User u' = User u
  /\ Host u' = Host u /\ ForceQuery u' = ForceQuery u
  /\ RawQuery u' = RawQuery u.
Proof.
  unfold setFragment. destruct (unescape f encodeFragment); [|discriminate].
  intros [= <-]. simpl. repeat split.
Qed.

Lemma split_no_hash (s a b : string) (sep : ascii) (cutc : bool) :
  has_byte hash s = false -> split s sep cutc = (a, b) ->
  has_byte hash a = false /\ has_byte hash b = false.
Proof.
  intros Hs. unfold split.
  destruct (IndexByte s sep) as [i|].
  - destruct cutc; intros E; injection E as <- <-; split;
      first [ exact (has_byte_take hash i s Hs)
            | exact (has_byte_drop hash (S i) s Hs)
            | exact (has_byte_drop hash i s Hs) ].
  - intros [= <- <-]. now split.
Qed.

Lemma getScheme_from_no_hash (i : nat) (s raw sc r : string) :
  has_byte hash s = false -> has_byte hash raw = false ->
  getScheme_from i s raw = Some (sc, r) -> has_byte hash r = false.
Proof.
  revert i; induction s as [|c s IH]; intros i Hs Hraw; cbn [getScheme_from].
  - intros E; inversion E; subst; assumption.
  - simpl in Hs. apply orb_false_iff in Hs as [_ Hs].
    destruct (is_letter c); [now apply IH|].
    destruct (is_digit c || has_byte c "+-.").
    + destruct (Nat.eqb i 0); [intros E; inversion E; subst; assumption|now apply IH].
    + destruct (Ascii.eqb c ":").
      * destruct (Nat.eqb i 0); [discriminate|intros E; inversion E; subst; assumption].
      * intros E; inversion E; subst; assumption.
Qed.

Lemma parse_clean (raw : string) (viaRequest : bool) (u : URL) :
  has_byte hash raw = false -> parse raw viaRequest = Some u ->
  raw_parts_clean u.
Proof.
  intros Hraw. unfold parse, raw_parts_clean.
  destruct (stringContainsCTLByte raw); [discriminate|].
  destruct (String.eqb raw "" && viaRequest); [discriminate|].
  destruct (String.eqb raw "*"); [now intros [= <-]|].
  destruct (getScheme raw) as [[scheme0 rest0]|] eqn:G; [|discriminate].
  apply getScheme_from_no_hash in G; auto.
  assert (Hq : forall X,
    X = (if HasSuffixByte rest0 "?" && Nat.eqb (CountByte rest0 "?") 1
         then (take (String.length rest0 - 1) rest0, true, "")
         else let '(r, q) := split rest0 "?" true in (r, false, q)) ->
    has_byte hash (fst (fst X)) = false /\ has_byte hash (snd X) = false).
  { intros X ->.
    destruct (HasSuffixByte rest0 "?" && Nat.eqb (CountByte rest0 "?") 1).
    - split; [now apply has_byte_take|reflexivity].
    - destruct (split rest0 "?" true) as [r q] eqn:S.
      eapply split_no_hash; eauto. }
  specialize (Hq _ eq_refl).
  destruct (if HasSuffixByte rest0 "?" && Nat.eqb (CountByte rest0 "?") 1
            then _ else _) as [[rest fq] rq].
  destruct Hq as [Hrest Hrq]; simpl in Hrest, Hrq.
  destruct (negb (HasPrefix rest "/") && negb (String.eqb (ToLower scheme0) ""));
    [now intros [= <-]|].
  destruct (negb (HasPrefix rest "/") && viaRequest); [discriminate|].
  destruct (negb (HasPrefix rest "/") && colon_in_first_segment rest);
    [discriminate|].
  destruct ((negb (String.eqb (ToLower scheme0) "")
             || negb viaRequest && negb (HasPrefix rest "///"))
            && HasPrefix rest "//").
  - destruct (split (drop 2 rest) "/" false) as [authority rest'].
    destruct (parseAuthority authority) as [[user host]|]; [|discriminate].
    intros E. apply setPath_fields in E as (_ & -> & _ & _ & _ & -> & _).
    now split.
  - intros E. apply setPath_fields in E as (_ & -> & _ & _ & _ & -> & _).
    now split.
Qed.

Lemma Parse_clean (ref : string) (r : URL) :
  Parse ref = Some r -> raw_parts_clean r.
Proof.
  unfold Parse, split.
  assert (H : forall u frag,
    has_byte hash u = false ->
    match parse u false with
    | Some url => if String.eqb frag "" then Some url else setFragment url frag
    | None => None
    end = Some r -> raw_parts_clean r).
  { intros u frag Hu. destruct (parse u false) as [url|] eqn:P; [|discriminate].
    apply parse_clean in P; auto. destruct P as [Po Pq].
    destruct (String.eqb frag ""); [intros [= <-]; now split|].
    intros E. apply setFragment_fields in E as (_ & Eo & _ & _ & _ & Eq).
    unfold raw_parts_clean. now rewrite Eo, Eq. }
  destruct (IndexByte ref "#") as [i|] eqn:I.
  - apply H. now apply take_IndexByte_no_byte.
  - apply H. now apply IndexByte_None_no_byte.
Qed.

Lemma ResolveReference_clean (u ref : URL) :
  raw_parts_clean u -> raw_parts_clean ref ->
  raw_parts_clean (ResolveReference u ref).
Proof.
  intros [Uo Uq] [Ro Rq]. unfold ResolveReference, raw_parts_clean.
  repeat match goal with
         | |- context [if ?b then _ else _] => destruct b
         end;
    repeat match goal with
           | |- context [setPath_ignore ?a ?b] =>
               destruct (setPath_ignore_fields a b) as (_ & -> & _ & _ & _ & -> & _)
           end; simpl; auto.
Qed.

Lemma ResolveReference_Scheme (u ref : URL) :
  Scheme (ResolveReference u ref)
  = if String.eqb (Scheme ref) "" then Scheme u else Scheme ref.
Proof.
  unfold ResolveReference.
  repeat match goal with
         | |- context [setPath_ignore ?a ?b] =>
             destruct (setPath_ignore_fields a b) as (-> & _)
         | |- context [if ?b then _ else _] => destruct b
         end; reflexivity.
Qed.

(** What [String] writes holds a ['#'] only in front of the fragment, given
    that the scheme and the two raw parts are free of it. *)
Lemma URL_String_no_hash (u : URL) :
  has_byte hash (Scheme u) = false -> raw_parts_clean u -> Fragment u = "" ->
  has_byte hash (URL_String u) = false.
Proof.
  intros Hs [Ho Hq] Hf. unfold URL_String. rewrite Hf.
  change (negb (String.eqb "" "")) with false. cbv iota.
  pose proof (EscapedPath_no_hash u) as Hp.
  pose proof (escape_no_hash (Host u) encodeHost) as Hh.
  repeat match goal with
         | |- context [if ?b then _ else _] => destruct b
         | |- context [match User u with _ => _ end] =>
             let ui := fresh "ui" in
             destruct (User u) as [ui|];
             [pose proof (Userinfo_String_no_hash ui)|]
         | |- context [match IndexByte ?p ?c with _ => _ end] =>
             destruct (IndexByte p c)
         end;
    rewrite ?has_byte_app;
    repeat match goal with H : has_byte hash _ = false |- _ => rewrite H end;
    reflexivity.
Qed.

Lemma URL_String_prefix (u : URL) :
  Scheme u <> "" -> HasPrefix (URL_String u) (Scheme u +:+ ":") = true.
Proof.
  intros Hs. unfold URL_String.
  destruct (String.eqb (Scheme u) "") eqn:E;
    [apply String.eqb_eq in E; contradiction|].
  repeat match goal with
         | |- context [if ?b then _ else _] => destruct b eqn:?
         | |- context [match User u with _ => _ end] => destruct (User u)
         | |- context [match IndexByte ?p ?c with _ => _ end] =>
             destruct (IndexByte p c)
         end;
    repeat first [apply HasPrefix_refl | apply HasPrefix_app].
Qed.

(** A reference that starts with a slash has no scheme of its own. *)
Lemma parse_slash_Scheme (u' : string) (r : URL) :
  parse (String "/" u') false = Some r -> Scheme r = "".
Proof.
  unfold parse.
  destruct (stringContainsCTLByte (String "/" u')); [discriminate|].
  change (String.eqb (String "/" u') "" && false) with false. cbv iota.
  replace (String.eqb (String "/" u') "*") with false
    by (simpl; now destruct u').
  cbv iota.
  change (getScheme (String "/" u')) with (Some ("", String "/" u')).
  cbv iota beta.
  change (ToLower "") with "".
  destruct (if HasSuffixByte (String "/" u') "?"
               && Nat.eqb (CountByte (String "/" u') "?") 1
            then _ else _) as [[rest fq] rq].
  repeat match goal with
         | |- context [if ?b then _ else _] => destruct b; try discriminate
         | |- context [let '(a, b) := ?x in _] => destruct x
         | |- context [match parseAuthority ?a with _ => _ end] =>
             destruct (parseAuthority a) as [[? ?]|]; try discriminate
         end;
    try (intros [= <-]; reflexivity);
    intros H; apply setPath_fields in H as (-> & _); reflexivity.
Qed.

Lemma Parse_slash_Scheme (href : string) (r : URL) :
  HasPrefix href "/" = true -> Parse href = Some r -> Scheme r = "".
Proof.
  destruct href as [|c h]; [discriminate|]. cbn [HasPrefix].
  destruct (Ascii.eqb_spec "/" c) as [<-|]; [|discriminate]. intros _.
  unfold Parse, split. simpl.
  assert (H : forall u' frag,
    match parse (String "/" u') false with
    | Some url => if String.eqb frag "" then Some url else setFragment url frag
    | None => None
    end = Some r -> Scheme r = "").
  { intros u' frag. destruct (parse (String "/" u') false) as [url|] eqn:P;
      [|discriminate].
    apply parse_slash_Scheme in P.
    destruct (String.eqb frag ""); [now intros [= <-]|].
    intros H. apply setFragment_fields in H as (-> & _). exact P. }
  destruct (IndexByte h "#") as [i|]; simpl; [apply H | exact (H h "")].
Qed.

End NetURLFacts.

(** *** The URL resolver *)

Section Resolver.
Import NetURL NetURLFacts.

(** The URL that [AbsoluteURL] prints, when it prints one. *)
Lemma AbsoluteURL_Ok (pageURL href out : string) :
  AbsoluteURL pageURL href = Ok out ->
  exists base ref final,
    ParseRequestURI pageURL = Some base /\ Parse href = Some ref
    /\ out = URL_String final
    /\ (Scheme final = "http" \/ Scheme final = "https")
    /\ (Scheme final = Scheme (ResolveReference base ref)
        \/ Scheme final = Scheme base)
    /\ Opaque final = Opaque (ResolveReference base ref)
    /\ RawQuery final = RawQuery (ResolveReference base ref)
    /\ Fragment final = "".
Proof.
  unfold AbsoluteURL, URL_Parse.
  destruct (HasPrefix href "#"); [discriminate|].
  destruct (ParseRequestURI pageURL) as [base|]; [|discriminate].
  destruct (Parse href) as [ref|]; [|discriminate].
  cbv zeta. cbn [Scheme Opaque RawQuery Fragment].
  set (abs := ResolveReference base ref).
  destruct (String.eqb (Scheme abs) "//") eqn:S2; cbn [Scheme].
  - destruct (String.eqb (Scheme base) "http") eqn:Hh;
      destruct (String.eqb (Scheme base) "https") eqn:Hs; simpl;
      try discriminate; intros [= <-];
      do 3 eexists; (do 3 (split; [reflexivity|]));
      cbn [Scheme Opaque RawQuery Fragment];
      rewrite ?String.eqb_eq in *; repeat split; auto.
  - destruct (String.eqb (Scheme abs) "http") eqn:Hh;
      destruct (String.eqb (Scheme abs) "https") eqn:Hs; simpl;
      try discriminate; intros [= <-];
      do 3 eexists; (do 3 (split; [reflexivity|]));
      cbn [Scheme Opaque RawQuery Fragment];
      rewrite ?String.eqb_eq in *; repeat split; auto.
Qed.

(** X24. What [AbsoluteURL] gives for every page URL and href: an href
    that starts with ['#'] is rejected; a result, when there is one, starts
    with the scheme [http:] or [https:] (any other final scheme is
    rejected), so it is absolute; it holds no ['#'] when the page URL holds
    none (the fragment of the href is stripped); and for a
    protocol-relative href the scheme is the one of the page URL. Four
    resolutions as examples. *)
Theorem AbsoluteURL_resolves (pageURL href : string) :
  (HasPrefix href "#" = true -> AbsoluteURL pageURL href = Err "url has #")
  /\ (forall out, AbsoluteURL pageURL href = Ok out ->
        (HasPrefix out "http:" = true \/ HasPrefix out "https:" = true)
        /\ (has_byte "#" pageURL = false -> has_byte "#" out = false)
        /\ (HasPrefix href "//" = true ->
            exists base, ParseRequestURI pageURL = Some base
                         /\ HasPrefix out (Scheme base +:+ ":") = true))
  /\ AbsoluteURL "https://a.com/x/y" "../z" = Ok "https://a.com/z"
  /\ AbsoluteURL "https://a.com" "#frag" = Err "url has #"
  /\ AbsoluteURL "https://a.com" "//b.com/p" = Ok "https://b.com/p"
  /\ AbsoluteURL "https://a.com" "ftp://c.com" = Err "unknown scheme".
Proof.
  split; [|split; [|repeat split; vm_compute; reflexivity]].
  - intros H. unfold AbsoluteURL. now rewrite H.
  - intros out H.
    apply AbsoluteURL_Ok in H
      as (base & ref & final & Hb & Hr & -> & Hs & Hsch & Ho & Hq & Hf).
    assert (Hne : Scheme final <> "") by (destruct Hs as [-> | ->]; discriminate).
    pose proof (URL_String_prefix final Hne) as Hp.
    split; [|split].
    + destruct Hs as [E | E]; rewrite E in Hp; auto.
    + intros Hclean. apply URL_String_no_hash; auto.
      * destruct Hs as [-> | ->]; reflexivity.
      * unfold raw_parts_clean. rewrite Ho, Hq.
        apply ResolveReference_clean.
        -- eapply parse_clean; eauto.
        -- eapply Parse_clean; eauto.
    + intros Hrel. exists base. split; [assumption|].
      assert (Hsl : HasPrefix href "/" = true).
      { destruct href as [|c h]; [discriminate|]. cbn [HasPrefix] in *.
        apply andb_true_iff in Hrel as [-> _]. now destruct h. }
      pose proof (Parse_slash_Scheme _ _ Hsl Hr) as Hrs.
      assert (Scheme final = Scheme base) as <-; [|exact Hp].
      destruct Hsch as [-> | ->]; [|reflexivity].
      rewrite ResolveReference_Scheme, Hrs. reflexivity.
Qed.

Lemma AbsoluteURL_resolves_witness :
  AbsoluteURL "https://a.com/x/y" "#top" = Err "url has #"
  /\ has_byte "#" "https://b.com/p" = false
  /\ exists base, ParseRequestURI "https://a.com" = Some base
                  /\ HasPrefix "https://b.com/p" (Scheme base +:+ ":") = true.
Proof.
  destruct (AbsoluteURL_resolves "https://a.com/x/y" "#top") as [Hhash _].
  destruct (AbsoluteURL_resolves "https://a.com" "//b.com/p") as (_ & Hout & _).
  destruct (Hout "https://b.com/p") as (_ & Hclean & Hrel);
    [vm_compute; reflexivity|].
  split; [|split].
  - apply Hhash. reflexivity.
  - apply Hclean. reflexivity.
  - apply Hrel. reflexivity.
Defined.

(** C3. [AbsoluteURL] aims at a result without fragment and misses it.
    It refuses an href that starts with ['#'] and clears the fragment of
    the resolved URL, but it parses the page URL with
    [url.ParseRequestURI], which does not split a fragment off: a ['#']
    after the query of the page URL stays in the raw query, which an href
    with neither path nor query inherits and [String] writes out as it is,
    so the result holds the fragment; a ['#'] in the path of the page URL
    comes out escaped. With an href that brings a path or a query of its
    own the fragment of the page URL is dropped. [NewCollector] accepts
    such a URL as its seed, and a page at it with an anchor whose href is
    empty has the URL, fragment and all, among its links. *)
Theorem AbsoluteURL_keeps_base_fragment :
  AbsoluteURL "https://a.com/x?q=1#top" "" = Ok "https://a.com/x?q=1#top"
  /\ has_byte "#" "https://a.com/x?q=1#top" = true
  /\ AbsoluteURL "https://a.com/x#top" "" = Ok "https://a.com/x%23top"
  /\ AbsoluteURL "https://a.com/x?q=1#top" "y" = Ok "https://a.com/y"
  /\ AbsoluteURL "https://a.com/x?q=1#top" "?z=2" = Ok "https://a.com/x?z=2"
  /\ AbsoluteURL "https://a.com/x?q=1#top" "#top" = Err "url has #"
  /\ NewCollector Examples.env_pdf "https://a.com/x?q=1#top" 1 false "out.json"
     = Ok (mkCollector "https://a.com/x?q=1#top" 1 false "out.json",
           Examples.world0)
  /\ extract_urls "https://a.com/x?q=1#top" (mkDocument [] [] [] [Some ""])
     = ["https://a.com/x?q=1#top"].
Proof. repeat split; vm_compute; reflexivity. Qed.

End Resolver.

(** *** The text normalizer *)

Module NormalizerFacts.
Import Normalizer.

Lemma ReplaceAllString_keep (r : rune) (s : text) :
  class_space r && starts_class s = false ->
  ReplaceAllString (r :: s) = r :: ReplaceAllString s.
Proof. intros H. cbn [ReplaceAllString]. unfold starts_class in H. now rewrite H. Qed.

Lemma ReplaceAllString_skip (rest : text) :
  (fix skip (rest : text) : text :=
     match rest with
     | [] => []
     | d :: rest' =>
         if class_space d then skip rest' else d :: ReplaceAllString rest'
     end) rest
  = ReplaceAllString (skip_class rest).
Proof.
  induction rest as [|d rest IH]; [reflexivity|].
  cbn [skip_class]. destruct (class_space d) eqn:D.
  - exact IH.
  - rewrite ReplaceAllString_keep by now rewrite D. reflexivity.
Qed.

Lemma ReplaceAllString_run (r : rune) (s : text) :
  class_space r && starts_class s = true ->
  ReplaceAllString (r :: s) = ReplaceAllString (skip_class s).
Proof.
  intros H. cbn [ReplaceAllString]. unfold starts_class in H. rewrite H.
  apply ReplaceAllString_skip.
Qed.

Lemma skip_class_length (s : text) :
  (List.length (skip_class s) <= List.length s)%nat.
Proof.
  induction s as [|d s IH]; simpl; [lia|].
  destruct (class_space d); simpl; lia.
Qed.







(** Trimming cuts runes that [unicode.IsSpace] accepts, and only those. *)
Lemma TrimLeft_split (s : text) :
  exists l, s = l ++ TrimLeft s /\ forallb IsSpace l = true.
Proof.
  induction s as [|r s (l & E & F)]; [now exists []|].
  cbn [TrimLeft]. destruct (IsSpace r) eqn:R.
  - exists (r :: l). simpl. rewrite R, F. split; [now f_equal|reflexivity].
  - now exists [].
Qed.

Lemma TrimLeft_head (s : text) :
  match TrimLeft s with r :: _ => IsSpace r = false | [] => True end.
Proof.
  induction s as [|r s IH]; [exact I|].
  cbn [TrimLeft]. destruct (IsSpace r) eqn:R; [exact IH|exact R].
Qed.

Lemma TrimLeft_fixed (s : text) :
  match s with r :: _ => IsSpace r = false | [] => True end ->
  TrimLeft s = s.
Proof. destruct s as [|r s]; [reflexivity|]. simpl. now intros ->. Qed.

Lemma TrimRight_split (s : text) :
  exists r, s = TrimRight s ++ r /\ forallb IsSpace r = true.
Proof.
  unfold TrimRight. destruct (TrimLeft_split (rev s)) as (l & E & F).
  exists (rev l). split.
  - rewrite <- rev_app_distr, <- E. now rewrite rev_involutive.
  - rewrite forallb_forall in *. intros x Hx. apply F. now apply in_rev.
Qed.

Lemma TrimRight_last (s : text) :
  match rev (TrimRight s) with r :: _ => IsSpace r = false | [] => True end.
Proof. unfold TrimRight. rewrite rev_involutive. apply TrimLeft_head. Qed.

Lemma TrimRight_head (s : text) :
  match s with r :: _ => IsSpace r = false | [] => True end ->
  match TrimRight s with r :: _ => IsSpace r = false | [] => True end.
Proof.
  destruct (TrimRight_split s) as (r & E & F).
  destruct (TrimRight s) as [|x t] eqn:T; [intros _; exact I|].
  rewrite E. simpl. auto.
Qed.

End NormalizerFacts.


(** *** Running [Scrape] *)

Ltac unfold_run :=
  cbv [Scrape fail_with send HeadRequest GetRequest Request IsVisited
       IsProcessed InitiateScrape ScrapeFailed ScrapeSucceed CurrentTimestamp
       Client_Do Log emit get_scrapper put_scrapper bind ret logged];
  cbn [scrapper loggers clock goroutines trace Succeed Failed InProcess].

Ltac proj :=
  cbn [scrapper loggers clock goroutines trace Succeed Failed InProcess].

(** Case analysis on the innermost scrutinee, one path of the code each. *)
Ltac split_paths :=
  repeat match goal with
         | |- context [match ?x with _ => _ end] =>
             lazymatch x with
             | context [match _ with _ => _ end] => fail
             | _ => destruct x eqn:?; cbv beta iota; proj
             end
         end.

Lemma count_app (p : Event -> bool) (a b : list Event) :
  count p (a ++ b) = (count p a + count p b)%nat.
Proof. unfold count. now rewrite List.filter_app, length_app. Qed.

Lemma added_app (w w' : World) (evs : list Event) :
  trace w' = trace w ++ evs -> added w w' = evs.
Proof.
  intros E. unfold added. rewrite E.
  rewrite List.skipn_app, List.skipn_all, Nat.sub_diag. reflexivity.
Qed.

Section ScrapeFacts.
Variable E : Env.

(** The three early returns: one send, nothing else. *)
Lemma Scrape_rejected (gid : Z) (url : string) (w : World) :
  url = "" \/ succeeded w url \/ in_flight w url ->
  exists e,
    Scrape E gid url w
    = Done (mkScrapeResult None (Some e))
           (logged w (EvSend (mkScrapeResult None (Some e)))).
Proof.
  unfold succeeded, in_flight. intros H. unfold_run.
  destruct (String.eqb url "") eqn:U; [eauto|].
  destruct (Succeed (scrapper w) !! url) eqn:S; [eauto|].
  destruct (InProcess (scrapper w) !! url) eqn:P; [cbn; eauto|].
  exfalso. destruct H as [-> | [[? ?] | [? ?]]]; discriminate.
Qed.

(** A launch that passes the entry checks, run to its send. *)
Lemma Scrape_fresh (gid : Z) (url : string) (w : World) :
  url <> "" ->
  Succeed (scrapper w) !! url = None ->
  InProcess (scrapper w) !! url = None ->
  match Scrape E gid url w with
  | Panic => loggers w = None
  | Done r w' =>
      exists lines line evs,
        loggers w = Some lines /\ loggers w' = Some (lines ++ [line])
        /\ goroutines w' = goroutines w
        /\ InProcess (scrapper w')
           = delete url (<[url := gid]> (InProcess (scrapper w)))
        /\ trace w' = trace w ++ evs
        /\ count is_send evs = 1%nat /\ count is_commit evs = 1%nat
        /\ count is_go evs = 0%nat /\ count is_recv evs = 0%nat
        /\ ((exists p, r = mkScrapeResult (Some p) None
                       /\ SucceededPage.Url p = url
                       /\ Succeed (scrapper w') = <[url := p]> (Succeed (scrapper w))
                       /\ Failed (scrapper w') = Failed (scrapper w))
            \/ (exists fp, Failed (scrapper w') = <[url := fp]> (Failed (scrapper w))
                           /\ r = mkScrapeResult None (Some (FailedPage.FailReason fp))
                           /\ Succeed (scrapper w') = Succeed (scrapper w)))
  end.
Proof.
  intros U S P. apply String.eqb_neq in U. unfold_run.
  rewrite U, S, P. cbv beta iota. cbn [negb]. proj.
  split_paths;
    try match goal with
        | H : loggers _ = None |- _ => exact H
        | H : _ || _ = false |- _ => discriminate H
        | |- None = None => reflexivity
        end;
    eexists _, _, _;
    (split; [reflexivity|]); (split; [reflexivity|]);
    (split; [reflexivity|]); (split; [reflexivity|]);
    (split; [rewrite <- !app_assoc; reflexivity|]);
    (do 4 (split; [reflexivity|]));
    first [ left; eexists; repeat split; reflexivity
          | right; eexists; repeat split; reflexivity ].
Qed.

(** What one launch, run to its send, does to the world. *)
Lemma Scrape_effect (gid : Z) (url : string) (w : World) (r : ScrapeResult)
      (w' : World) :
  Scrape E gid url w = Done r w' ->
  goroutines w' = goroutines w
  /\ (is_Some (loggers w) -> is_Some (loggers w'))
  /\ InProcess (scrapper w') = InProcess (scrapper w)
  /\ Succeed (scrapper w) ⊆ Succeed (scrapper w')
  /\ (forall u, failed w u -> failed w' u)
  /\ (forall u, succeeded w' u \/ failed w' u ->
                succeeded w u \/ failed w u \/ u = url)
  /\ (forall p, Page r = Some p ->
                Succeed (scrapper w') !! url = Some p
                /\ SucceededPage.Url p = url)
  /\ exists evs, trace w' = trace w ++ evs
                 /\ count is_send evs = 1%nat /\ count is_go evs = 0%nat
                 /\ count is_recv evs = 0%nat.
Proof.
  intros H.
  destruct (String.eqb_spec url "") as [U|U];
    [|destruct (Succeed (scrapper w) !! url) as [p0|] eqn:S;
      [|destruct (InProcess (scrapper w) !! url) as [g0|] eqn:P]].
  1-3: (destruct (Scrape_rejected gid url w) as [e He];
        [unfold succeeded, in_flight; rewrite ?S, ?P; eauto|];
        rewrite He in H; injection H as <- <-; unfold logged; proj;
        repeat split; auto; try discriminate;
        [ unfold succeeded, failed; proj; tauto
        | eexists; repeat split; reflexivity ]).
  pose proof (Scrape_fresh gid url w U S P) as F. rewrite H in F.
  destruct F as (lines & line & evs & Hl & Hl' & Hg & Hp & Ht & Hs & Hc
                 & Hgo & Hr & Hcase).
  rewrite delete_insert_id in Hp by assumption.
  split; [assumption|]. split; [rewrite Hl'; eauto|]. split; [assumption|].
  unfold succeeded, failed.
  destruct Hcase as [(p & -> & Hu & HS & HF) | (fp & HF & -> & HS)];
    rewrite HS, HF.
  - split; [now apply insert_subseteq|]. split; [auto|].
    split; [|split; [|eauto 6]].
    + intros u [Hx | Hx]; [|auto].
      apply lookup_insert_is_Some' in Hx as [<- | Hx]; auto.
    + intros p' [= <-]. rewrite lookup_insert_eq. auto.
  - split; [reflexivity|]. split.
    + intros u Hx. apply lookup_insert_is_Some'. auto.
    + split; [|split; [discriminate|eauto 6]].
      intros u [Hx | Hx]; [auto|].
      apply lookup_insert_is_Some' in Hx as [<- | Hx]; auto.
Qed.

End ScrapeFacts.

(** *** The page fetcher *)

(** C7 (as amended). [Request] returns the response exactly when the
    request could be built, the transport delivered a response and its
    status is 200, and returns that response unchanged; it returns an error
    exactly when building the request fails, the transport fails (a timeout
    included) or the status is anything but 200; it never panics. *)
Theorem Request_accepts_only_200 (E : Env) (url : string) (method : Method)
        (w : World) :
  (forall response w',
      Request E url method w = Done (Ok response) w' <->
      http_NewRequest E method url = None
      /\ http_Do E (clock w) method url = Ok response
      /\ StatusCode response = 200%Z
      /\ w' = mkWorld (scrapper w) (loggers w) (S (clock w)) (goroutines w)
                      (trace w ++ [EvDo method url]))
  /\ ((exists e w', Request E url method w = Done (Err e) w') <->
      is_Some (http_NewRequest E method url)
      \/ (exists e, http_Do E (clock w) method url = Err e)
      \/ (exists response, http_Do E (clock w) method url = Ok response
                           /\ StatusCode response <> 200%Z))
  /\ Request E url method w <> Panic.
Proof.
  unfold Request, Client_Do, bind, ret.
  destruct (http_NewRequest E method url) as [e0|] eqn:N.
  - split; [|split; [|discriminate]].
    + intros response w'. split; [discriminate|intros (? & _); discriminate].
    + split; eauto.
  - destruct (http_Do E (clock w) method url) as [response|e1] eqn:D.
    + destruct (Z.eqb_spec (StatusCode response) 200) as [S|S]; cbn [negb].
      * split; [|split; [|discriminate]].
        -- intros r' w'. split.
           ++ intros [= <- <-]. auto.
           ++ intros (_ & [= <-] & _ & ->). reflexivity.
        -- split.
           ++ intros (e & w' & H). discriminate.
           ++ intros [[? ?] | [[? ?] | (r' & [= <-] & ?)]];
                [discriminate..|contradiction].
      * split; [|split; [|discriminate]].
        -- intros r' w'. split; [discriminate|].
           intros (_ & [= <-] & ? & _). contradiction.
        -- split; eauto 6.
    + split; [|split; [|discriminate]].
      * intros r' w'. split; [discriminate|intros (_ & ? & _); discriminate].
      * split; eauto 6.
Qed.

(** C7, as stated, fails: a 204 response is a success status of the 2xx
    class, and [Request] turns it into an error. *)
Lemma Request_rejects_204 :
  exists response,
    http_NewRequest (Examples.env_status 204) GET "https://a.test/" = None
    /\ http_Do (Examples.env_status 204) 0 GET "https://a.test/" = Ok response
    /\ (200 <= StatusCode response < 300)%Z
    /\ exists w',
         Request (Examples.env_status 204) "https://a.test/" GET Examples.world0
         = Done (Err ("status code: 204" +:+ nl)) w'.
Proof.
  eexists. split; [reflexivity|]. split; [reflexivity|].
  split; [cbn; lia|]. eexists. vm_compute. reflexivity.
Qed.

(** *** One Scrape Unit *)



(** *** Reasoning about computations in [M] *)

Lemma bind_Done {A B} (c : M A) (k : A -> M B) (w : World) (b : B) (w' : World) :
  bind c k w = Done b w' ->
  exists a w1, c w = Done a w1 /\ k a w1 = Done b w'.
Proof. unfold bind. destruct (c w) as [a w1|]; [eauto|discriminate]. Qed.

Ltac bind_inv H :=
  let a := fresh "a" in
  let w1 := fresh "w" in
  let H1 := fresh "H" in
  apply bind_Done in H as (a & w1 & H1 & H).

Lemma spawn_Done (url : string) (w : World) (gid : Z) (w' : World) :
  spawn url w = Done gid w' -> same_tracker w w' [EvGo gid url].
Proof. intros [= <- <-]. repeat split; auto. Qed.

Lemma emit_Done (e : Event) (w : World) (u : unit) (w' : World) :
  emit e w = Done u w' -> same_tracker w w' [e].
Proof. intros H. injection H as _ <-. repeat split; auto. Qed.

Lemma Log_Done (t : Z) (msg : string) (w : World) (u : unit) (w' : World) :
  Log t msg w = Done u w' -> same_tracker w w' [].
Proof.
  unfold Log. destruct (loggers w); [|discriminate]. intros H.
  injection H as _ <-. repeat split; proj; [now rewrite app_nil_r|eauto].
Qed.

Lemma log_scrape_error_Done (r : ScrapeResult) (w : World) (u : unit)
      (w' : World) :
  log_scrape_error r w = Done u w' -> same_tracker w w' [].
Proof.
  unfold log_scrape_error. destruct (Error r).
  - apply Log_Done.
  - intros H. injection H as _ <-. repeat split; auto. now rewrite app_nil_r.
Qed.

Lemma same_tracker_trans (w w1 w2 : World) (e1 e2 : list Event) :
  same_tracker w w1 e1 -> same_tracker w1 w2 e2 ->
  same_tracker w w2 (e1 ++ e2).
Proof.
  intros (S1 & T1 & L1) (S2 & T2 & L2). repeat split.
  - congruence.
  - rewrite T2, T1. now rewrite app_assoc.
  - auto.
Qed.

(** *** The orchestrator: what a frame does to the collections *)

Lemma grows_refl (w : World) : grows w w.
Proof. repeat split; auto. Qed.

Lemma grows_trans (w1 w2 w3 : World) : grows w1 w2 -> grows w2 w3 -> grows w1 w3.
Proof.
  intros (S1 & F1 & P1 & L1) (S2 & F2 & P2 & L2). repeat split; auto.
  - etrans; eauto.
  - congruence.
Qed.

Lemma same_tracker_grows (w w' : World) (evs : list Event) :
  same_tracker w w' evs -> grows w w'.
Proof.
  intros (S & _ & L). unfold grows, failed. rewrite S. repeat split; auto.
Qed.

Lemma grows_succeeded (w w' : World) (u : string) (p : SucceededPage.t) :
  grows w w' -> Succeed (scrapper w) !! u = Some p ->
  Succeed (scrapper w') !! u = Some p.
Proof. intros (S & _) H. eapply lookup_weaken; eauto. Qed.

Lemma within_subseteq (w w' : World) (seed : string) (n : nat) (u : string) :
  Succeed (scrapper w) ⊆ Succeed (scrapper w') ->
  within w seed n u -> within w' seed n u.
Proof.
  intros G. induction 1 as [n|n m u _ IH (p & Hp & Hin)].
  - constructor.
  - econstructor; [exact IH|]. exists p. split; [|exact Hin].
    eapply lookup_weaken; eauto.
Qed.

Lemma within_grows (w w' : World) (seed : string) (n : nat) (u : string) :
  grows w w' -> within w seed n u -> within w' seed n u.
Proof. intros (G & _). now apply within_subseteq. Qed.

Lemma within_le (w : World) (seed : string) (n m : nat) (u : string) :
  (n <= m)%nat -> within w seed n u -> within w seed m u.
Proof.
  intros L H. revert m L. induction H as [n|n x u _ IH He]; intros m L.
  - constructor.
  - destruct m as [|m]; [lia|]. econstructor; [apply IH; lia|exact He].
Qed.

Section CrawlFacts.
Variable E : Env.

Lemma Scrape_grows (gid : Z) (url : string) (w : World) (r : ScrapeResult)
      (w' : World) :
  Scrape E gid url w = Done r w' -> grows w w'.
Proof.
  intros H. apply Scrape_effect in H as (_ & L & P & S & F & _).
  repeat split; auto.
Qed.

Lemma launch_all_bounded (seed : string) (b : nat) (urls : list string) :
  forall (w : World) (rs : list ScrapeResult) (w' : World),
    launch_all E urls w = Done rs w' ->
    (forall u, In u urls -> within w seed b u) ->
    bounded w seed b ->
    grows w w' /\ bounded w' seed b
    /\ Forall (fun r => forall q, Page r = Some q ->
                 Succeed (scrapper w') !! SucceededPage.Url q = Some q
                 /\ In (SucceededPage.Url q) urls) rs.
Proof.
  induction urls as [|u urls IH]; intros w rs w' H Hin Hb.
  - injection H as <- <-. split; [apply grows_refl|]. split; [exact Hb|constructor].
  - cbn [launch_all] in H. bind_inv H. bind_inv H. bind_inv H.
    injection H as <- <-.
    apply spawn_Done in H0. pose proof (same_tracker_grows _ _ _ H0) as G0.
    pose proof (Scrape_effect E _ _ _ _ _ H1) as (_ & _ & _ & _ & _ & Hnew & Hpage & _).
    pose proof (Scrape_grows _ _ _ _ _ H1) as G1.
    assert (G01 : grows w w1) by (eapply grows_trans; eauto).
    assert (Hb1 : bounded w1 seed b).
    { intros x Hx. apply Hnew in Hx as [Hx | [Hx | ->]].
      - eapply within_grows; [exact G01|]. apply Hb. left.
        destruct H0 as (S0 & _). unfold succeeded in *. now rewrite <- S0.
      - eapply within_grows; [exact G01|]. apply Hb. right.
        destruct H0 as (S0 & _). unfold failed in *. now rewrite <- S0.
      - eapply within_grows; [exact G01|]. apply Hin. now left. }
    destruct (IH w1 a1 w2 H2) as (G2 & Hb2 & Hrs); auto.
    { intros x Hx. eapply within_grows; [exact G01|]. apply Hin. now right. }
    split; [eapply grows_trans; eauto|]. split; [exact Hb2|].
    constructor.
    + intros q Hq. apply Hpage in Hq as (Hq & Hu). rewrite Hu. split.
      * eapply grows_succeeded; eauto.
      * now left.
    + eapply List.Forall_impl; [|exact Hrs]. cbn beta.
      intros r Hr q Hq. destruct (Hr q Hq). split; [assumption|now right].
Qed.

Lemma receive_all_bounded (seed : string) (b n k : nat)
      (crawl : option SucceededPage.t -> M unit) (rs : list ScrapeResult) :
  frame_ok seed b n k crawl ->
  (k + n <= b)%nat ->
  forall (w w' : World),
    receive_all crawl rs w = Done tt w' ->
    Forall (fun r => forall q, Page r = Some q ->
              Succeed (scrapper w) !! SucceededPage.Url q = Some q
              /\ within w seed k (SucceededPage.Url q)) rs ->
    bounded w seed b ->
    grows w w' /\ bounded w' seed b.
Proof.
  intros Hc Hk. induction rs as [|r rs IH]; intros w w' H Hrs Hb.
  - injection H as <-. split; [apply grows_refl|exact Hb].
  - cbn [receive_all] in H. bind_inv H. bind_inv H. bind_inv H.
    apply emit_Done in H0. apply log_scrape_error_Done in H1.
    pose proof (same_tracker_trans _ _ _ _ _ H0 H1) as T.
    pose proof (same_tracker_grows _ _ _ T) as G.
    assert (Hb1 : bounded w1 seed b).
    { intros x Hx. eapply within_grows; [exact G|]. apply Hb.
      destruct T as (S0 & _). unfold succeeded, failed in *. now rewrite <- S0. }
    inversion Hrs as [|? ? Hr Hrest]; subst.
    assert (Hstep : grows w1 w2 /\ bounded w2 seed b).
    { destruct (Page r) as [q|] eqn:Q.
      - destruct (Hr q eq_refl) as (Hq & Hw). destruct a1.
        eapply Hc; eauto.
        + eapply grows_succeeded; eauto.
        + eapply within_grows; eauto.
      - injection H2 as <- <-. split; [apply grows_refl|exact Hb1]. }
    destruct Hstep as (G2 & Hb2).
    assert (G02 : grows w w2) by (eapply grows_trans; eauto).
    destruct (IH w2 w' H) as (G3 & Hb3); auto.
    { eapply List.Forall_impl; [|exact Hrest]. cbn beta.
      intros r' Hr' q Hq. destruct (Hr' q Hq). split.
      - eapply grows_succeeded; eauto.
      - eapply within_grows; eauto. }
    split; [eapply grows_trans; eauto|exact Hb3].
Qed.

Lemma Crawl_at_bounded (seed : string) (b : nat) (n : nat) :
  forall k, frame_ok seed b n k (Crawl_at E n).
Proof.
  induction n as [|n IH]; intros k p w w' H Hp Hw Hk Hb.
  - injection H as <-. split; [apply grows_refl|exact Hb].
  - cbn [Crawl_at] in H. bind_inv H.
    assert (Hin : forall u, In u (SucceededPage.Urls p) -> within w seed b u).
    { intros u Hu. eapply within_le with (n := S k); [lia|].
      econstructor; [exact Hw|]. exists p. auto. }
    destruct (launch_all_bounded seed b _ _ _ _ H0 Hin Hb) as (G1 & Hb1 & Hrs).
    destruct (receive_all_bounded seed b n (S k) (Crawl_at E n) a (IH (S k))
                ltac:(lia) w0 w' H) as (G2 & Hb2); auto.
    { eapply List.Forall_impl; [|exact Hrs]. cbn beta.
      intros r Hr q Hq. destruct (Hr q Hq) as (Hq1 & Hq2). split; [exact Hq1|].
      econstructor; [eapply within_grows; eauto|].
      exists p. split; [eapply grows_succeeded; eauto|exact Hq2]. }
    split; [eapply grows_trans; eauto|exact Hb2].
Qed.

End CrawlFacts.

(** *** Computations that only log, print or write the result file *)

Lemma quiet_ret {A} (a : A) : quiet (ret a).
Proof.
  intros w a' w' [= <- <-]. exists []. repeat split; auto. now rewrite app_nil_r.
Qed.

Lemma quiet_bind {A B} (c : M A) (k : A -> M B) :
  quiet c -> (forall a, quiet (k a)) -> quiet (bind c k).
Proof.
  intros Hc Hk w b w' H. bind_inv H.
  destruct (Hc _ _ _ H0) as (e1 & T1 & S1).
  destruct (Hk _ _ _ _ H) as (e2 & T2 & S2).
  exists (e1 ++ e2). split; [eapply same_tracker_trans; eauto|].
  rewrite forallb_app, S1, S2. reflexivity.
Qed.

Lemma quiet_Log (t : Z) (msg : string) : quiet (Log t msg).
Proof. intros w a w' H. exists []. split; [eapply Log_Done; eauto|reflexivity]. Qed.

Lemma quiet_emit (e : Event) : silent e = true -> quiet (emit e).
Proof.
  intros S w a w' H. exists [e]. split; [eapply emit_Done; eauto|].
  simpl. now rewrite S.
Qed.

Lemma quiet_get_scrapper : quiet get_scrapper.
Proof.
  intros w a w' [= <- <-]. exists []. repeat split; auto. now rewrite app_nil_r.
Qed.

Lemma quiet_log_scrape_error (r : ScrapeResult) : quiet (log_scrape_error r).
Proof.
  unfold log_scrape_error. destruct (Error r); [apply quiet_Log|apply quiet_ret].
Qed.

Ltac quiet_tac :=
  repeat first
    [ apply quiet_ret | apply quiet_Log | apply quiet_get_scrapper
    | apply quiet_emit; reflexivity
    | apply quiet_bind; [|intros ?]
    | match goal with
      | |- quiet (match ?x with _ => _ end) => destruct x
      end ].

Lemma quiet_NumberOfPagesSucceed : quiet NumberOfPagesSucceed.
Proof. unfold NumberOfPagesSucceed. quiet_tac. Qed.

Lemma quiet_NumberOfPagesFailed : quiet NumberOfPagesFailed.
Proof. unfold NumberOfPagesFailed. quiet_tac. Qed.

Lemma quiet_SaveResultsToFile (E : Env) (c : Collector) :
  quiet (SaveResultsToFile E c).
Proof.
  unfold SaveResultsToFile.
  repeat first
    [ apply quiet_NumberOfPagesSucceed | apply quiet_NumberOfPagesFailed
    | progress quiet_tac ].
Qed.

Lemma count_silent (p : Event -> bool) (evs : list Event) :
  (forall e, silent e = true -> p e = false) ->
  forallb silent evs = true -> count p evs = 0%nat.
Proof.
  intros Hp. unfold count. induction evs as [|e evs IH]; [reflexivity|].
  simpl. intros H. apply andb_true_iff in H as [He Hs].
  rewrite (Hp e He). auto.
Qed.

Lemma silent_not_go e : silent e = true -> is_go e = false.
Proof. now destruct e. Qed.
Lemma silent_not_send e : silent e = true -> is_send e = false.
Proof. now destruct e. Qed.
Lemma silent_not_recv e : silent e = true -> is_recv e = false.
Proof. now destruct e. Qed.
Lemma silent_not_request e : silent e = true -> is_request e = false.
Proof. now destruct e. Qed.
Lemma silent_not_commit e : silent e = true -> is_commit e = false.
Proof. now destruct e. Qed.

(** *** The orchestrator: launches, sends and receives *)

Lemma adds_trans (w w1 w2 : World) (g1 s1 r1 g2 s2 r2 : nat) :
  adds w w1 g1 s1 r1 -> adds w1 w2 g2 s2 r2 ->
  adds w w2 (g1 + g2) (s1 + s2) (r1 + r2).
Proof.
  intros (e1 & T1 & <- & <- & <-) (e2 & T2 & <- & <- & <-).
  exists (e1 ++ e2). rewrite T2, T1, <- app_assoc, !count_app. auto.
Qed.

Lemma adds_quiet {A} (c : M A) (w : World) (a : A) (w' : World) :
  quiet c -> c w = Done a w' -> adds w w' 0 0 0.
Proof.
  intros Q H. destruct (Q _ _ _ H) as (evs & (_ & T & _) & S).
  exists evs. split; [exact T|].
  rewrite !count_silent; auto using silent_not_go, silent_not_send, silent_not_recv.
Qed.

Section CountFacts.
Variable E : Env.

Lemma launch_all_adds (urls : list string) :
  forall w rs w',
    launch_all E urls w = Done rs w' ->
    List.length rs = List.length urls
    /\ adds w w' (List.length urls) (List.length urls) 0.
Proof.
  induction urls as [|u urls IH]; intros w rs w' H.
  - injection H as <- <-. split; [reflexivity|].
    exists []. now rewrite app_nil_r.
  - cbn [launch_all] in H. bind_inv H. bind_inv H. bind_inv H.
    injection H as <- <-.
    apply spawn_Done in H0 as (_ & T0 & _).
    apply Scrape_effect in H1 as (_ & _ & _ & _ & _ & _ & _ & e1 & T1 & S1 & G1 & R1).
    destruct (IH _ _ _ H2) as (L & A2).
    split; [simpl; now rewrite L|].
    assert (A0 : adds w w0 1 0 0) by (exists [EvGo a u]; auto).
    assert (A1 : adds w0 w1 0 1 0) by (exists e1; auto).
    pose proof (adds_trans _ _ _ _ _ _ _ _ _ (adds_trans _ _ _ _ _ _ _ _ _ A0 A1) A2) as A.
    cbn [List.length]. replace (S (List.length urls)) with (1 + 0 + List.length urls)%nat by lia.
    replace (S (List.length urls)) with (0 + 1 + List.length urls)%nat at 2 by lia.
    exact A.
Qed.

Lemma receive_all_adds (crawl : option SucceededPage.t -> M unit)
      (rs : list ScrapeResult) :
  balanced_frame crawl ->
  forall w w',
    receive_all crawl rs w = Done tt w' ->
    exists n, adds w w' n n (List.length rs + n).
Proof.
  intros Hc. induction rs as [|r rs IH]; intros w w' H.
  - injection H as <-. exists 0%nat, []. now rewrite app_nil_r.
  - cbn [receive_all] in H. bind_inv H. bind_inv H. bind_inv H.
    assert (A0 : adds w w0 0 0 1).
    { apply emit_Done in H0 as (_ & T & _). exists [EvRecv r]. auto. }
    pose proof (adds_quiet _ _ _ _ (quiet_log_scrape_error r) H1) as A1.
    assert (A2 : exists n, adds w1 w2 n n n).
    { destruct (Page r); [destruct a1; eapply Hc; eauto|].
      injection H2 as <- <-. exists 0%nat, []. now rewrite app_nil_r. }
    destruct A2 as (n2 & A2). destruct (IH _ _ H) as (n3 & A3).
    exists (n2 + n3)%nat.
    pose proof (adds_trans _ _ _ _ _ _ _ _ _
                  (adds_trans _ _ _ _ _ _ _ _ _
                     (adds_trans _ _ _ _ _ _ _ _ _ A0 A1) A2) A3) as A.
    cbn [List.length].
    replace (S (List.length rs) + (n2 + n3))%nat
      with (1 + 0 + n2 + (List.length rs + n3))%nat by lia.
    exact A.
Qed.

Lemma Crawl_at_adds (n : nat) : balanced_frame (Crawl_at E n).
Proof.
  induction n as [|n IH]; intros page w w' H.
  - exists 0%nat, []. rewrite app_nil_r.
    destruct page; injection H as <-; auto.
  - destruct page as [p|];
      [|injection H as <-; exists 0%nat, []; now rewrite app_nil_r].
    cbn [Crawl_at] in H. bind_inv H.
    destruct (launch_all_adds _ _ _ _ H0) as (L & A1).
    destruct (receive_all_adds _ a IH _ _ H) as (m & A2).
    exists (List.length (SucceededPage.Urls p) + m)%nat.
    pose proof (adds_trans _ _ _ _ _ _ _ _ _ A1 A2) as A.
    rewrite L in A.
    replace (0 + (List.length (SucceededPage.Urls p) + m))%nat
      with (List.length (SucceededPage.Urls p) + m)%nat in A by lia.
    exact A.
Qed.

End CountFacts.

(** *** A whole run *)

Section RunFacts.
Variable E : Env.

Lemma bounded_same_tracker (w w' : World) (seed : string) (b : nat) :
  scrapper w' = scrapper w -> bounded w seed b -> bounded w' seed b.
Proof.
  intros S Hb u Hu. apply within_subseteq with (w := w); [now rewrite S|].
  apply Hb. unfold succeeded, failed in *. now rewrite <- S.
Qed.

Lemma quiet_tracker {A} (c : M A) (w : World) (a : A) (w' : World) :
  quiet c -> c w = Done a w' -> scrapper w' = scrapper w.
Proof. intros Q H. now destruct (Q _ _ _ H) as (evs & (S & _) & _). Qed.

Lemma quiet_save (c : Collector) :
  quiet (if SaveToFile c then SaveResultsToFile E c ;;; ret tt else ret tt).
Proof.
  destruct (SaveToFile c); [|apply quiet_ret].
  apply quiet_bind; [apply quiet_SaveResultsToFile|intros ?; apply quiet_ret].
Qed.

(** The steps of [StartCrawling], one world after the other. *)
Lemma StartCrawling_Done (c : Collector) (w : World) (x : Z * option error)
      (w' : World) :
  StartCrawling E c w = Done x w' ->
  exists w1 gid w2 r w3 w4 w5,
    scrapper w1 = scrapper w /\ adds w w1 0 0 0
    /\ spawn (Seed c) w1 = Done gid w2
    /\ Scrape E gid (Seed c) w2 = Done r w3
    /\ scrapper w4 = scrapper w3 /\ adds w3 w4 0 0 1
    /\ match Page r with
       | Some p => Crawl E (Some p) (Depth c - 1) w4 = Done tt w5
       | None => w5 = w4
       end
    /\ scrapper w' = scrapper w5 /\ adds w5 w' 0 0 0.
Proof.
  intros H. unfold StartCrawling in H.
  bind_inv H. bind_inv H. bind_inv H. bind_inv H. bind_inv H. bind_inv H.
  bind_inv H. bind_inv H. bind_inv H. injection H as <- <-.
  pose proof (quiet_emit (EvPrint ("Crawling starting for url: " +:+ Seed c
                +:+ " with depth: " +:+ itoa (Depth c) +:+ nl)) eq_refl) as Q0.
  pose proof (adds_trans _ _ _ _ _ _ _ _ _
                (adds_quiet _ _ _ _ Q0 H0)
                (adds_quiet _ _ _ _ (quiet_Log _ _) H1)) as A01.
  assert (A4 : adds w3 w5 0 0 1).
  { assert (A : adds w3 w4 0 0 1).
    { apply emit_Done in H4 as (_ & T & _). exists [EvRecv a2]. auto. }
    apply (adds_trans _ _ _ _ _ _ _ _ _ A
             (adds_quiet _ _ _ _ (quiet_log_scrape_error _) H5)). }
  pose proof (adds_trans _ _ _ _ _ _ _ _ _
                (adds_quiet _ _ _ _ (quiet_save c) H7)
                (adds_quiet _ _ _ _ quiet_NumberOfPagesSucceed H8)) as A78.
  exists w1, a1, w2, a2, w3, w5, w6.
  split; [rewrite (quiet_tracker _ _ _ _ (quiet_Log _ _) H1);
          apply (quiet_tracker _ _ _ _ Q0 H0)|].
  split; [exact A01|]. split; [exact H2|]. split; [exact H3|].
  split; [rewrite (quiet_tracker _ _ _ _ (quiet_log_scrape_error _) H5);
          now apply emit_Done in H4 as (S4 & _)|].
  split; [exact A4|].
  split; [destruct (Page a2);
          [match goal with
           | H : Crawl _ _ _ _ = Done ?a _ |- _ => destruct a; exact H
           end
          |now injection H6 as _ <-]|].
  split; [|exact A78].
  rewrite (quiet_tracker _ _ _ _ quiet_NumberOfPagesSucceed H8).
  apply (quiet_tracker _ _ _ _ (quiet_save c) H7).
Qed.

Lemma StartCrawling_bounded (c : Collector) (w : World) (x : Z * option error)
      (w' : World) :
  scrapper w = NewScrapper ->
  StartCrawling E c w = Done x w' ->
  bounded w' (Seed c) (Z.to_nat (Depth c - 1)).
Proof.
  intros S0 H.
  apply StartCrawling_Done in H
    as (w1 & gid & w2 & r & w3 & w4 & w5 & S1 & _ & H2 & H3 & S4 & _ & H5 & S6 & _).
  apply spawn_Done in H2 as (S2 & _).
  pose proof (Scrape_effect E _ _ _ _ _ H3) as (_ & _ & _ & _ & _ & Hnew & Hpage & _).
  assert (B3 : bounded w3 (Seed c) (Z.to_nat (Depth c - 1))).
  { intros u Hu. apply Hnew in Hu.
    unfold succeeded, failed in Hu. rewrite S2, S1, S0 in Hu. cbn in Hu.
    rewrite !lookup_empty in Hu.
    destruct Hu as [[? ?] | [[? ?] | ->]]; try discriminate. constructor. }
  apply (bounded_same_tracker w5); [exact S6|].
  pose proof (bounded_same_tracker _ _ _ _ S4 B3) as B4.
  destruct (Page r) as [p|] eqn:P; [|now subst w5].
  destruct (Hpage p eq_refl) as (Hp & Hu).
  eapply (Crawl_at_bounded E (Seed c) (Z.to_nat (Depth c - 1))
            (Z.to_nat (Depth c - 1)) 0 p w4 w5); auto.
  - rewrite Hu, S4. exact Hp.
  - rewrite Hu. constructor.
Qed.

Lemma StartCrawling_adds (c : Collector) (w : World) (x : Z * option error)
      (w' : World) :
  StartCrawling E c w = Done x w' -> exists n, adds w w' (S n) (S n) (S n).
Proof.
  intros H.
  apply StartCrawling_Done in H
    as (w1 & gid & w2 & r & w3 & w4 & w5 & _ & A1 & H2 & H3 & _ & A4 & H5 & _ & A6).
  assert (A2 : adds w1 w2 1 0 0).
  { apply spawn_Done in H2 as (_ & T & _). exists [EvGo gid (Seed c)]. auto. }
  assert (A3 : adds w2 w3 0 1 0).
  { apply Scrape_effect in H3 as (_ & _ & _ & _ & _ & _ & _ & e & T & S & G & R).
    exists e. auto. }
  assert (A5 : exists n, adds w4 w5 n n n).
  { destruct (Page r); [eapply Crawl_at_adds; eauto|].
    subst w5. exists 0%nat, []. now rewrite app_nil_r. }
  destruct A5 as (n & A5). exists n.
  pose proof (adds_trans _ _ _ _ _ _ _ _ _
               (adds_trans _ _ _ _ _ _ _ _ _
                 (adds_trans _ _ _ _ _ _ _ _ _
                   (adds_trans _ _ _ _ _ _ _ _ _
                     (adds_trans _ _ _ _ _ _ _ _ _ A1 A2) A3) A4) A5) A6) as A.
  replace (0 + 1 + 0 + 0 + n + 0)%nat with (S n) in A by lia.
  replace (0 + 0 + 1 + 0 + n + 0)%nat with (S n) in A by lia.
  replace (0 + 0 + 0 + 1 + n + 0)%nat with (S n) in A by lia.
  exact A.
Qed.

(** Without a [Loggers] object the first [Log] is a nil dereference. *)
Lemma StartCrawling_nil_loggers (c : Collector) (w : World) :
  loggers w = None -> StartCrawling E c w = Panic.
Proof.
  intros L. unfold StartCrawling, bind, emit, Log. proj. now rewrite L.
Qed.

Lemma NewCollector_Ok (seed : string) (depth : Z) (saveToFile : bool)
      (fileName : string) (c : Collector) (w0 : World) :
  NewCollector E seed depth saveToFile fileName = Ok (c, w0) ->
  c = mkCollector seed depth saveToFile fileName
  /\ (0 < depth)%Z
  /\ scrapper w0 = NewScrapper
  /\ loggers w0 = fst (CreateLoggers E LogFile)
  /\ initial w0.
Proof.
  unfold NewCollector.
  destruct (NetURL.ParseRequestURI seed); [|discriminate].
  destruct (Z.leb_spec depth 0); [discriminate|].
  destruct (CreateLoggers E LogFile) as [lg err]. intros [= <- <-].
  repeat split; auto. cbn [trace].
  destruct err; repeat constructor. eauto.
Qed.

End RunFacts.

(** *** Logging *)

Lemma open_failure_panics (E : Env) (seed : string) (depth : Z)
      (saveToFile : bool) (fileName : string) (c : Collector) (w0 : World)
      (err : error) :
  os_OpenFile E LogFile = Some err ->
  NewCollector E seed depth saveToFile fileName = Ok (c, w0) ->
  trace w0 = [EvPrint ("Error creating loggers: " +:+ err +:+ nl)]
  /\ StartCrawling E c w0 = Panic.
Proof.
  intros HO HN. unfold NewCollector, CreateLoggers in HN. rewrite HO in HN.
  destruct (NetURL.ParseRequestURI seed); [|discriminate].
  destruct (depth <=? 0)%Z; [discriminate|]. injection HN as <- <-.
  split; [reflexivity|]. now apply StartCrawling_nil_loggers.
Qed.

(** C8 fails on the code. When the log file cannot be opened,
    [NewCollector] prints the warning and goes on with a nil [Loggers];
    the first [Log] of [StartCrawling] then dereferences it, and the run
    panics before any page is fetched. *)
Theorem StartCrawling_panics_without_log_file :
  exists c w0,
    NewCollector Examples.env_nolog "https://vtk.org/" 2 true "results.json"
    = Ok (c, w0)
    /\ trace w0 = [EvPrint ("Error creating loggers: "
                            +:+ "open logs.txt: permission denied" +:+ nl)]
    /\ StartCrawling Examples.env_nolog c w0 = Panic.
Proof.
  eexists _, _. split; [vm_compute; reflexivity|].
  split; vm_compute; reflexivity.
Qed.

(** *** Launches that are turned away *)

Lemma rejected_same_tracker (w w' : World) (url : string) :
  scrapper w' = scrapper w -> rejected w url -> rejected w' url.
Proof. unfold rejected, succeeded, in_flight. now intros ->. Qed.

Lemma no_fetch_refl (w : World) : no_fetch w w 0.
Proof. split; [reflexivity|]. exists []. now rewrite app_nil_r. Qed.

Lemma no_fetch_trans (w w1 w2 : World) (g1 g2 : nat) :
  no_fetch w w1 g1 -> no_fetch w1 w2 g2 -> no_fetch w w2 (g1 + g2).
Proof.
  intros (S1 & e1 & T1 & G1 & R1 & C1) (S2 & e2 & T2 & G2 & R2 & C2).
  split; [congruence|]. exists (e1 ++ e2).
  rewrite T2, T1, <- app_assoc, !count_app, G1, G2, R1, R2, C1, C2. auto.
Qed.

Lemma no_fetch_quiet {A} (c : M A) (w : World) (a : A) (w' : World) :
  quiet c -> c w = Done a w' -> no_fetch w w' 0.
Proof.
  intros Q H. destruct (Q _ _ _ H) as (evs & (S & T & _) & Hs).
  split; [exact S|]. exists evs. split; [exact T|].
  rewrite !count_silent;
    auto using silent_not_request, silent_not_commit, silent_not_go.
Qed.

Lemma no_fetch_event (w : World) (e : Event) :
  is_request e = false -> is_commit e = false ->
  no_fetch w (logged w e) (if is_go e then 1 else 0).
Proof.
  intros R C. split; [reflexivity|]. exists [e]. split; [reflexivity|].
  unfold count. simpl. rewrite R, C. now destruct (is_go e).
Qed.

Section RejectedFacts.
Variable E : Env.

Lemma launch_all_rejected (urls : list string) :
  forall w rs w',
    (forall u, In u urls -> rejected w u) ->
    launch_all E urls w = Done rs w' ->
    no_fetch w w' (List.length urls) /\ Forall (fun r => Page r = None) rs.
Proof.
  induction urls as [|u urls IH]; intros w rs w' Hrej H.
  - injection H as <- <-. split; [apply no_fetch_refl|constructor].
  - cbn [launch_all] in H. bind_inv H. bind_inv H. bind_inv H.
    injection H as <- <-.
    injection H0 as <- <-.
    pose proof (no_fetch_event w (EvGo (goroutines w + 1)%Z u) eq_refl eq_refl)
      as N0. cbn [is_go] in N0.
    set (w0 := mkWorld (scrapper w) (loggers w) (clock w) (goroutines w + 1)
                       (trace w ++ [EvGo (goroutines w + 1) u])) in *.
    destruct (Scrape_rejected E (goroutines w + 1) u w0) as (e & He).
    { apply (rejected_same_tracker w); [reflexivity|]. apply Hrej. now left. }
    rewrite He in H1. injection H1 as <- <-.
    pose proof (no_fetch_event w0 (EvSend (mkScrapeResult None (Some e)))
                  eq_refl eq_refl) as N1. cbn [is_go] in N1.
    assert (Hrej2 : forall x, In x urls ->
              rejected (logged w0 (EvSend (mkScrapeResult None (Some e)))) x).
    { intros x Hx. apply (rejected_same_tracker w); [reflexivity|].
      apply Hrej. now right. }
    destruct (IH _ _ _ Hrej2 H2) as (N2 & F).
    split; [|constructor; [reflexivity|exact F]].
    change (List.length (u :: urls)) with (1 + 0 + List.length urls)%nat.
    eapply no_fetch_trans; [eapply no_fetch_trans; [exact N0|exact N1]|exact N2].
Qed.

Lemma receive_all_no_pages (crawl : option SucceededPage.t -> M unit)
      (rs : list ScrapeResult) :
  Forall (fun r => Page r = None) rs ->
  forall w w', receive_all crawl rs w = Done tt w' -> no_fetch w w' 0.
Proof.
  induction 1 as [|r rs Hr _ IH]; intros w w' H.
  - injection H as <-. apply no_fetch_refl.
  - cbn [receive_all] in H. rewrite Hr in H.
    bind_inv H. bind_inv H. bind_inv H.
    injection H0 as _ <-. injection H2 as _ <-.
    change 0%nat with (0 + 0 + 0)%nat.
    eapply no_fetch_trans; [eapply no_fetch_trans|].
    + apply (no_fetch_event w (EvRecv r)); reflexivity.
    + eapply no_fetch_quiet; [apply quiet_log_scrape_error|exact H1].
    + eapply IH; eauto.
Qed.

End RejectedFacts.

(** C10. On each early return of [Scrape] (empty URL, URL already
    succeeded, URL already in-flight) the unit sends a result whose page is
    nil and whose error is set, and does nothing else: no record is
    committed and the three collections are as before. The receive loop
    logs the error of such a result and does not call [Crawl] for it; a
    frame all of whose links are turned away launches its units and
    neither fetches nor commits anything, nor launches any further unit. *)
Theorem early_return_commits_nothing (E : Env) (gid : Z) (url : string)
        (w : World) :
  url = "" \/ succeeded w url \/ in_flight w url ->
  (exists e,
     let r := mkScrapeResult None (Some e) in
     Scrape E gid url w = Done r (logged w (EvSend r))
     /\ scrapper (logged w (EvSend r)) = scrapper w
     /\ added w (logged w (EvSend r)) = [EvSend r]
     /\ forall crawl rest w1,
          receive_all crawl (r :: rest) w1
          = (emit (EvRecv r) ;;; Log ERROR ("Scrape error: " +:+ e +:+ nl) ;;;
             receive_all crawl rest) w1)
  /\ (forall n p w',
        (forall u, In u (SucceededPage.Urls p) ->
                   u = "" \/ succeeded w u \/ in_flight w u) ->
        Crawl_at E (S n) (Some p) w = Done tt w' ->
        scrapper w' = scrapper w
        /\ count is_go (added w w') = List.length (SucceededPage.Urls p)
        /\ count is_request (added w w') = 0%nat
        /\ count is_commit (added w w') = 0%nat).
Proof.
  intros Hrej. split.
  - destruct (Scrape_rejected E gid url w Hrej) as (e & He).
    exists e. cbv zeta. split; [exact He|]. split; [reflexivity|].
    split; [now apply added_app|].
    intros crawl rest w1. cbn [receive_all Page]. unfold bind, log_scrape_error.
    cbn [Error]. destruct (emit _ w1) as [a wa|]; [|reflexivity].
    destruct (Log _ _ wa); reflexivity.
  - intros n p w' Hall H. cbn [Crawl_at] in H. bind_inv H.
    destruct (launch_all_rejected E _ _ _ _ Hall H0) as (N1 & F).
    pose proof (receive_all_no_pages _ _ F _ _ H) as N2.
    destruct (no_fetch_trans _ _ _ _ _ N1 N2) as (Sc & evs & T & G & Rq & Cm).
    rewrite (added_app _ _ _ T). rewrite Nat.add_0_r in G. auto.
Qed.

Lemma early_return_commits_nothing_witness :
  exists e,
    Scrape Examples.env_pdf 2 "" Examples.world0
    = Done (mkScrapeResult None (Some e))
           (logged Examples.world0 (EvSend (mkScrapeResult None (Some e)))).
Proof.
  destruct (early_return_commits_nothing Examples.env_pdf 2 "" Examples.world0)
    as ((e & H & _) & _); [left; reflexivity|].
  exists e. exact H.
Defined.

(** *** Results and commits *)

Section TerminalFacts.
Variable E : Env.

Lemma launch_all_grows (urls : list string) :
  forall w rs w', launch_all E urls w = Done rs w' -> grows w w'.
Proof.
  induction urls as [|u urls IH]; intros w rs w' H.
  - injection H as <- <-. apply grows_refl.
  - cbn [launch_all] in H. bind_inv H. bind_inv H. bind_inv H.
    injection H as <- <-.
    apply spawn_Done, same_tracker_grows in H0.
    apply Scrape_grows in H1. apply IH in H2.
    eauto using grows_trans.
Qed.

Lemma receive_all_grows (crawl : option SucceededPage.t -> M unit)
      (rs : list ScrapeResult) :
  (forall page w w', crawl page w = Done tt w' -> grows w w') ->
  forall w w', receive_all crawl rs w = Done tt w' -> grows w w'.
Proof.
  intros Hc. induction rs as [|r rs IH]; intros w w' H.
  - injection H as <-. apply grows_refl.
  - cbn [receive_all] in H. bind_inv H. bind_inv H. bind_inv H.
    apply emit_Done, same_tracker_grows in H0.
    apply log_scrape_error_Done, same_tracker_grows in H1.
    assert (G : grows w1 w2).
    { destruct (Page r); [destruct a1; eapply Hc; eauto|].
      injection H2 as _ <-. apply grows_refl. }
    apply IH in H. eauto using grows_trans.
Qed.

Lemma Crawl_at_grows (n : nat) :
  forall page w w', Crawl_at E n page w = Done tt w' -> grows w w'.
Proof.
  induction n as [|n IH]; intros page w w' H.
  - destruct page; injection H as <-; apply grows_refl.
  - destruct page as [p|]; [|injection H as <-; apply grows_refl].
    cbn [Crawl_at] in H. bind_inv H.
    apply launch_all_grows in H0. apply (receive_all_grows _ _ IH) in H.
    eauto using grows_trans.
Qed.

(** A launch for a URL that is only in the failed collection goes to
    the network again. *)
Lemma Scrape_fetches (gid : Z) (url : string) (w : World) (r : ScrapeResult)
      (w' : World) :
  url <> "" ->
  Succeed (scrapper w) !! url = None ->
  InProcess (scrapper w) !! url = None ->
  http_NewRequest E HEAD url = None ->
  Scrape E gid url w = Done r w' ->
  In (EvDo HEAD url) (added w w').
Proof.
  intros U S P N. apply String.eqb_neq in U. unfold_run.
  rewrite U, S, P. cbv beta iota. cbn [negb]. proj.
  rewrite N. cbv beta iota. proj.
  split_paths; try discriminate;
    intros H; injection H as <- <-;
    (erewrite added_app; [|proj; rewrite <- !app_assoc; reflexivity]);
    simpl; auto.
Qed.

End TerminalFacts.

(** C1 (as amended). Whatever a Scrape Unit or a [Crawl] frame does, a URL
    in the failed collection stays there, and a URL in the succeeded
    collection stays there. A later launch for a succeeded URL is turned
    away: it sends its error, makes no request and changes no collection.
    A later launch for a URL that is only in the failed collection is not
    turned away: it makes the HEAD request again. *)
Theorem failed_is_kept_succeeded_is_final (E : Env) (gid : Z) (url : string)
        (w : World) :
  (forall r w', Scrape E gid url w = Done r w' ->
                forall u, (failed w u -> failed w' u)
                          /\ (succeeded w u -> succeeded w' u))
  /\ (forall n page w', Crawl_at E n page w = Done tt w' ->
                        forall u, (failed w u -> failed w' u)
                                  /\ (succeeded w u -> succeeded w' u))
  /\ (succeeded w url -> url <> "" ->
      let r := mkScrapeResult None (Some "page already visited") in
      Scrape E gid url w = Done r (logged w (EvSend r))
      /\ scrapper (logged w (EvSend r)) = scrapper w
      /\ count is_request (added w (logged w (EvSend r))) = 0%nat)
  /\ (failed w url -> url <> "" -> ~ succeeded w url -> ~ in_flight w url ->
      http_NewRequest E HEAD url = None ->
      forall r w', Scrape E gid url w = Done r w' ->
                   In (EvDo HEAD url) (added w w')).
Proof.
  assert (G : forall w w', grows w w' ->
                forall u, (failed w u -> failed w' u)
                          /\ (succeeded w u -> succeeded w' u)).
  { intros w1 w2 (S & F & _) u. split; [apply F|].
    intros [p Hp]. exists p. eapply lookup_weaken; eauto. }
  split; [|split; [|split]].
  - intros r w' H. apply G. eapply Scrape_grows; eauto.
  - intros n page w' H. apply G. eapply Crawl_at_grows; eauto.
  - intros [p Hp] U. cbv zeta. split; [|split; [reflexivity|]].
    + apply String.eqb_neq in U. unfold_run. now rewrite U, Hp.
    + erewrite added_app; [|reflexivity]. reflexivity.
  - intros _ U NS NF N r w' H.
    eapply Scrape_fetches; eauto.
    + destruct (Succeed (scrapper w) !! url) eqn:S; [|reflexivity].
      exfalso. apply NS. unfold succeeded. rewrite S. eauto.
    + destruct (InProcess (scrapper w) !! url) eqn:P; [|reflexivity].
      exfalso. apply NF. unfold in_flight. rewrite P. eauto.
Qed.

Lemma failed_is_kept_succeeded_is_final_witness :
  failed Examples.after_failure Examples.flaky
  /\ failed Examples.after_retry Examples.flaky
  /\ In (EvDo HEAD Examples.flaky)
        (added Examples.after_failure Examples.after_retry).
Proof.
  destruct (failed_is_kept_succeeded_is_final Examples.env_retry 3
              Examples.flaky Examples.after_failure) as (Keep & _ & _ & Again).
  assert (F1 : failed Examples.after_failure Examples.flaky)
    by (eexists; vm_compute; reflexivity).
  assert (H : Scrape Examples.env_retry 3 Examples.flaky Examples.after_failure
              = Done (mkScrapeResult
                        (Some (SucceededPage.mk Examples.flaky [] []
                                 "application/pdf" 10 1002 [] [])) None)
                     Examples.after_retry)
    by (vm_compute; reflexivity).
  split; [exact F1|]. split.
  - now apply (Keep _ _ H).
  - apply (Again F1) with (r := mkScrapeResult
               (Some (SucceededPage.mk Examples.flaky [] [] "application/pdf"
                        10 1002 [] [])) None).
    + discriminate.
    + intros [p Hp]. vm_compute in Hp. discriminate.
    + intros [p Hp]. vm_compute in Hp. discriminate.
    + reflexivity.
    + exact H.
Defined.

(** C1, as stated, fails: after a first launch has committed the URL to
    the failed collection, a second launch for it makes a request, and
    here it is answered, so that the URL ends up succeeded as well. *)
Lemma failed_url_is_fetched_again :
  exists r1 r2,
    Scrape Examples.env_retry 2 Examples.flaky Examples.world0
    = Done r1 Examples.after_failure
    /\ failed Examples.after_failure Examples.flaky
    /\ Scrape Examples.env_retry 3 Examples.flaky Examples.after_failure
       = Done r2 Examples.after_retry
    /\ count is_request (added Examples.after_failure Examples.after_retry)
       = 1%nat
    /\ succeeded Examples.after_retry Examples.flaky
    /\ failed Examples.after_retry Examples.flaky.
Proof.
  eexists _, _.
  split; [vm_compute; reflexivity|].
  split; [eexists; vm_compute; reflexivity|].
  split; [vm_compute; reflexivity|].
  split; [vm_compute; reflexivity|].
  split; eexists; vm_compute; reflexivity.
Qed.

(** C5 (as amended). A Scrape Unit whose [Loggers] is there always
    returns, having sent exactly one result. When the entry checks turn
    the launch away it commits no record and leaves the collections as
    they are; otherwise it commits exactly one record, to the succeeded or
    to the failed collection, and its in-flight marker is gone. In every
    [Crawl] frame and in [StartCrawling], launches, sends and receives are
    equal in number: each result is received once. *)
Theorem one_result_per_unit (E : Env) (gid : Z) (url : string) (w : World)
        (lines : list (Z * string)) :
  loggers w = Some lines ->
  (exists r w' evs,
     Scrape E gid url w = Done r w'
     /\ trace w' = trace w ++ evs /\ count is_send evs = 1%nat
     /\ (url = "" \/ succeeded w url \/ in_flight w url ->
         count is_commit evs = 0%nat /\ scrapper w' = scrapper w)
     /\ (url <> "" -> ~ succeeded w url -> ~ in_flight w url ->
         count is_commit evs = 1%nat /\ ~ in_flight w' url
         /\ (succeeded w' url \/ failed w' url)))
  /\ (forall n page w', Crawl_at E n page w = Done tt w' ->
                        exists k, adds w w' k k k)
  /\ (forall c x w', StartCrawling E c w = Done x w' ->
                     exists k, adds w w' (S k) (S k) (S k)).
Proof.
  intros L. split; [|split].
  - destruct (String.eqb_spec url "") as [U|U];
      [|destruct (Succeed (scrapper w) !! url) as [p0|] eqn:S;
        [|destruct (InProcess (scrapper w) !! url) as [g0|] eqn:P]].
    1-3: (destruct (Scrape_rejected E gid url w) as [e He];
          [unfold succeeded, in_flight; rewrite ?S, ?P; eauto|];
          eexists _, _, [_]; split; [exact He|]; split; [reflexivity|];
          split; [reflexivity|]; split; [intros _; split; reflexivity|];
          intros U' NS NF; exfalso;
          first [ solve [now apply U']
                | solve [apply NS; unfold succeeded; rewrite S; eauto]
                | solve [apply NF; unfold in_flight; rewrite P; eauto] ]).
    pose proof (Scrape_fresh E gid url w U S P) as F.
    destruct (Scrape E gid url w) as [r w'|]; [|congruence].
    destruct F as (lines' & line & evs & _ & _ & _ & Hp & Ht & Hs & Hc & _ & _ & Hcase).
    exists r, w', evs. split; [reflexivity|]. split; [exact Ht|].
    split; [exact Hs|]. split.
    + intros [-> | [[? Hx] | [? Hx]]]; [now contradiction U|congruence..].
    + intros _ _ _. split; [exact Hc|]. split.
      * unfold in_flight. rewrite Hp, lookup_delete_eq. now intros [? ?].
      * unfold succeeded, failed.
        destruct Hcase as [(p & _ & _ & -> & _) | (fp & -> & _)];
          [left|right]; rewrite lookup_insert_eq; eauto.
  - intros n page w' H. eapply Crawl_at_adds; eauto.
  - intros c x w' H. eapply StartCrawling_adds; eauto.
Qed.

Lemma one_result_per_unit_witness :
  exists r w' evs,
    Scrape Examples.env_pdf 2 "https://a.test/doc.pdf" Examples.world0
    = Done r w'
    /\ trace w' = trace Examples.world0 ++ evs
    /\ count is_send evs = 1%nat /\ count is_commit evs = 1%nat.
Proof.
  destruct (one_result_per_unit Examples.env_pdf 2 "https://a.test/doc.pdf"
              Examples.world0 [] eq_refl)
    as ((r & w' & evs & H & T & S & _ & C) & _).
  exists r, w', evs. split; [exact H|]. split; [exact T|]. split; [exact S|].
  apply C.
  - discriminate.
  - intros [p Hp]. vm_compute in Hp. discriminate.
  - intros [p Hp]. vm_compute in Hp. discriminate.
Defined.

(** C5, as stated, fails: the launch for an empty URL ends without
    committing any record. *)
Lemma empty_url_commits_no_record :
  exists r w',
    Scrape Examples.env_pdf 2 "" Examples.world0 = Done r w'
    /\ count is_commit (added Examples.world0 w') = 0%nat
    /\ scrapper w' = scrapper Examples.world0.
Proof.
  eexists _, _. split; [vm_compute; reflexivity|].
  split; vm_compute; reflexivity.
Qed.

(** *** Units side by side: what holds at every instant *)

Lemma move_covered (k : kind) (url : string) (gid : Z) (w w' : World) :
  move k url gid w w' -> covered w -> covered w'.
Proof.
  unfold covered, in_flight, succeeded, failed. destruct k; cbn [move].
  - intros (S & evs & T & N) C u. rewrite T, S, in_app_iff.
    intros [H | H]; [auto|]. now apply N in H.
  - intros (S & F & P & T) C u. rewrite T, S, F, P, in_app_iff.
    intros [H | [[= <-] | []]].
    + destruct (C u H) as [Hx | Hx]; [|auto]. left.
      apply lookup_insert_is_Some'. auto.
    + left. rewrite lookup_insert_eq. eauto.
  - intros (P & Hc & evs & T & N) C u. rewrite T, P, in_app_iff.
    intros [H | H]; [|now apply N in H].
    destruct (decide (url = u)) as [<- | Hne].
    + right. destruct Hc as [(p & -> & _) | (fp & -> & _)];
        [left|right]; rewrite lookup_insert_eq; eauto.
    + rewrite lookup_delete_ne by assumption.
      destruct Hc as [(p & -> & ->) | (fp & -> & ->)];
        rewrite lookup_insert_ne by assumption; auto.
  Qed.

Lemma move_disjoint (k : kind) (url : string) (gid : Z) (w w' : World) :
  move k url gid w w' ->
  (k = KMark -> Succeed (scrapper w) !! url = None) ->
  disjoint_marks w -> disjoint_marks w'.
Proof.
  unfold disjoint_marks, in_flight, succeeded. destruct k; cbn [move].
  - intros (S & _) _ D u. rewrite S. apply D.
  - intros (S & _ & P & _) G D u. rewrite S, P.
    destruct (decide (url = u)) as [<- | Hne].
    + intros _. rewrite (G eq_refl). now intros [? ?].
    + rewrite lookup_insert_ne by assumption. apply D.
  - intros (P & Hc & _) _ D u. rewrite P.
    destruct (decide (url = u)) as [<- | Hne].
    + rewrite lookup_delete_eq. now intros [? ?].
    + rewrite lookup_delete_ne by assumption.
      destruct Hc as [(p & -> & _) | (fp & _ & ->)];
        rewrite ?lookup_insert_ne by assumption; apply D.
Qed.

Ltac solve_added :=
  first [ exists []; split; [symmetry; apply app_nil_r|intros ? []]
        | eexists; split;
          [ rewrite <- ?app_assoc; reflexivity
          | intros ? Hin; simpl in Hin; intuition discriminate ] ].

Section UnitFacts.
Variable E : Env.

Lemma unit_step_move (u : Unit) (w : World) (u' : Unit) (w' : World) :
  unit_step E u w = Done u' w' ->
  u_url u' = u_url u /\ u_gid u' = u_gid u
  /\ match u_pc u with
     | PStart =>
         move KSame (u_url u) (u_gid u) w w'
         /\ ((u_pc u' = PCheckProcessed
              /\ Succeed (scrapper w) !! u_url u = None)
             \/ is_late (u_pc u') = true)
     | PCheckProcessed =>
         move KSame (u_url u) (u_gid u) w w'
         /\ ((u_pc u' = PMark /\ InProcess (scrapper w) !! u_url u = None)
             \/ is_late (u_pc u') = true)
     | PMark => move KMark (u_url u) (u_gid u) w w' /\ u_pc u' = PHead
     | PFail _ | PSucceed _ =>
         move KCommit (u_url u) (u_gid u) w w' /\ is_late (u_pc u') = true
     | _ => move KSame (u_url u) (u_gid u) w w' /\ is_late (u_pc u') = true
     end.
Proof.
  destruct u as [gid url p]. cbn [u_pc u_url u_gid].
  destruct p; cbv [unit_step u_pc u_url u_gid]; unfold_run; split_paths;
    try discriminate; intros H; injection H as ? ?; subst;
    cbn [u_pc u_url u_gid is_late move]; proj;
    (split; [reflexivity|]); (split; [reflexivity|]).
  all: try solve [split; [split; [reflexivity|solve_added]|auto]].
  all: try solve [repeat split; reflexivity].
  all: try solve [split; [|reflexivity]; split; [reflexivity|];
                  split; [eauto|solve_added]].
Qed.

Lemma late_racefree (u : Unit) :
  is_late (u_pc u) = true -> racefree_step E u = unit_step E u.
Proof. unfold racefree_step. now destruct (u_pc u). Qed.

Lemma same_move_disjoint (url : string) (gid : Z) (w w' : World) :
  move KSame url gid w w' -> disjoint_marks w -> disjoint_marks w'.
Proof. intros M. eapply move_disjoint; eauto. discriminate. Qed.

(** One race-free step keeps the marks apart. *)
Lemma racefree_step_keeps (u : Unit) (w : World) (u' : Unit) (w' : World) :
  racefree_step E u w = Done u' w' ->
  u_pc u = PStart \/ is_late (u_pc u) = true ->
  disjoint_marks w -> covered w ->
  disjoint_marks w' /\ covered w' /\ is_late (u_pc u') = true.
Proof.
  intros H [Hs | Hl] D C.
  - unfold racefree_step in H. rewrite Hs in H. bind_inv H.
    pose proof (unit_step_move _ _ _ _ H0) as (U1 & G1 & M1).
    rewrite Hs in M1. destruct M1 as (M1 & [(P1 & S1) | L1]).
    + rewrite P1 in H. bind_inv H.
      pose proof (unit_step_move _ _ _ _ H1) as (U2 & G2 & M2).
      rewrite P1 in M2. destruct M2 as (M2 & [(P2 & S2) | L2]).
      * rewrite P2 in H.
        pose proof (unit_step_move _ _ _ _ H) as (U3 & G3 & M3).
        rewrite P2 in M3. destruct M3 as (M3 & P3).
        pose proof (same_move_disjoint _ _ _ _ M1 D) as D1.
        pose proof (same_move_disjoint _ _ _ _ M2 D1) as D2.
        split; [|split; [|now rewrite P3]].
        -- eapply move_disjoint; [exact M3| |exact D2]. intros _.
           destruct M1 as (Sa & _), M2 as (Sb & _).
           rewrite U2, U1, Sb, Sa. exact S1.
        -- eauto using move_covered.
      * assert (E2 : a0 = u' /\ w1 = w').
        { destruct (u_pc a0); try discriminate; now injection H as <- <-. }
        destruct E2 as [<- <-].
        split; [|split; [|exact L2]];
          eauto using same_move_disjoint, move_covered.
    + assert (E1 : a = u' /\ w0 = w').
      { destruct (u_pc a); try discriminate; now injection H as <- <-. }
      destruct E1 as [<- <-].
      split; [|split; [|exact L1]];
        eauto using same_move_disjoint, move_covered.
  - rewrite (late_racefree u Hl) in H.
    pose proof (unit_step_move _ _ _ _ H) as (_ & _ & M).
    destruct (u_pc u); try discriminate; destruct M as (M & L);
      (split; [|split; [|exact L]]);
      first [ eapply move_disjoint; [exact M|discriminate|exact D]
            | eapply move_covered; eauto ].
Qed.

Lemma initial_holds (w0 : World) :
  initial w0 -> disjoint_marks w0 /\ covered w0.
Proof.
  intros (S & T). split.
  - intros u [g Hg]. rewrite S in Hg. cbn in Hg.
    rewrite lookup_empty in Hg. discriminate.
  - intros u Hu. rewrite List.Forall_forall in T.
    destruct (T _ Hu) as (m & Hm). discriminate.
Qed.

Lemma spawn_move (url : string) (w : World) (gid : Z) (w' : World) :
  spawn url w = Done gid w' -> move KSame url gid w w'.
Proof.
  intros H. injection H as <- <-. split; [reflexivity|].
  eexists. split; [reflexivity|]. intros u [Hu | []]. discriminate.
Qed.

Lemma reachable_racefree (w : World) (us : list Unit) :
  reachable (racefree_step E) w us ->
  disjoint_marks w /\ covered w
  /\ Forall (fun u => u_pc u = PStart \/ is_late (u_pc u) = true) us.
Proof.
  induction 1 as [w0 Hi | w us url gid w' _ (D & C & F) Hs
                 | w us i u u' w' _ (D & C & F) Hi Hs].
  - destruct (initial_holds _ Hi). auto.
  - apply spawn_move in Hs.
    split; [eapply same_move_disjoint; eauto|].
    split; [eapply move_covered; eauto|].
    apply Forall_app. split; [exact F|]. constructor; [now left|constructor].
  - assert (Hu : u_pc u = PStart \/ is_late (u_pc u) = true).
    { rewrite Forall_lookup in F. eapply F; eauto. }
    destruct (racefree_step_keeps _ _ _ _ Hs Hu D C) as (D' & C' & L').
    split; [exact D'|]. split; [exact C'|].
    apply Forall_insert; auto.
Qed.

Lemma reachable_covered (w : World) (us : list Unit) :
  reachable (unit_step E) w us -> covered w.
Proof.
  induction 1 as [w0 Hi | w us url gid w' _ C Hs | w us i u u' w' _ C Hi Hs].
  - now destruct (initial_holds _ Hi).
  - apply spawn_move in Hs. eapply move_covered; eauto.
  - pose proof (unit_step_move _ _ _ _ Hs) as (_ & _ & M).
    destruct (u_pc u); destruct M as (M & _); eapply move_covered; eauto.
Qed.

End UnitFacts.

Section PoolFacts.
Variable E : Env.

Lemma pool_run_reachable (step : Unit -> M Unit) (sched : list nat) :
  forall w us w' us',
    reachable step w us ->
    pool_run step sched w us = Some (w', us') ->
    reachable step w' us'.
Proof.
  induction sched as [|i sched IH]; intros w us w' us' R H.
  - injection H as <- <-. exact R.
  - cbn [pool_run] in H. destruct (us !! i) as [u|] eqn:Hi; [|discriminate].
    destruct (step u w) as [u1 w1|] eqn:Hs; [|discriminate].
    eapply IH; [|exact H]. eapply reach_step; eauto.
Qed.

(** Run alone from its start, a unit is [Scrape]. *)
Lemma unit_run_Scrape (gid : Z) (url : string) (w : World) :
  match unit_run E 7 (mkUnit gid url PStart) w with
  | Done u w' => exists r, u_pc u = PDone r /\ Scrape E gid url w = Done r w'
  | Panic => Scrape E gid url w = Panic
  end.
Proof.
  cbv [unit_run unit_step u_pc u_url u_gid with_Timestamp
       SucceededPage.Url SucceededPage.Title SucceededPage.Description
       SucceededPage.ContentType SucceededPage.ContentLength
       SucceededPage.Urls SucceededPage.Paragrahps].
  unfold_run. split_paths; try reflexivity; eexists; split; reflexivity.
Qed.

End PoolFacts.

(** C2 (as amended). At every instant of a run in which the entry sequence
    of a unit (check succeeded, check in-flight, mark) is not interleaved
    with other units, no URL is both in-flight and succeeded, and every URL
    that has been marked in-flight is in at least one of the three
    collections; the latter holds under every interleaving. The failed
    collection is not exclusive. *)
Theorem tracker_collections (E : Env) (w : World) (us : list Unit) :
  (reachable (racefree_step E) w us ->
   (forall u, in_flight w u -> ~ succeeded w u)
   /\ (forall u, In (EvInitiate u) (trace w) ->
                 in_flight w u \/ succeeded w u \/ failed w u))
  /\ (reachable (unit_step E) w us ->
      forall u, In (EvInitiate u) (trace w) ->
                in_flight w u \/ succeeded w u \/ failed w u).
Proof.
  split.
  - intros R. destruct (reachable_racefree E w us R) as (D & C & _). auto.
  - apply reachable_covered.
Qed.

Lemma tracker_collections_witness :
  in_flight Examples.marked_world Examples.flaky
  /\ ~ succeeded Examples.marked_world Examples.flaky.
Proof.
  assert (R : reachable (racefree_step Examples.env_pdf) Examples.marked_world
                        [mkUnit 2 Examples.flaky PHead]).
  { apply (reach_step _ Examples.launched_world
             [mkUnit 2 Examples.flaky PStart] 0
             (mkUnit 2 Examples.flaky PStart) (mkUnit 2 Examples.flaky PHead)).
    - apply (reach_launch _ Examples.world0 [] Examples.flaky 2).
      + apply reach_init. split; [reflexivity|constructor].
      + reflexivity.
    - reflexivity.
    - vm_compute. reflexivity. }
  destruct (tracker_collections Examples.env_pdf Examples.marked_world
              [mkUnit 2 Examples.flaky PHead]) as (Free & _).
  destruct (Free R) as (D & _).
  assert (F : in_flight Examples.marked_world Examples.flaky)
    by (eexists; vm_compute; reflexivity).
  split; [exact F|exact (D _ F)].
Defined.

(** C2, as stated, fails: in this run the first request for a URL times
    out, a page scraped later links to it again, the second request is
    answered, and the URL ends in the succeeded and in the failed
    collection at once. *)
Lemma url_both_succeeded_and_failed :
  exists w',
    NewCollector Examples.env_flaky Examples.seed 3 false "out.json"
    = Ok (mkCollector Examples.seed 3 false "out.json",
          mkWorld NewScrapper (Some []) 0 1 [])
    /\ StartCrawling Examples.env_flaky
         (mkCollector Examples.seed 3 false "out.json")
         (mkWorld NewScrapper (Some []) 0 1 [])
       = Done (3%Z, None) w'
    /\ succeeded w' Examples.flaky /\ failed w' Examples.flaky.
Proof.
  eexists. split; [vm_compute; reflexivity|].
  split; [vm_compute; reflexivity|].
  split; eexists; vm_compute; reflexivity.
Qed.

(** The race of the entry sequence: when two units for one URL both pass
    the checks before either marks, the first commits its page and the
    second then marks the URL, which is in-flight and succeeded at once. *)
Lemma check_then_mark_race :
  exists w us,
    reachable (unit_step Examples.env_pdf) w us
    /\ in_flight w Examples.flaky /\ succeeded w Examples.flaky.
Proof.
  pose (w2 := logged_go (logged_go Examples.world0 2 Examples.flaky) 3
                        Examples.flaky).
  pose (us2 := [mkUnit 2 Examples.flaky PStart; mkUnit 3 Examples.flaky PStart]).
  assert (R2 : reachable (unit_step Examples.env_pdf) w2 us2).
  { apply (reach_launch _ (logged_go Examples.world0 2 Examples.flaky)
             [mkUnit 2 Examples.flaky PStart] Examples.flaky 3).
    - apply (reach_launch _ Examples.world0 [] Examples.flaky 2).
      + apply reach_init. split; [reflexivity|constructor].
      + reflexivity.
    - reflexivity. }
  destruct (pool_run (unit_step Examples.env_pdf) [0; 1; 0; 1; 0; 0; 0; 1]%nat
                     w2 us2) as [[w us]|] eqn:H;
    [|vm_compute in H; discriminate].
  exists w, us. split; [eapply pool_run_reachable; eauto|].
  vm_compute in H. injection H as <- <-.
  split; eexists; vm_compute; reflexivity.
Qed.

(** *** The shape of normalized text *)

Module NormalizerShape.
Import Normalizer NormalizerFacts.

Lemma class_IsSpace (r : rune) : class_space r = true -> IsSpace r = true.
Proof.
  unfold class_space, perl_space, unicode_Zs, IsSpace. intros H.
  destruct (N.leb_spec r 255) as [L|L];
    rewrite ?orb_true_iff, ?andb_true_iff, ?N.eqb_eq, ?N.leb_le in *; lia.
Qed.

Lemma not_IsSpace_class (r : rune) : IsSpace r = false -> class_space r = false.
Proof.
  intros H. destruct (class_space r) eqn:C; [|reflexivity].
  apply class_IsSpace in C. congruence.
Qed.

Lemma measure_ind (P : text -> Prop) :
  P [] ->
  (forall r s, class_space r && starts_class s = true ->
               P (skip_class s) -> P (r :: s)) ->
  (forall r s, class_space r && starts_class s = false -> P s -> P (r :: s)) ->
  forall s, P s.
Proof.
  intros H0 Hrun Hkeep s.
  remember (List.length s) as n eqn:Hn.
  revert s Hn. induction n as [n IH] using lt_wf_ind. intros s Hn.
  destruct s as [|r s]; [exact H0|].
  destruct (class_space r && starts_class s) eqn:C.
  - apply Hrun; [exact C|]. eapply IH; [|reflexivity]. subst n. simpl.
    pose proof (skip_class_length s). lia.
  - apply Hkeep; [exact C|]. eapply IH; [|reflexivity]. subst n. simpl. lia.
Qed.

Lemma starts_class_ReplaceAllString (s : text) :
  starts_class s = false -> starts_class (ReplaceAllString s) = false.
Proof.
  destruct s as [|d s]; [reflexivity|]. cbn [starts_class]. intros D.
  rewrite ReplaceAllString_keep by now rewrite D. exact D.
Qed.

Lemma ReplaceAllString_single_spaced (s : text) :
  single_spaced (ReplaceAllString s) = true.
Proof.
  induction s as [|r s C IH|r s C IH] using measure_ind.
  - reflexivity.
  - now rewrite ReplaceAllString_run.
  - rewrite ReplaceAllString_keep by assumption. cbn [single_spaced].
    rewrite IH, andb_true_r. apply negb_true_iff.
    destruct (class_space r); [|reflexivity]. simpl in *.
    now apply starts_class_ReplaceAllString.
Qed.

Lemma single_spaced_fixed (s : text) :
  single_spaced s = true -> ReplaceAllString s = s.
Proof.
  induction s as [|r s IH]; [reflexivity|]. cbn [single_spaced].
  intros H. apply andb_true_iff in H as [C H]. apply negb_true_iff in C.
  rewrite ReplaceAllString_keep by assumption. now rewrite IH.
Qed.

Lemma filter_skip_class (s : text) :
  List.filter (fun r => negb (IsSpace r)) (skip_class s)
  = List.filter (fun r => negb (IsSpace r)) s.
Proof.
  induction s as [|d s IH]; [reflexivity|]. cbn [skip_class].
  destruct (class_space d) eqn:D; [|reflexivity].
  simpl. now rewrite (class_IsSpace d D).
Qed.

Lemma ReplaceAllString_filter (s : text) :
  List.filter (fun r => negb (IsSpace r)) (ReplaceAllString s)
  = List.filter (fun r => negb (IsSpace r)) s.
Proof.
  induction s as [|r s C IH|r s C IH] using measure_ind.
  - reflexivity.
  - rewrite ReplaceAllString_run by assumption. rewrite IH, filter_skip_class.
    apply andb_true_iff in C as [C _]. simpl. now rewrite (class_IsSpace r C).
  - rewrite ReplaceAllString_keep by assumption. simpl. now rewrite IH.
Qed.

Lemma filter_all_space (l : text) :
  forallb IsSpace l = true -> List.filter (fun r => negb (IsSpace r)) l = [].
Proof.
  induction l as [|r l IH]; [reflexivity|]. simpl.
  intros H. apply andb_true_iff in H as [-> H]. simpl. auto.
Qed.

Lemma ReplaceAllString_length (s : text) :
  (List.length (ReplaceAllString s) <= List.length s)%nat.
Proof.
  induction s as [|r s C IH|r s C IH] using measure_ind.
  - simpl. lia.
  - rewrite ReplaceAllString_run by assumption.
    pose proof (skip_class_length s). simpl. lia.
  - rewrite ReplaceAllString_keep by assumption. simpl. lia.
Qed.

Lemma skip_class_snoc (s : text) (x : rune) :
  class_space x = false ->
  exists t, skip_class (s ++ [x]) = t ++ [x]
            /\ (List.length t <= List.length s)%nat.
Proof.
  intros X. induction s as [|d s (t & E & L)]; simpl.
  - rewrite X. exists []. auto.
  - destruct (class_space d).
    + exists t. split; [exact E|lia].
    + exists (d :: s). auto.
Qed.

Lemma ReplaceAllString_snoc (x : rune) (s : text) :
  class_space x = false ->
  exists t, ReplaceAllString (s ++ [x]) = t ++ [x].
Proof.
  intros X.
  remember (List.length s) as n eqn:Hn.
  revert s Hn. induction n as [n IH] using lt_wf_ind. intros s Hn.
  destruct s as [|r s].
  - exists []. simpl. now rewrite X.
  - cbn [app]. destruct (class_space r && starts_class (s ++ [x])) eqn:C.
    + rewrite ReplaceAllString_run by assumption.
      destruct (skip_class_snoc s x X) as (t & -> & L).
      eapply IH; [|reflexivity]. subst n. simpl. lia.
    + rewrite ReplaceAllString_keep by assumption.
      destruct (IH (List.length s)) with (s := s) as (t & ->);
        [subst n; simpl; lia|reflexivity|].
      now exists (r :: t).
Qed.

Lemma TrimLeft_all (s : text) :
  forallb IsSpace s = true -> TrimLeft s = [].
Proof.
  induction s as [|r s IH]; [reflexivity|]. simpl.
  intros H. apply andb_true_iff in H as [-> H]. auto.
Qed.

Lemma TrimSpace_ends (s : text) : no_space_at_ends (TrimSpace s).
Proof.
  split.
  - apply TrimRight_head, TrimLeft_head.
  - apply TrimRight_last.
Qed.

Lemma TrimSpace_fixed (s : text) : no_space_at_ends s -> TrimSpace s = s.
Proof.
  intros [H1 H2]. unfold TrimSpace, TrimRight.
  rewrite (TrimLeft_fixed s H1), (TrimLeft_fixed (rev s) H2).
  apply rev_involutive.
Qed.

Lemma ReplaceAllString_ends (s : text) :
  no_space_at_ends s -> no_space_at_ends (ReplaceAllString s).
Proof.
  intros [H1 H2]. split.
  - destruct s as [|x s]; [exact I|].
    rewrite ReplaceAllString_keep by now rewrite (not_IsSpace_class x H1).
    exact H1.
  - destruct (rev s) as [|x t] eqn:R.
    + apply (f_equal (@rev _)) in R. rewrite rev_involutive in R. now subst s.
    + apply (f_equal (@rev _)) in R. rewrite rev_involutive in R. subst s.
      simpl. destruct (ReplaceAllString_snoc x (rev t) (not_IsSpace_class x H2))
        as (t' & ->).
      rewrite rev_app_distr. exact H2.
Qed.

Lemma ReplaceAllString_nil (s : text) :
  no_space_at_ends s -> ReplaceAllString s = [] -> s = [].
Proof.
  intros [H1 _]. destruct s as [|x s]; [reflexivity|].
  rewrite ReplaceAllString_keep by now rewrite (not_IsSpace_class x H1).
  discriminate.
Qed.

Lemma TrimAndSanitize_ends (Sanitize : text -> text) (s : text) :
  no_space_at_ends (TrimAndSanitize Sanitize s).
Proof. apply ReplaceAllString_ends, TrimSpace_ends. Qed.

Lemma TrimAndSanitize_nil (Sanitize : text -> text) (s : text) :
  TrimAndSanitize Sanitize s = [] <-> forallb IsSpace (Sanitize s) = true.
Proof.
  unfold TrimAndSanitize.
  destruct (TrimLeft_split (Sanitize s)) as (l & El & Fl).
  destruct (TrimRight_split (TrimLeft (Sanitize s))) as (r & Er & Fr).
  fold (TrimSpace (Sanitize s)) in Er. split.
  - intros H. apply ReplaceAllString_nil in H; [|apply TrimSpace_ends].
    rewrite El, Er, H. simpl. rewrite forallb_app. now rewrite Fl, Fr.
  - intros H. unfold TrimSpace. rewrite (TrimLeft_all _ H). reflexivity.
Qed.

End NormalizerShape.

(** X1. What [TrimAndSanitize] returns has no white space
    ([unicode.IsSpace]) at either end and no two neighbouring runes of the
    pattern's class; it is empty exactly when the sanitized text is white
    space only; its runes that are not white space are those of the
    sanitized text, in their order; and it is never longer than the
    sanitized text. *)
Theorem TrimAndSanitize_shape (Sanitize : text -> text) (s : text) :
  let out := Normalizer.TrimAndSanitize Sanitize s in
  no_space_at_ends out
  /\ single_spaced out = true
  /\ (out = [] <-> forallb Normalizer.IsSpace (Sanitize s) = true)
  /\ List.filter (fun r => negb (Normalizer.IsSpace r)) out
     = List.filter (fun r => negb (Normalizer.IsSpace r)) (Sanitize s)
  /\ (List.length out <= List.length (Sanitize s))%nat.
Proof.
  intros out. subst out.
  split; [apply NormalizerShape.TrimAndSanitize_ends|].
  split; [apply NormalizerShape.ReplaceAllString_single_spaced|].
  split; [apply NormalizerShape.TrimAndSanitize_nil|].
  unfold Normalizer.TrimAndSanitize.
  destruct (NormalizerFacts.TrimLeft_split (Sanitize s)) as (l & El & Fl).
  destruct (NormalizerFacts.TrimRight_split (Normalizer.TrimLeft (Sanitize s)))
    as (r & Er & Fr).
  fold (Normalizer.TrimSpace (Sanitize s)) in Er.
  assert (Es : Sanitize s = l ++ Normalizer.TrimSpace (Sanitize s) ++ r)
    by (now rewrite <- Er).
  split.
  - rewrite NormalizerShape.ReplaceAllString_filter.
    rewrite Es at 2. rewrite !List.filter_app.
    rewrite (NormalizerShape.filter_all_space l Fl),
      (NormalizerShape.filter_all_space r Fr).
    now rewrite app_nil_r.
  - pose proof (NormalizerShape.ReplaceAllString_length
                  (Normalizer.TrimSpace (Sanitize s))) as L.
    rewrite Es at 2. rewrite !length_app. lia.
Qed.

(** X2. Normalizing twice changes nothing: when the
    sanitizer leaves a normalized text as it is, [TrimAndSanitize] does
    too. *)
Theorem TrimAndSanitize_idempotent (Sanitize : text -> text) (s : text) :
  let out := Normalizer.TrimAndSanitize Sanitize s in
  Sanitize out = out ->
  Normalizer.TrimAndSanitize Sanitize out = out.
Proof.
  intros out H. unfold Normalizer.TrimAndSanitize at 1. rewrite H.
  rewrite (NormalizerShape.TrimSpace_fixed out)
    by apply NormalizerShape.TrimAndSanitize_ends.
  apply NormalizerShape.single_spaced_fixed,
    NormalizerShape.ReplaceAllString_single_spaced.
Qed.

Lemma TrimAndSanitize_idempotent_witness :
  Normalizer.TrimAndSanitize (fun t => t) (text_of_string " a  b c ")
  = text_of_string "ab c"
  /\ Normalizer.TrimAndSanitize (fun t => t) (text_of_string "ab c")
     = text_of_string "ab c".
Proof.
  split; [reflexivity|].
  exact (TrimAndSanitize_idempotent (fun t => t) (text_of_string " a  b c ")
           eq_refl).
Defined.

(** *** Links, paragraphs, title and description of a page *)

Lemma URLExists_In (urls : list string) (url : string) :
  URLExists urls url = true <-> In url urls.
Proof.
  induction urls as [|item rest IH]; simpl; [split; [discriminate|tauto]|].
  destruct (String.eqb_spec item url) as [->|N].
  - split; auto.
  - rewrite IH. split; [auto|]. intros [H|H]; [contradiction|exact H].
Qed.

(** X3. [URLExists] answers true exactly when the URL is an
    element of the list. *)
Theorem URLExists_spec (urls : list string) (url : string) :
  (URLExists urls url = true <-> In url urls)
  /\ (URLExists urls url = false <-> ~ In url urls).
Proof.
  pose proof (URLExists_In urls url) as H. split; [exact H|].
  destruct (URLExists urls url).
  - split; [discriminate|]. intros N. exfalso. apply N, H. reflexivity.
  - split; [|reflexivity]. intros _ Hin. apply H in Hin. discriminate.
Qed.

Section LinkFacts.
Variable url : string.

Lemma extract_urls_fold (doc : Document) :
  extract_urls url doc = fold_left (link_step url) (doc_a doc) [].
Proof. reflexivity. Qed.

Lemma links_prefix (l : list (option string)) (acc : list string) :
  exists more, fold_left (link_step url) l acc = acc ++ more.
Proof.
  revert acc. induction l as [|a l IH]; intros acc; simpl.
  - exists []. now rewrite app_nil_r.
  - destruct (IH (link_step url acc a)) as (more & ->).
    unfold link_step. destruct a as [href|]; [|eauto].
    destruct (AbsoluteURL url href) as [out|]; [|eauto].
    destruct (negb (URLExists acc out)); [|eauto].
    rewrite <- app_assoc. eauto.
Qed.

Lemma links_NoDup (l : list (option string)) (acc : list string) :
  List.NoDup acc -> List.NoDup (fold_left (link_step url) l acc).
Proof.
  revert acc. induction l as [|a l IH]; intros acc H; simpl; [exact H|].
  apply IH. unfold link_step. destruct a as [href|]; [|exact H].
  destruct (AbsoluteURL url href) as [out|]; [|exact H].
  destruct (URLExists acc out) eqn:X; [exact H|]. simpl.
  apply List.NoDup_app; [exact H|repeat constructor; simpl; tauto|].
  intros x Hx [<-|[]]. apply URLExists_In in Hx. congruence.
Qed.

Lemma links_In (l : list (option string)) (acc : list string) (x : string) :
  In x (fold_left (link_step url) l acc)
  <-> In x acc \/ exists href, In (Some href) l /\ AbsoluteURL url href = Ok x.
Proof.
  revert acc. induction l as [|a l IH]; intros acc; simpl.
  - split; [auto|]. intros [H|(h & [] & _)]. exact H.
  - rewrite IH. unfold link_step. destruct a as [href|].
    + destruct (AbsoluteURL url href) as [out|e] eqn:A.
      * destruct (URLExists acc out) eqn:X; simpl.
        -- apply URLExists_In in X. split.
           ++ intros [H|(h & H1 & H2)]; eauto.
           ++ intros [H|(h & [[= <-]|H1] & H2)]; eauto.
              left. congruence.
        -- rewrite List.in_app_iff. simpl. split.
           ++ intros [[H|[<-|[]]]|(h & H1 & H2)]; eauto.
           ++ intros [H|(h & [[= <-]|H1] & H2)]; eauto.
              left. right. left. congruence.
      * split.
        -- intros [H|(h & H1 & H2)]; eauto.
        -- intros [H|(h & [[= <-]|H1] & H2)]; eauto. congruence.
    + split.
      * intros [H|(h & H1 & H2)]; eauto.
      * intros [H|(h & [[=]|H1] & H2)]; eauto.
Qed.

End LinkFacts.

Lemma AbsoluteURL_http (pageURL href out : string) :
  AbsoluteURL pageURL href = Ok out ->
  HasPrefix out "http:" = true \/ HasPrefix out "https:" = true.
Proof.
  intros H.
  apply AbsoluteURL_Ok in H
    as (base & ref & final & _ & _ & -> & Hs & _).
  assert (Hne : NetURL.Scheme final <> "")
    by (destruct Hs as [-> | ->]; discriminate).
  pose proof (NetURLFacts.URL_String_prefix final Hne) as Hp.
  destruct Hs as [E | E]; rewrite E in Hp; auto.
Qed.

(** X4. The links of a page record, as the loop over the
    anchors of [Scrape] collects them: no URL is listed twice; a URL is
    listed exactly when some anchor has an href that [AbsoluteURL] resolves
    to it against the page URL (anchors without href and hrefs that do not
    resolve are skipped); every link starts with [http:] or [https:]; and
    the links keep the order of the anchors that first yield them, so the
    links of a document cut after any anchor are a prefix of the links of
    the whole document. *)
Theorem extract_urls_links (url : string) (doc : Document) :
  List.NoDup (extract_urls url doc)
  /\ (forall x, In x (extract_urls url doc)
                <-> exists href, In (Some href) (doc_a doc)
                                 /\ AbsoluteURL url href = Ok x)
  /\ (forall x, In x (extract_urls url doc) ->
                HasPrefix x "http:" = true \/ HasPrefix x "https:" = true)
  /\ (forall t m p l1 l2,
        exists more,
          extract_urls url (mkDocument t m p (l1 ++ l2))
          = extract_urls url (mkDocument t m p l1) ++ more).
Proof.
  split; [|split; [|split]].
  - rewrite extract_urls_fold. apply links_NoDup. constructor.
  - intros x. rewrite extract_urls_fold, links_In. simpl. tauto.
  - intros x Hx. rewrite extract_urls_fold in Hx.
    apply links_In in Hx as [[]|(h & _ & H)].
    eapply AbsoluteURL_http; eauto.
  - intros t m p l1 l2. rewrite !extract_urls_fold. cbn [doc_a].
    rewrite fold_left_app. apply links_prefix.
Qed.

Section TextFacts.
Variable E : Env.

Lemma paragraphs_fold (l : list text) (acc : list text) :
  fold_left
    (fun paragraphs s =>
       let para := Normalizer.TrimAndSanitize (Sanitize E) s in
       if negb (is_empty_text para) then paragraphs ++ [para] else paragraphs)
    l acc
  = acc ++ List.filter (fun t => negb (is_empty_text t))
             (map (Normalizer.TrimAndSanitize (Sanitize E)) l).
Proof.
  revert acc. induction l as [|s l IH]; intros acc; simpl.
  - now rewrite app_nil_r.
  - rewrite IH.
    destruct (is_empty_text (Normalizer.TrimAndSanitize (Sanitize E) s));
      simpl; [reflexivity|]. now rewrite <- app_assoc.
Qed.

Lemma last_default {A} (x : A) (l : list A) (d d' : A) :
  List.last (x :: l) d = List.last (x :: l) d'.
Proof.
  revert x. induction l as [|y l IH]; intros x; [reflexivity|].
  change (List.last (y :: l) d = List.last (y :: l) d'). apply IH.
Qed.

Lemma title_fold (l : list text) (acc : text) :
  fold_left (fun _ s => Normalizer.TrimAndSanitize (Sanitize E) s) l acc
  = List.last (map (Normalizer.TrimAndSanitize (Sanitize E)) l) acc.
Proof.
  revert acc. induction l as [|s l IH]; intros acc; [reflexivity|].
  cbn [fold_left map]. rewrite IH. destruct l as [|t l]; [reflexivity|].
  cbn [map]. symmetry.
  change (List.last (Normalizer.TrimAndSanitize (Sanitize E) t
                       :: map (Normalizer.TrimAndSanitize (Sanitize E)) l) acc
          = List.last (Normalizer.TrimAndSanitize (Sanitize E) t
                         :: map (Normalizer.TrimAndSanitize (Sanitize E)) l)
              (Normalizer.TrimAndSanitize (Sanitize E) s)).
  apply last_default.
Qed.

Lemma find_app {A} (p : A -> bool) (l1 l2 : list A) :
  List.find p (l1 ++ l2)
  = match List.find p l1 with Some x => Some x | None => List.find p l2 end.
Proof.
  induction l1 as [|x l1 IH]; [reflexivity|]. simpl.
  destruct (p x); [reflexivity|exact IH].
Qed.

Lemma description_fold (title : text) (l : list MetaTag) (acc : text) :
  fold_left
    (fun description m =>
       if EqualFold (meta_name m) (text_of_string "description") then
         match meta_content m with
         | Some content => content
         | None => title
         end
       else description)
    l acc
  = match List.find is_description (rev l) with
    | Some m => match meta_content m with
                | Some content => content
                | None => title
                end
    | None => acc
    end.
Proof.
  revert acc. induction l as [|m l IH]; intros acc; [reflexivity|].
  cbn [fold_left rev]. rewrite IH.
  rewrite find_app.
  destruct (List.find is_description (rev l)) as [m'|] eqn:F; [reflexivity|].
  simpl. unfold is_description.
  now destruct (EqualFold (meta_name m) (text_of_string "description")).
Qed.

End TextFacts.

(** X5. The paragraphs of a page record are the
    normalized texts of the p elements, in document order and with
    repetitions, without the empty ones: a p element contributes its
    normalized text exactly when its sanitized text is not white space
    only. *)
Theorem extract_paragraphs_nonempty (E : Env) (doc : Document) :
  extract_paragraphs E doc
  = List.filter (fun t => negb (is_empty_text t))
      (map (Normalizer.TrimAndSanitize (Sanitize E)) (doc_p doc))
  /\ Forall (fun t => t <> []) (extract_paragraphs E doc)
  /\ (forall s, In s (doc_p doc) ->
        (In (Normalizer.TrimAndSanitize (Sanitize E) s) (extract_paragraphs E doc)
         <-> forallb Normalizer.IsSpace (Sanitize E s) = false)).
Proof.
  assert (H : extract_paragraphs E doc
              = List.filter (fun t => negb (is_empty_text t))
                  (map (Normalizer.TrimAndSanitize (Sanitize E)) (doc_p doc))).
  { unfold extract_paragraphs. now rewrite paragraphs_fold. }
  split; [exact H|]. rewrite H. split.
  - apply List.Forall_forall. intros t Ht.
    apply List.filter_In in Ht as [_ Ht]. now destruct t.
  - intros s Hs. rewrite List.filter_In.
    pose proof (NormalizerShape.TrimAndSanitize_nil (Sanitize E) s) as N.
    split.
    + intros [_ Hne].
      destruct (forallb Normalizer.IsSpace (Sanitize E s)); [|reflexivity].
      rewrite (proj2 N eq_refl) in Hne. discriminate.
    + intros Hf. split; [now apply List.in_map|].
      destruct (Normalizer.TrimAndSanitize (Sanitize E) s) eqn:T; [|reflexivity].
      rewrite (proj1 N eq_refl) in Hf. discriminate.
Qed.

(** X6. The title of a page record is the
    normalized text of the last title element, and empty when there is
    none. The description is taken from the last meta element whose name
    is description in any letter case: its content attribute as it is (not
    normalized), or the title when it has no content attribute; it is empty
    when there is no such element. *)
Theorem last_title_and_description_win (E : Env) (doc : Document) (title : text) :
  extract_title E doc
  = List.last (map (Normalizer.TrimAndSanitize (Sanitize E)) (doc_title doc)) []
  /\ extract_description title doc
     = match List.find is_description (rev (doc_meta doc)) with
       | Some m => match meta_content m with
                   | Some content => content
                   | None => title
                   end
       | None => []
       end.
Proof.
  split.
  - unfold extract_title. apply title_fold.
  - unfold extract_description. apply description_fold.
Qed.

(** *** The paths of a Scrape Unit *)

Section UnitPaths.
Variable E : Env.

Lemma Scrape_fresh_requests (gid : Z) (url : string) (w : World) :
  url <> "" ->
  Succeed (scrapper w) !! url = None ->
  InProcess (scrapper w) !! url = None ->
  match Scrape E gid url w with
  | Panic => True
  | Done r w' =>
      exists evs,
        trace w' = trace w ++ evs
        /\ ((requests evs = [] /\ clock w' = clock w
             /\ is_Some (http_NewRequest E HEAD url))
            \/ (requests evs = [EvDo HEAD url] /\ clock w' = S (clock w))
            \/ (requests evs = [EvDo HEAD url; EvDo GET url]
                /\ clock w' = S (S (clock w))
                /\ exists response,
                     http_Do E (clock w) HEAD url = Ok response
                     /\ StatusCode response = 200%Z
                     /\ Contains (ToLower (Header_ContentType response))
                          "text/html" = true))
  end.
Proof.
  intros U S P. apply String.eqb_neq in U. unfold_run.
  rewrite U, S, P. cbv beta iota. cbn [negb]. proj.
  split_paths; try exact I;
    eexists; (split; [rewrite <- !app_assoc; reflexivity|]);
    first [ solve [left; repeat split; eauto]
          | solve [right; left; repeat split; eauto]
          | right; right; split; [reflexivity|]; split; [reflexivity|];
            eexists; split; [reflexivity|];
            repeat match goal with
                   | H : negb _ = false |- _ => apply negb_false_iff in H
                   end;
            split; [now apply Z.eqb_eq|assumption] ].
Qed.

Lemma Scrape_fresh_record (gid : Z) (url : string) (w : World) :
  url <> "" ->
  Succeed (scrapper w) !! url = None ->
  InProcess (scrapper w) !! url = None ->
  match Scrape E gid url w with
  | Panic => True
  | Done r w' =>
      (exists p, r = mkScrapeResult (Some p) None
                 /\ SucceededPage.Url p = url
                 /\ SucceededPage.Timestamp p = time_Now E (clock w')
                 /\ Succeed (scrapper w') = <[url := p]> (Succeed (scrapper w))
                 /\ Failed (scrapper w') = Failed (scrapper w))
      \/ (exists e, r = mkScrapeResult None (Some e)
                    /\ Failed (scrapper w')
                       = <[url := FailedPage.mk url e (time_Now E (clock w'))]>
                           (Failed (scrapper w))
                    /\ Succeed (scrapper w') = Succeed (scrapper w))
  end.
Proof.
  intros U S P. apply String.eqb_neq in U. unfold_run.
  rewrite U, S, P. cbv beta iota. cbn [negb]. proj.
  split_paths; try exact I;
    first [ left; eexists; repeat split; reflexivity
          | right; eexists; repeat split; reflexivity ].
Qed.

End UnitPaths.



(** X8. When the entry checks pass and the HEAD request
    fails in transport or is answered with a status other than 200, the
    unit makes no GET request: it commits a failure record for the URL with
    the error of the HEAD request as its reason, removes the in-flight
    marker, leaves the succeeded collection alone and sends the error. *)
Theorem Scrape_head_failure (E : Env) (gid : Z) (url : string) (w : World)
        (lines : list (Z * string)) :
  url <> "" ->
  Succeed (scrapper w) !! url = None ->
  InProcess (scrapper w) !! url = None ->
  loggers w = Some lines ->
  http_NewRequest E HEAD url = None ->
  match http_Do E (clock w) HEAD url with
  | Ok response => StatusCode response <> 200%Z
  | Err _ => True
  end ->
  let reason :=
    match http_Do E (clock w) HEAD url with
    | Ok response => "status code: " +:+ itoa (StatusCode response) +:+ nl
    | Err err => "http request failed: " +:+ err +:+ nl
    end in
  let r := mkScrapeResult None (Some reason) in
  exists w',
    Scrape E gid url w = Done r w'
    /\ added w w' = [EvInitiate url; EvDo HEAD url; EvFailed url; EvSend r]
    /\ Failed (scrapper w')
       = <[url := FailedPage.mk url reason (time_Now E (S (clock w)))]>
           (Failed (scrapper w))
    /\ Succeed (scrapper w') = Succeed (scrapper w)
    /\ InProcess (scrapper w') = InProcess (scrapper w).
Proof.
  intros U S P L N D reason r. apply String.eqb_neq in U.
  unfold_run. rewrite U, S, P. cbv beta iota. cbn [negb]. proj.
  rewrite N. cbv beta iota. proj. subst r reason.
  destruct (http_Do E (clock w) HEAD url) as [response|err].
  - apply Z.eqb_neq in D. rewrite D. cbn [negb]. cbv beta iota. proj.
    rewrite L.
    change ((INFO =? INFO)%Z || (INFO =? WARNING)%Z || (INFO =? ERROR)%Z)
      with true.
    cbv beta iota. eexists. split; [reflexivity|]. proj.
    split; [|split; [reflexivity|split; [reflexivity|]]].
    + apply added_app. proj. rewrite <- !app_assoc. reflexivity.
    + now apply delete_insert_id.
  - cbv beta iota. proj. rewrite L.
    change ((INFO =? INFO)%Z || (INFO =? WARNING)%Z || (INFO =? ERROR)%Z)
      with true.
    cbv beta iota. eexists. split; [reflexivity|]. proj.
    split; [|split; [reflexivity|split; [reflexivity|]]].
    + apply added_app. proj. rewrite <- !app_assoc. reflexivity.
    + now apply delete_insert_id.
Qed.

Lemma Scrape_head_failure_witness :
  exists w',
    Scrape (Examples.env_status 404) 2 "https://a.test/gone" Examples.world0
    = Done (mkScrapeResult None (Some ("status code: 404" +:+ nl))) w'
    /\ count is_request (added Examples.world0 w') = 1%nat.
Proof.
  destruct (Scrape_head_failure (Examples.env_status 404) 2 "https://a.test/gone"
              Examples.world0 [])
    as (w' & H & A & _);
    [discriminate|reflexivity|reflexivity|reflexivity|reflexivity
    |simpl; discriminate|].
  exists w'. split; [exact H|]. rewrite A. reflexivity.
Defined.

(** X9. A Scrape Unit makes no request, or one HEAD
    request, or one HEAD request followed by one GET request, all for its
    own URL; it makes the GET request only after the HEAD request was
    answered with status 200 and a content type that holds [text/html]; a
    unit that is turned away at the entry checks makes no request at all. *)
Theorem Scrape_request_discipline (E : Env) (gid : Z) (url : string)
        (w : World) (r : ScrapeResult) (w' : World) :
  Scrape E gid url w = Done r w' ->
  clock w' = (clock w + List.length (requests (added w w')))%nat
  /\ (requests (added w w') = []
      \/ requests (added w w') = [EvDo HEAD url]
      \/ (requests (added w w') = [EvDo HEAD url; EvDo GET url]
          /\ exists response,
               http_Do E (clock w) HEAD url = Ok response
               /\ StatusCode response = 200%Z
               /\ Contains (ToLower (Header_ContentType response)) "text/html"
                  = true))
  /\ (rejected w url -> requests (added w w') = []).
Proof.
  intros H.
  destruct (String.eqb_spec url "") as [U|U];
    [|destruct (Succeed (scrapper w) !! url) as [p0|] eqn:S;
      [|destruct (InProcess (scrapper w) !! url) as [g0|] eqn:P]].
  1-3: (destruct (Scrape_rejected E gid url w) as [e He];
        [unfold succeeded, in_flight; rewrite ?S, ?P; eauto|];
        rewrite He in H; injection H as <- <-;
        rewrite (added_app w _ [EvSend (mkScrapeResult None (Some e))])
          by reflexivity;
        unfold logged; proj; repeat split; auto).
  pose proof (Scrape_fresh_requests E gid url w U S P) as F. rewrite H in F.
  destruct F as (evs & T & F). rewrite (added_app _ _ _ T).
  split; [|split].
  - destruct F as [(-> & -> & _) | [(-> & ->) | (-> & -> & _)]]; simpl; lia.
  - destruct F as [(F & _) | [(F & _) | (F & _ & F')]]; auto.
  - unfold rejected, succeeded, in_flight. rewrite S, P.
    intros [? | [[? ?] | [? ?]]]; [contradiction|discriminate..].
Qed.

Lemma Scrape_request_discipline_witness :
  clock Examples.after_failure
  = (clock Examples.world0
     + List.length (requests (added Examples.world0 Examples.after_failure)))%nat
  /\ requests (added Examples.world0 Examples.after_failure)
     = [EvDo HEAD Examples.flaky].
Proof.
  destruct (Scrape_request_discipline Examples.env_retry 2 Examples.flaky
              Examples.world0
              (mkScrapeResult None
                 (Some ("http request failed: context deadline exceeded"
                        +:+ nl)))
              Examples.after_failure) as (H & _ & _);
    [vm_compute; reflexivity|].
  split; [exact H|vm_compute; reflexivity].
Defined.

(** X10. The result a unit sends and the record it
    commits agree. A unit turned away at the entry checks sends one of the
    three entry errors, has no page and leaves the tracker as it is. Any
    other unit either sends a page, which is the record now stored for its
    URL in the succeeded collection, carries that URL and the time read at
    the end, and leaves the failed collection alone; or it sends an error,
    and the record now stored for its URL in the failed collection carries
    the URL, that error as its reason and the time read at the end, with
    the succeeded collection left alone. *)
Theorem Scrape_result_record (E : Env) (gid : Z) (url : string) (w : World)
        (r : ScrapeResult) (w' : World) :
  Scrape E gid url w = Done r w' ->
  (rejected w url ->
   Page r = None /\ scrapper w' = scrapper w
   /\ (Error r = Some "empty url" \/ Error r = Some "page already visited"
       \/ Error r = Some "page still being processed"))
  /\ (~ rejected w url ->
      (exists p, r = mkScrapeResult (Some p) None
                 /\ SucceededPage.Url p = url
                 /\ SucceededPage.Timestamp p = time_Now E (clock w')
                 /\ Succeed (scrapper w') = <[url := p]> (Succeed (scrapper w))
                 /\ Failed (scrapper w') = Failed (scrapper w))
      \/ (exists e, r = mkScrapeResult None (Some e)
                    /\ Failed (scrapper w')
                       = <[url := FailedPage.mk url e (time_Now E (clock w'))]>
                           (Failed (scrapper w))
                    /\ Succeed (scrapper w') = Succeed (scrapper w))).
Proof.
  intros H. split.
  - intros R. revert H. unfold rejected, succeeded, in_flight in R. unfold_run.
    destruct (String.eqb url "") eqn:U;
      [intros [= <- <-]; proj; auto|].
    destruct (Succeed (scrapper w) !! url) eqn:S;
      [intros [= <- <-]; proj; auto|].
    destruct (InProcess (scrapper w) !! url) eqn:P;
      [cbn [negb]; cbv beta iota; intros [= <- <-]; proj; auto 6|].
    exfalso. apply String.eqb_neq in U.
    destruct R as [-> | [[? ?] | [? ?]]]; [contradiction|discriminate..].
  - intros R.
    assert (U : url <> "") by (intros ->; apply R; now left).
    assert (S : Succeed (scrapper w) !! url = None).
    { destruct (Succeed (scrapper w) !! url) eqn:S; [|reflexivity].
      exfalso. apply R. right. left. unfold succeeded. rewrite S. eauto. }
    assert (P : InProcess (scrapper w) !! url = None).
    { destruct (InProcess (scrapper w) !! url) eqn:P; [|reflexivity].
      exfalso. apply R. right. right. unfold in_flight. rewrite P. eauto. }
    pose proof (Scrape_fresh_record E gid url w U S P) as F.
    now rewrite H in F.
Qed.

Lemma Scrape_result_record_witness :
  Failed (scrapper Examples.after_failure) !! Examples.flaky
  = Some (FailedPage.mk Examples.flaky
            ("http request failed: context deadline exceeded" +:+ nl) 1001).
Proof.
  destruct (Scrape_result_record Examples.env_retry 2 Examples.flaky
              Examples.world0
              (mkScrapeResult None
                 (Some ("http request failed: context deadline exceeded"
                        +:+ nl)))
              Examples.after_failure) as (_ & H);
    [vm_compute; reflexivity|].
  destruct H as [(p & Hp & _) | (e & He & HF & _)].
  - intros [H | [[? H] | [? H]]]; discriminate H.
  - discriminate Hp.
  - injection He as <-. rewrite HF. apply lookup_insert_eq.
Defined.

(** X11. When the HEAD request was answered with status
    200 and [text/html], and the GET request then fails in transport, is
    answered with another status, or has a body that does not parse, the
    unit has made both requests, commits a failure record with that error
    as its reason and no page record, removes the in-flight marker and
    sends the error. *)
Theorem Scrape_get_failure (E : Env) (gid : Z) (url : string) (w : World)
        (lines : list (Z * string)) (head : Response) :
  url <> "" ->
  Succeed (scrapper w) !! url = None ->
  InProcess (scrapper w) !! url = None ->
  loggers w = Some lines ->
  http_NewRequest E HEAD url = None ->
  http_Do E (clock w) HEAD url = Ok head ->
  StatusCode head = 200%Z ->
  Contains (ToLower (Header_ContentType head)) "text/html" = true ->
  http_NewRequest E GET url = None ->
  match http_Do E (S (clock w)) GET url with
  | Ok get => StatusCode get <> 200%Z \/ exists err, Body get = Err err
  | Err _ => True
  end ->
  let reason :=
    match http_Do E (S (clock w)) GET url with
    | Ok get =>
        if negb (StatusCode get =? 200)%Z
        then "status code: " +:+ itoa (StatusCode get) +:+ nl
        else match Body get with Err err => err | Ok _ => "" end
    | Err err => "http request failed: " +:+ err +:+ nl
    end in
  let r := mkScrapeResult None (Some reason) in
  exists w',
    Scrape E gid url w = Done r w'
    /\ added w w' = [EvInitiate url; EvDo HEAD url; EvDo GET url; EvFailed url;
                     EvSend r]
    /\ Failed (scrapper w')
       = <[url := FailedPage.mk url reason (time_Now E (S (S (clock w))))]>
           (Failed (scrapper w))
    /\ Succeed (scrapper w') = Succeed (scrapper w)
    /\ InProcess (scrapper w') = InProcess (scrapper w).
Proof.
  intros U HS P L N D St C N' D' reason r. apply String.eqb_neq in U.
  unfold_run. rewrite U, HS, P. cbv beta iota. cbn [negb]. proj.
  rewrite N. cbv beta iota. proj. rewrite D. cbv beta iota.
  rewrite St. cbn [Z.eqb Pos.eqb negb]. cbv beta iota. rewrite C.
  cbn [negb]. cbv beta iota. proj.
  rewrite N'. cbv beta iota. proj. subst r reason.
  destruct (http_Do E (S (clock w)) GET url) as [get|err]; cbv beta iota; proj.
  - destruct (Z.eqb_spec (StatusCode get) 200) as [Sg|Sg]; cbn [negb];
      cbv beta iota; proj.
    + destruct D' as [D'|(err & B)]; [contradiction|]. rewrite B.
      cbv beta iota. proj. rewrite L.
      change ((INFO =? INFO)%Z || (INFO =? WARNING)%Z || (INFO =? ERROR)%Z)
        with true.
      cbv beta iota. eexists. split; [reflexivity|]. proj.
      split; [|split; [reflexivity|split; [reflexivity|]]].
      * apply added_app. proj. rewrite <- !app_assoc. reflexivity.
      * now apply delete_insert_id.
    + rewrite L.
      change ((INFO =? INFO)%Z || (INFO =? WARNING)%Z || (INFO =? ERROR)%Z)
        with true.
      cbv beta iota. eexists. split; [reflexivity|]. proj.
      split; [|split; [reflexivity|split; [reflexivity|]]].
      * apply added_app. proj. rewrite <- !app_assoc. reflexivity.
      * now apply delete_insert_id.
  - rewrite L.
    change ((INFO =? INFO)%Z || (INFO =? WARNING)%Z || (INFO =? ERROR)%Z)
      with true.
    cbv beta iota. eexists. split; [reflexivity|]. proj.
    split; [|split; [reflexivity|split; [reflexivity|]]].
    + apply added_app. proj. rewrite <- !app_assoc. reflexivity.
    + now apply delete_insert_id.
Qed.

Lemma Scrape_get_failure_witness :
  exists w',
    Scrape env_unreadable 2 "https://a.test/x" Examples.world0
    = Done (mkScrapeResult None (Some "unexpected EOF")) w'
    /\ count is_request (added Examples.world0 w') = 2%nat.
Proof.
  destruct (Scrape_get_failure env_unreadable 2 "https://a.test/x"
              Examples.world0 []
              (mkResponse 200 "text/html" 10 (Err "unexpected EOF")))
    as (w' & H & A & _);
    [discriminate|reflexivity|reflexivity|reflexivity|reflexivity|reflexivity
    |reflexivity|reflexivity|reflexivity|right; eexists; reflexivity|].
  exists w'. split; [exact H|]. rewrite A. reflexivity.
Defined.

(** *** The tracker, query by query *)

Lemma status_eq (url : string) (w : World) :
  status url w
  = Some (bool_decide (is_Some (Succeed (scrapper w) !! url)),
          negb (bool_decide (is_Some (InProcess (scrapper w) !! url))),
          bool_decide (is_Some (Failed (scrapper w) !! url))).
Proof.
  unfold status, answer, IsVisited, IsProcessed, IsFailed, bind, ret, get_scrapper.
  destruct (Succeed (scrapper w) !! url), (InProcess (scrapper w) !! url),
    (Failed (scrapper w) !! url); reflexivity.
Qed.

Lemma InitiateScrape_Done (gid : Z) (url : string) (w : World) (w' : World) :
  InitiateScrape gid url w = Done tt w' ->
  scrapper w' = mkScrapper (Succeed (scrapper w)) (Failed (scrapper w))
                           (<[url := gid]> (InProcess (scrapper w))).
Proof. intros H. injection H as <-. reflexivity. Qed.

Lemma ScrapeSucceed_Done (url : string) (page : SucceededPage.t) (w w' : World) :
  ScrapeSucceed url page w = Done tt w' ->
  scrapper w' = mkScrapper (<[url := page]> (Succeed (scrapper w)))
                           (Failed (scrapper w))
                           (delete url (InProcess (scrapper w))).
Proof.
  unfold ScrapeSucceed, bind, get_scrapper, put_scrapper, emit, Log. proj.
  destruct (loggers w); [|discriminate]. intros H. injection H as <-. reflexivity.
Qed.

Lemma ScrapeFailed_Done (url : string) (page : FailedPage.t) (w w' : World) :
  ScrapeFailed url page w = Done tt w' ->
  scrapper w' = mkScrapper (Succeed (scrapper w))
                           (<[url := page]> (Failed (scrapper w)))
                           (delete url (InProcess (scrapper w))).
Proof.
  unfold ScrapeFailed, bind, get_scrapper, put_scrapper, emit, Log. proj.
  destruct (loggers w); [|discriminate]. intros H. injection H as <-. reflexivity.
Qed.

Lemma bool_decide_is_Some_insert {A} (m : gmap string A) (k u : string) (x : A) :
  bool_decide (is_Some (<[k := x]> m !! u))
  = if String.eqb u k then true else bool_decide (is_Some (m !! u)).
Proof.
  destruct (String.eqb_spec u k) as [->|N].
  - rewrite lookup_insert_eq. apply bool_decide_eq_true. eauto.
  - rewrite lookup_insert_ne by congruence. reflexivity.
Qed.

Lemma bool_decide_is_Some_delete {A} (m : gmap string A) (k u : string) :
  bool_decide (is_Some (delete k m !! u))
  = if String.eqb u k then false else bool_decide (is_Some (m !! u)).
Proof.
  destruct (String.eqb_spec u k) as [->|N].
  - rewrite lookup_delete_eq. apply bool_decide_eq_false. intros [? ?]. discriminate.
  - rewrite lookup_delete_ne by congruence. reflexivity.
Qed.

(** X12. What the three queries of the tracker answer
    for any URL after each of its three updates. [InitiateScrape] makes
    [IsProcessed] answer false for its URL; [ScrapeSucceed] makes
    [IsVisited] and [IsProcessed] answer true for its URL; [ScrapeFailed]
    makes [IsFailed] and [IsProcessed] answer true for its URL and leaves
    [IsVisited] as it was; every answer for another URL, and every answer
    not named here, is as before. *)
Theorem tracker_round_trip (gid : Z) (url : string) (page : SucceededPage.t)
        (fp : FailedPage.t) (w w' : World) (u : string)
        (visited free failed : bool) :
  status u w = Some (visited, free, failed) ->
  (InitiateScrape gid url w = Done tt w' ->
   status u w' = Some (visited, if String.eqb u url then false else free, failed))
  /\ (ScrapeSucceed url page w = Done tt w' ->
      status u w' = Some (if String.eqb u url then true else visited,
                          if String.eqb u url then true else free, failed))
  /\ (ScrapeFailed url fp w = Done tt w' ->
      status u w' = Some (visited, if String.eqb u url then true else free,
                          if String.eqb u url then true else failed)).
Proof.
  rewrite (status_eq u w). intros [= <- <- <-].
  split; [|split]; intros H.
  - apply InitiateScrape_Done in H. rewrite status_eq, H. proj.
    rewrite bool_decide_is_Some_insert. now destruct (String.eqb u url).
  - apply ScrapeSucceed_Done in H. rewrite status_eq, H. proj.
    rewrite bool_decide_is_Some_insert, bool_decide_is_Some_delete.
    now destruct (String.eqb u url).
  - apply ScrapeFailed_Done in H. rewrite status_eq, H. proj.
    rewrite bool_decide_is_Some_insert, bool_decide_is_Some_delete.
    now destruct (String.eqb u url).
Qed.

Lemma tracker_round_trip_witness :
  exists w',
    InitiateScrape 2 Examples.flaky Examples.world0 = Done tt w'
    /\ status Examples.flaky Examples.world0 = Some (false, true, false)
    /\ status Examples.flaky w' = Some (false, false, false).
Proof.
  eexists. split; [reflexivity|]. split; [reflexivity|].
  refine (proj1 (tracker_round_trip 2 Examples.flaky
                   (SucceededPage.mk Examples.flaky [] [] "" 0 0 [] [])
                   (FailedPage.mk Examples.flaky "" 0)
                   Examples.world0 _ Examples.flaky false true false eq_refl)
                eq_refl).
Defined.

Lemma counts_eq (w : World) :
  counts w = Some (Z.of_nat (size (Succeed (scrapper w))),
                   Z.of_nat (size (Failed (scrapper w))),
                   Z.of_nat (size (InProcess (scrapper w)))).
Proof. reflexivity. Qed.

Lemma size_insert_Z {A} (m : gmap string A) (k : string) (x : A) :
  Z.of_nat (size (<[k := x]> m))
  = if bool_decide (is_Some (m !! k)) then Z.of_nat (size m)
    else (Z.of_nat (size m) + 1)%Z.
Proof.
  rewrite map_size_insert. destruct (m !! k) eqn:L.
  - rewrite bool_decide_eq_true_2 by eauto. reflexivity.
  - rewrite bool_decide_eq_false_2 by (intros [? ?]; discriminate).
    unfold id. lia.
Qed.

Lemma size_delete_Z {A} (m : gmap string A) (k : string) :
  Z.of_nat (size (delete k m))
  = if bool_decide (is_Some (m !! k)) then (Z.of_nat (size m) - 1)%Z
    else Z.of_nat (size m).
Proof.
  rewrite map_size_delete. destruct (m !! k) eqn:L.
  - rewrite bool_decide_eq_true_2 by eauto.
    assert (size m <> 0%nat).
    { intros Z0. apply map_size_empty_inv in Z0. subst m.
      rewrite lookup_empty in L. discriminate. }
    lia.
  - rewrite bool_decide_eq_false_2 by (intros [? ?]; discriminate). reflexivity.
Qed.

(** X13. The three counters of the tracker after each of its
    three updates: a counter goes up by one exactly when the URL enters a
    collection it was not in, the in-flight counter goes down by one
    exactly when a commit removes a marker that was there, and nothing else
    changes. *)
Theorem tracker_counts (gid : Z) (url : string) (page : SucceededPage.t)
        (fp : FailedPage.t) (w w' : World) (visited free failed : bool)
        (ns nf np : Z) :
  status url w = Some (visited, free, failed) ->
  counts w = Some (ns, nf, np) ->
  (InitiateScrape gid url w = Done tt w' ->
   counts w' = Some (ns, nf, if free then np + 1 else np)%Z)
  /\ (ScrapeSucceed url page w = Done tt w' ->
      counts w' = Some (if visited then ns else ns + 1, nf,
                        if free then np else np - 1)%Z)
  /\ (ScrapeFailed url fp w = Done tt w' ->
      counts w' = Some (ns, if failed then nf else nf + 1,
                        if free then np else np - 1)%Z).
Proof.
  rewrite status_eq, counts_eq. intros [= <- <- <-] [= <- <- <-].
  split; [|split]; intros H.
  - apply InitiateScrape_Done in H. rewrite counts_eq, H. proj.
    rewrite size_insert_Z.
    now destruct (bool_decide (is_Some (InProcess (scrapper w) !! url))).
  - apply ScrapeSucceed_Done in H. rewrite counts_eq, H. proj.
    rewrite size_insert_Z, size_delete_Z.
    now destruct (bool_decide (is_Some (InProcess (scrapper w) !! url))).
  - apply ScrapeFailed_Done in H. rewrite counts_eq, H. proj.
    rewrite size_insert_Z, size_delete_Z.
    now destruct (bool_decide (is_Some (InProcess (scrapper w) !! url))).
Qed.

Lemma tracker_counts_witness :
  exists w',
    ScrapeFailed Examples.flaky (FailedPage.mk Examples.flaky "again" 0)
      Examples.after_failure = Done tt w'
    /\ counts Examples.after_failure = Some (0, 1, 0)%Z
    /\ counts w' = Some (0, 1, 0)%Z.
Proof.
  eexists. split; [vm_compute; reflexivity|]. split; [vm_compute; reflexivity|].
  refine (proj2 (proj2 (tracker_counts 2 Examples.flaky
                   (SucceededPage.mk Examples.flaky [] [] "" 0 0 [] [])
                   (FailedPage.mk Examples.flaky "again" 0)
                   Examples.after_failure _ false true true 0 1 0 _ _)) _);
    vm_compute; reflexivity.
Defined.

(** *** Two units at the entry checks *)

Section EntrySteps.
Variable E : Env.

Lemma step_start (gid : Z) (url : string) (w : World) :
  url <> "" -> Succeed (scrapper w) !! url = None ->
  unit_step E (mkUnit gid url PStart) w = Done (mkUnit gid url PCheckProcessed) w.
Proof.
  intros U S. apply String.eqb_neq in U.
  cbv [unit_step u_gid u_url u_pc IsVisited bind ret get_scrapper].
  now rewrite U, S.
Qed.

Lemma step_check (gid : Z) (url : string) (w : World) :
  unit_step E (mkUnit gid url PCheckProcessed) w
  = Done (mkUnit gid url
            (match InProcess (scrapper w) !! url with
             | Some _ => PSend (mkScrapeResult None
                                  (Some "page still being processed"))
             | None => PMark
             end)) w.
Proof.
  cbv [unit_step u_gid u_url u_pc IsProcessed bind ret get_scrapper].
  now destruct (InProcess (scrapper w) !! url).
Qed.

Lemma step_mark (gid : Z) (url : string) (w : World) :
  unit_step E (mkUnit gid url PMark) w
  = Done (mkUnit gid url PHead) (marked w gid url).
Proof. reflexivity. Qed.

Lemma step_head (gid : Z) (url : string) (w : World) :
  http_NewRequest E HEAD url = None ->
  exists p, unit_step E (mkUnit gid url PHead) w
            = Done (mkUnit gid url p) (requested w HEAD url)
            /\ is_late p = true.
Proof.
  intros N.
  cbv [unit_step u_gid u_url u_pc HeadRequest Request Client_Do bind ret].
  rewrite N. cbv beta iota.
  destruct (http_Do E (clock w) HEAD url) as [response|err];
    [|eexists; split; reflexivity].
  destruct (negb (StatusCode response =? 200)%Z);
    [eexists; split; reflexivity|].
  destruct (negb (Contains (ToLower (Header_ContentType response)) "text/html"));
    eexists; split; reflexivity.
Qed.

End EntrySteps.

(** X18. The entry checks and the mark are separate steps.
    When two units for one fresh URL take them in turns, both pass the
    checks and both send a HEAD request for the URL; when each unit takes
    its entry sequence in one piece, the second is turned away with no
    request made. *)
Theorem entry_checks_race (E : Env) (w : World) (gidA gidB : Z) (url : string) :
  url <> "" ->
  Succeed (scrapper w) !! url = None ->
  InProcess (scrapper w) !! url = None ->
  http_NewRequest E HEAD url = None ->
  let pool := [mkUnit gidA url PStart; mkUnit gidB url PStart] in
  (exists w' uA uB,
      pool_run (unit_step E) [0; 1; 0; 1; 0; 1; 0; 1]%nat w pool
      = Some (w', [uA; uB])
      /\ requests (added w w') = [EvDo HEAD url; EvDo HEAD url]
      /\ is_late (u_pc uA) = true /\ is_late (u_pc uB) = true)
  /\ (exists w',
         pool_run (racefree_step E) [0; 1]%nat w pool
         = Some (w', [mkUnit gidA url PHead;
                      mkUnit gidB url
                        (PSend (mkScrapeResult None
                                  (Some "page still being processed")))])
         /\ requests (added w w') = []).
Proof.
  intros U S P N pool. subst pool. split.
  - destruct (step_head E gidA url (marked (marked w gidA url) gidB url) N)
      as (pA & HA & LA).
    destruct (step_head E gidB url
                (requested (marked (marked w gidA url) gidB url) HEAD url) N)
      as (pB & HB & LB).
    eexists _, (mkUnit gidA url pA), (mkUnit gidB url pB).
    split; [|split; [|split; [exact LA|exact LB]]].
    + cbn [pool_run lookup list_lookup insert list_insert].
      rewrite (step_start E gidA url w U S).
      cbn [pool_run lookup list_lookup insert list_insert].
      rewrite (step_start E gidB url w U S).
      cbn [pool_run lookup list_lookup insert list_insert].
      rewrite step_check, P.
      cbn [pool_run lookup list_lookup insert list_insert].
      rewrite step_check, P.
      cbn [pool_run lookup list_lookup insert list_insert].
      rewrite !step_mark, HA, HB. reflexivity.
    + erewrite added_app;
        [|unfold requested, marked; proj; rewrite <- !app_assoc; reflexivity].
      reflexivity.
  - eexists. split.
    + cbn [pool_run lookup list_lookup insert list_insert].
      unfold racefree_step at 1. cbn [u_pc].
      cbv [bind]. rewrite (step_start E gidA url w U S). cbn [u_pc].
      rewrite step_check, P. cbn [u_pc]. rewrite step_mark.
      cbn [pool_run lookup list_lookup insert list_insert].
      unfold racefree_step at 1. cbn [u_pc]. cbv [bind].
      rewrite (step_start E gidB url (marked w gidA url) U S). cbn [u_pc].
      rewrite step_check.
      replace (InProcess (scrapper (marked w gidA url)) !! url)
        with (Some gidA) by (unfold marked; proj; now rewrite lookup_insert_eq).
      cbn [u_pc]. reflexivity.
    + erewrite added_app; [|unfold marked; proj; reflexivity].
      reflexivity.
Qed.

Lemma entry_checks_race_witness :
  exists w',
    pool_run (racefree_step Examples.env_pdf) [0; 1]%nat Examples.world0
      [mkUnit 2 Examples.flaky PStart; mkUnit 3 Examples.flaky PStart]
    = Some (w', [mkUnit 2 Examples.flaky PHead;
                 mkUnit 3 Examples.flaky
                   (PSend (mkScrapeResult None
                             (Some "page still being processed")))])
    /\ requests (added Examples.world0 w') = [].
Proof.
  refine (proj2 (entry_checks_race Examples.env_pdf Examples.world0 2 3
                   Examples.flaky _ eq_refl eq_refl eq_refl)).
  discriminate.
Defined.

(** *** The inverted index *)

Module SearcherFacts.
Import Searcher.

Lemma add_token_posted (url : string) (indexes : gmap string (list string)) (tok t u : string) :
  posted (add_token url indexes tok) t u
  <-> posted indexes t u \/ (t = tok /\ u = url).
Proof.
  unfold posted, add_token.
  destruct (indexes !! tok) as [urls|] eqn:L.
  - destruct (URLExists urls url) eqn:X; cbn [negb].
    + rewrite insert_id by assumption. apply URLExists_In in X.
      split; [auto|]. intros [H|[-> ->]]; eauto.
    + destruct (decide (t = tok)) as [->|N].
      * rewrite lookup_insert_eq, L. split.
        -- intros (l & [= <-] & H). apply in_app_or in H as [H|[<-|[]]]; eauto.
        -- intros [(l & [= <-] & H)|[_ ->]]; eexists; split; eauto;
             apply in_or_app; simpl; auto.
      * rewrite lookup_insert_ne by congruence. split; [auto|].
        intros [H|[-> _]]; [exact H|contradiction].
  - destruct (decide (t = tok)) as [->|N].
    + rewrite lookup_insert_eq, L. split.
      * intros (l & [= <-] & [<-|[]]). auto.
      * intros [(l & [=] & _)|[_ ->]]. exists [url]. split; [reflexivity|now left].
    + rewrite lookup_insert_ne by congruence. split; [auto|].
      intros [H|[-> _]]; [exact H|contradiction].
Qed.

Lemma AddIndex_posted (tokens : list string) (url : string) (indexes : gmap string (list string))
      (t u : string) :
  posted (AddIndex tokens url indexes) t u
  <-> posted indexes t u \/ (In t tokens /\ u = url).
Proof.
  unfold AddIndex. revert indexes.
  induction tokens as [|tok tokens IH]; intros indexes; simpl.
  - tauto.
  - rewrite IH, add_token_posted. intuition (subst; auto).
Qed.

Lemma add_token_distinct (url : string) (indexes : gmap string (list string)) (tok : string) :
  distinct_postings indexes -> distinct_postings (add_token url indexes tok).
Proof.
  unfold distinct_postings, add_token. intros H t l.
  destruct (indexes !! tok) as [urls|] eqn:L.
  - destruct (decide (t = tok)) as [->|N].
    + rewrite lookup_insert_eq. intros [= <-].
      destruct (URLExists urls url) eqn:X; cbn [negb]; [eauto|].
      apply List.NoDup_app; [eauto|repeat constructor; simpl; tauto|].
      intros x Hx [<-|[]]. apply URLExists_In in Hx. congruence.
    + rewrite lookup_insert_ne by congruence. eauto.
  - destruct (decide (t = tok)) as [->|N].
    + rewrite lookup_insert_eq. intros [= <-]. repeat constructor. simpl. tauto.
    + rewrite lookup_insert_ne by congruence. eauto.
Qed.

Lemma AddIndex_distinct (tokens : list string) (url : string) (indexes : gmap string (list string)) :
  distinct_postings indexes -> distinct_postings (AddIndex tokens url indexes).
Proof.
  unfold AddIndex. revert indexes.
  induction tokens as [|tok tokens IH]; intros indexes H; simpl; [exact H|].
  apply IH. now apply add_token_distinct.
Qed.

Lemma add_token_prefix (url : string) (indexes : gmap string (list string)) (tok t : string)
      (urls : list string) :
  indexes !! t = Some urls ->
  exists more, add_token url indexes tok !! t = Some (urls ++ more).
Proof.
  unfold add_token. intros H.
  destruct (decide (t = tok)) as [->|N].
  - rewrite H. rewrite lookup_insert_eq.
    destruct (negb (URLExists urls url)); [eauto|].
    exists []. now rewrite app_nil_r.
  - exists []. rewrite app_nil_r.
    destruct (indexes !! tok); now rewrite lookup_insert_ne by congruence.
Qed.

Lemma AddIndex_prefix (tokens : list string) (url : string) (indexes : gmap string (list string))
      (t : string) (urls : list string) :
  indexes !! t = Some urls ->
  exists more, AddIndex tokens url indexes !! t = Some (urls ++ more).
Proof.
  unfold AddIndex. revert indexes urls.
  induction tokens as [|tok tokens IH]; intros indexes urls H; simpl.
  - exists []. now rewrite app_nil_r.
  - destruct (add_token_prefix url indexes tok t urls H) as (m1 & H1).
    destruct (IH _ _ H1) as (m2 & H2). exists (m1 ++ m2).
    now rewrite app_assoc.
Qed.

Lemma AddIndex_fixed (tokens : list string) (url : string) (indexes : gmap string (list string)) :
  (forall t, In t tokens -> posted indexes t url) ->
  AddIndex tokens url indexes = indexes.
Proof.
  unfold AddIndex. induction tokens as [|tok tokens IH]; intros H; simpl;
    [reflexivity|].
  assert (Hs : add_token url indexes tok = indexes).
  { destruct (H tok) as (urls & L & Hin); [now left|].
    unfold add_token. rewrite L.
    apply URLExists_In in Hin. rewrite Hin. cbn [negb].
    now apply insert_id. }
  rewrite Hs. apply IH. intros t Ht. apply H. now right.
Qed.

End SearcherFacts.

(** X19. After [AddIndex], a URL is listed under a token
    exactly when it was listed before or the token is one of those added
    and the URL is the one added; the list of every token that was present
    is extended at its end only; an index without repeated URLs stays
    without; and adding the same tokens for the same URL again changes
    nothing. *)
Theorem AddIndex_postings (tokens : list string) (url : string)
        (indexes : gmap string (list string)) :
  let indexes' := Searcher.AddIndex tokens url indexes in
  (forall t u, posted indexes' t u
               <-> posted indexes t u \/ (In t tokens /\ u = url))
  /\ (forall t urls, indexes !! t = Some urls ->
                     exists more, indexes' !! t = Some (urls ++ more))
  /\ (distinct_postings indexes -> distinct_postings indexes')
  /\ Searcher.AddIndex tokens url indexes' = indexes'.
Proof.
  intros indexes'. subst indexes'. split; [|split; [|split]].
  - intros t u. apply SearcherFacts.AddIndex_posted.
  - intros t urls. apply SearcherFacts.AddIndex_prefix.
  - apply SearcherFacts.AddIndex_distinct.
  - apply SearcherFacts.AddIndex_fixed. intros t Ht.
    apply SearcherFacts.AddIndex_posted. auto.
Qed.

Module FrequencyFacts.
Import Searcher.

Lemma int_small (n : Z) : (- 2 ^ 63 <= n < 2 ^ 63)%Z -> int n = n.
Proof. intros H. unfold int. rewrite Z.mod_small; lia. Qed.

Lemma FindMax_range_bounds (l : list (string * Z)) (m0 : Z) :
  let r := fold_left (fun max entry => if (snd entry >? max)%Z then snd entry
                                      else max) l m0 in
  (m0 <= r)%Z
  /\ (forall e, In e l -> (snd e <= r)%Z)
  /\ (r = m0 \/ exists e, In e l /\ snd e = r).
Proof.
  revert m0. induction l as [|e l IH]; intros m0; simpl.
  - split; [lia|]. split; [tauto|auto].
  - destruct (IH (if (snd e >? m0)%Z then snd e else m0)) as (H1 & H2 & H3).
    destruct (Z.gtb_spec (snd e) m0) as [G|G].
    + split; [lia|]. split.
      * intros e' [<-|H]; [exact H1|auto].
      * right. destruct H3 as [->|(e' & He' & <-)]; eauto.
    + split; [exact H1|]. split.
      * intros e' [<-|H]; [lia|auto].
      * destruct H3 as [->|(e' & He' & <-)]; eauto.
Qed.

Lemma FindMax_range_unique (l : list (string * Z)) (m : Z) :
  (0 <= m)%Z ->
  (forall e, In e l -> (snd e <= m)%Z) ->
  (m = 0%Z \/ exists e, In e l /\ snd e = m) ->
  FindMax_range l = m.
Proof.
  intros H0 Hle Hex. unfold FindMax_range.
  destruct (FindMax_range_bounds l 0) as (B0 & Ble & Bex). cbv zeta in *.
  apply Z.le_antisymm.
  - destruct Bex as [->|(e & He & <-)]; auto.
  - destruct Hex as [->|(e & He & <-)]; auto.
Qed.

Lemma FindMax_upper (frequency : gmap string Z) (url : string) (v : Z) :
  frequency !! url = Some v -> (v <= FindMax frequency)%Z.
Proof.
  intros H. unfold FindMax, FindMax_range.
  destruct (FindMax_range_bounds (map_to_list frequency) 0) as (_ & Ble & _).
  apply (Ble (url, v)). apply list_elem_of_In, elem_of_map_to_list. exact H.
Qed.

Lemma count_url_lookup (frequency : gmap string Z) (url u : string) :
  count_url frequency url !! u
  = if decide (u = url)
    then Some (match frequency !! url with
               | Some v => int (v + 1)
               | None => 1%Z
               end)
    else frequency !! u.
Proof.
  unfold count_url. destruct (decide (u = url)) as [->|N];
    destruct (frequency !! url);
    rewrite ?lookup_insert_eq, ?lookup_insert_ne by congruence; reflexivity.
Qed.

Lemma count_urls_counted (urls : list string) :
  forall (frequency : gmap string Z) (g : string -> nat),
    counted frequency g ->
    (forall u, Z.of_nat (g u + occurrences u urls) < 2 ^ 63)%Z ->
    counted (fold_left count_url urls frequency)
            (fun u => (g u + occurrences u urls)%nat).
Proof.
  induction urls as [|url urls IH]; intros frequency g Hc Hb.
  - intros u. unfold occurrences. simpl. rewrite Nat.add_0_r. apply Hc.
  - cbn [fold_left].
    assert (Hc1 : counted (count_url frequency url)
                    (fun u => if decide (u = url) then S (g u) else g u)).
    { intros u. rewrite count_url_lookup.
      destruct (decide (u = url)) as [->|N]; [|apply Hc].
      rewrite (Hc url). destruct (g url) eqn:G; [reflexivity|].
      f_equal. rewrite int_small; [lia|].
      specialize (Hb url). unfold occurrences in Hb. simpl in Hb.
      destruct (string_dec url url); [|contradiction]. lia. }
    specialize (IH _ _ Hc1).
    assert (Hb1 : forall u, (Z.of_nat ((if decide (u = url) then S (g u) else g u)
                                       + occurrences u urls) < 2 ^ 63)%Z).
    { intros u. specialize (Hb u). unfold occurrences in *. simpl in Hb.
      destruct (decide (u = url)) as [->|N];
        destruct (string_dec url _) as [e|e]; try congruence; lia. }
    specialize (IH Hb1). intros u. rewrite (IH u).
    unfold occurrences. simpl.
    destruct (decide (u = url)) as [->|N];
      destruct (string_dec url _) as [e|e]; try congruence;
      now rewrite <- ?plus_n_Sm.
Qed.

Lemma Search_frequency_postings (tokens : list string)
      (indexes : gmap string (list string)) (frequency : gmap string Z) :
  fold_left (count_token indexes) tokens frequency
  = fold_left count_url (postings tokens indexes) frequency.
Proof.
  revert frequency. induction tokens as [|t tokens IH]; intros frequency;
    [reflexivity|].
  cbn [fold_left postings flat_map]. rewrite fold_left_app, IH.
  unfold count_token. now destruct (indexes !! t).
Qed.

Lemma occurrences_le_length (u : string) (urls : list string) :
  (occurrences u urls <= List.length urls)%nat.
Proof. unfold occurrences. apply count_occ_bound. Qed.

Lemma Search_frequency_counted (tokens : list string)
      (indexes : gmap string (list string)) :
  (Z.of_nat (List.length (postings tokens indexes)) < 2 ^ 63)%Z ->
  counted (Search_frequency tokens indexes)
          (fun u => occurrences u (postings tokens indexes)).
Proof.
  intros Hb. unfold Search_frequency. rewrite Search_frequency_postings.
  pose proof (count_urls_counted (postings tokens indexes) ∅ (fun _ => 0%nat))
    as H.
  cbn beta in H. apply H.
  - intros u. apply lookup_empty.
  - intros u. pose proof (occurrences_le_length u (postings tokens indexes)).
    lia.
Qed.

End FrequencyFacts.

(** X20. [FindMax] returns the greatest count of the map,
    and 0 for the empty map, in whatever order the entries are visited. *)
Theorem FindMax_is_maximum (frequency : gmap string Z) :
  (0 <= Searcher.FindMax frequency)%Z
  /\ (forall url v, frequency !! url = Some v -> (v <= Searcher.FindMax frequency)%Z)
  /\ (Searcher.FindMax frequency = 0%Z
      \/ exists url, frequency !! url = Some (Searcher.FindMax frequency))
  /\ (forall visited, visited ≡ₚ map_to_list frequency ->
                      Searcher.FindMax_range visited = Searcher.FindMax frequency).
Proof.
  unfold Searcher.FindMax.
  destruct (FrequencyFacts.FindMax_range_bounds (map_to_list frequency) 0)
    as (B0 & Ble & Bex). cbv zeta in *.
  fold (Searcher.FindMax_range (map_to_list frequency)) in *.
  split; [exact B0|]. split; [|split].
  - intros url v H. apply (Ble (url, v)).
    apply list_elem_of_In, elem_of_map_to_list. exact H.
  - destruct Bex as [->|([url v] & He & <-)]; [now left|right].
    exists url. apply list_elem_of_In, elem_of_map_to_list in He. exact He.
  - intros visited Hp. apply FrequencyFacts.FindMax_range_unique.
    + exact B0.
    + intros e He. apply Ble. eapply Permutation_in; eauto.
    + destruct Bex as [->|(e & He & <-)]; [now left|right].
      exists e. split; [|reflexivity].
      eapply Permutation_in; [symmetry; exact Hp|exact He].
Qed.

(** X21. The frequency map that [Search] builds gives
    each URL the number of times it is listed under the tokens of the
    phrase, a token counted as often as it occurs, and has no entry for a
    URL that is not listed; so every count lies between 1 and the maximum
    that [FindMax] returns, by which [Search] divides. (The counts are
    taken to fit Go's int.) *)
Theorem Search_frequency_counts (tokens : list string)
        (indexes : gmap string (list string)) :
  (Z.of_nat (List.length (postings tokens indexes)) < 2 ^ 63)%Z ->
  let frequency := Searcher.Search_frequency tokens indexes in
  (forall url,
      frequency !! url
      = match occurrences url (postings tokens indexes) with
        | O => None
        | S n => Some (Z.of_nat (S n))
        end)
  /\ (forall url v, frequency !! url = Some v ->
                    (1 <= v <= Searcher.FindMax frequency)%Z).
Proof.
  intros Hb frequency.
  pose proof (FrequencyFacts.Search_frequency_counted tokens indexes Hb) as Hc.
  fold frequency in Hc. split.
  - intros url. rewrite (Hc url).
    now destruct (occurrences url (postings tokens indexes)).
  - intros url v H. split.
    + rewrite (Hc url) in H.
      destruct (occurrences url (postings tokens indexes)); [discriminate|].
      injection H as <-. lia.
    + now apply (FrequencyFacts.FindMax_upper _ url).
Qed.

Lemma Search_frequency_counts_witness :
  Searcher.Search_frequency ["go"; "crawler"; "go"]
    (Searcher.AddIndex ["crawler"] "https://b.test/"
       (Searcher.AddIndex ["go"; "crawler"] "https://a.test/" ∅))
  !! "https://a.test/" = Some 3%Z.
Proof.
  refine (proj1 (Search_frequency_counts ["go"; "crawler"; "go"]
                   (Searcher.AddIndex ["crawler"] "https://b.test/"
                      (Searcher.AddIndex ["go"; "crawler"] "https://a.test/" ∅))
                   _) "https://a.test/").
  vm_compute. reflexivity.
Defined.

Module RankFacts.
Import Searcher FrequencyFacts.

Lemma occurrences_app (u : string) (a b : list string) :
  occurrences u (a ++ b) = (occurrences u a + occurrences u b)%nat.
Proof. unfold occurrences. apply count_occ_app. Qed.

Lemma occurrences_all (url : string) (indexes : gmap string (list string))
      (tokens : list string) :
  distinct_postings indexes ->
  (forall t, In t tokens -> posted indexes t url) ->
  occurrences url (postings tokens indexes) = List.length tokens.
Proof.
  intros Hd. induction tokens as [|t tokens IH]; intros H; [reflexivity|].
  cbn [postings flat_map List.length]. rewrite occurrences_app.
  fold (postings tokens indexes). rewrite IH by (intros; apply H; now right).
  destruct (H t) as (urls & L & Hin); [now left|]. rewrite L.
  cbn [default from_option].
  pose proof (proj1 (NoDup_count_occ string_dec urls) (Hd _ _ L) url) as Hle.
  pose proof (proj1 (count_occ_In string_dec urls url) Hin) as Hge.
  unfold occurrences, id. lia.
Qed.

Lemma occurrences_bound (u : string) (indexes : gmap string (list string))
      (tokens : list string) :
  distinct_postings indexes ->
  (occurrences u (postings tokens indexes) <= List.length tokens)%nat.
Proof.
  intros Hd. induction tokens as [|t tokens IH]; [reflexivity|].
  cbn [postings flat_map List.length]. rewrite occurrences_app.
  fold (postings tokens indexes).
  assert (occurrences u (default [] (indexes !! t)) <= 1)%nat; [|lia].
  destruct (indexes !! t) as [urls|] eqn:L; [|simpl; lia].
  cbn [default from_option]. unfold id.
  apply (proj1 (NoDup_count_occ string_dec urls) (Hd _ _ L) u).
Qed.

End RankFacts.

(** X22. A document is found by its own words:
    after its tokens were added to an index without repeated URLs,
    searching for those tokens counts the document once for every token,
    and no URL has a higher count. *)
Theorem indexed_document_ranks_first (tokens : list string) (url : string)
        (indexes : gmap string (list string)) :
  let indexes' := Searcher.AddIndex tokens url indexes in
  let frequency := Searcher.Search_frequency tokens indexes' in
  distinct_postings indexes ->
  tokens <> [] ->
  (Z.of_nat (List.length (postings tokens indexes')) < 2 ^ 63)%Z ->
  frequency !! url = Some (Z.of_nat (List.length tokens))
  /\ Searcher.FindMax frequency = Z.of_nat (List.length tokens).
Proof.
  intros indexes' frequency Hd Hne Hb.
  pose proof (SearcherFacts.AddIndex_distinct tokens url indexes Hd) as Hd'.
  fold indexes' in Hd'.
  pose proof (FrequencyFacts.Search_frequency_counted tokens indexes' Hb) as Hc.
  fold frequency in Hc.
  assert (Hall : occurrences url (postings tokens indexes') = List.length tokens).
  { apply RankFacts.occurrences_all; [exact Hd'|].
    intros t Ht. apply SearcherFacts.AddIndex_posted. auto. }
  assert (Hu : frequency !! url = Some (Z.of_nat (List.length tokens))).
  { rewrite (Hc url), Hall. destruct tokens; [contradiction|reflexivity]. }
  split; [exact Hu|].
  apply FrequencyFacts.FindMax_range_unique.
  - lia.
  - intros [u v] He. apply list_elem_of_In, elem_of_map_to_list in He.
    rewrite (Hc u) in He. cbn [snd].
    pose proof (RankFacts.occurrences_bound u indexes' tokens Hd').
    destruct (occurrences u (postings tokens indexes')); [discriminate|].
    injection He as <-. lia.
  - right. exists (url, Z.of_nat (List.length tokens)). split; [|reflexivity].
    apply list_elem_of_In, elem_of_map_to_list. exact Hu.
Qed.

Lemma indexed_document_ranks_first_witness :
  Searcher.FindMax
    (Searcher.Search_frequency ["go"; "crawler"]
       (Searcher.AddIndex ["go"; "crawler"] "https://a.test/"
          (Searcher.AddIndex ["crawler"] "https://b.test/" ∅)))
  = 2%Z.
Proof.
  refine (proj2 (indexed_document_ranks_first ["go"; "crawler"] "https://a.test/"
                   (Searcher.AddIndex ["crawler"] "https://b.test/" ∅) _ _ _)).
  - apply SearcherFacts.AddIndex_distinct. intros t urls H.
    rewrite lookup_empty in H. discriminate.
  - discriminate.
  - vm_compute. reflexivity.
Defined.

Module LoadFacts.
Import Searcher.






End LoadFacts.


(** *** Every schedule: seen links, and what a step does to the tracker *)

Lemma seen_link_mono (tr tr' : list Event) (u v : string) :
  (forall e, In e tr -> In e tr') -> seen_link tr u v -> seen_link tr' u v.
Proof. intros H (r & p & Hr & Hp). exists r, p. intuition. Qed.

Lemma reached_mono (tr tr' : list Event) (seed : string) (n : nat) (u : string) :
  (forall e, In e tr -> In e tr') -> reached tr seed n u -> reached tr' seed n u.
Proof.
  intros H. induction 1 as [n|n m u _ IH L]; [constructor|].
  econstructor; [exact IH|]. eapply seen_link_mono; eauto.
Qed.

Lemma reached_le (tr : list Event) (seed : string) (n m : nat) (u : string) :
  (n <= m)%nat -> reached tr seed n u -> reached tr seed m u.
Proof.
  intros L H. revert m L. induction H as [n|n x u _ IH He]; intros m L.
  - constructor.
  - destruct m as [|m]; [lia|]. econstructor; [apply IH; lia|exact He].
Qed.

Lemma reached_app (tr evs : list Event) (seed : string) (n : nat) (u : string) :
  reached tr seed n u -> reached (tr ++ evs) seed n u.
Proof. apply reached_mono. intros e He. apply in_or_app. now left. Qed.

Lemma In_insert {A} (l : list A) (i : nat) (y x : A) :
  In x (<[i := y]> l) -> x = y \/ In x l.
Proof.
  revert i. induction l as [|a l IH]; intros i; [intros []|].
  destruct i as [|i]; simpl.
  - intros [<-|H]; auto.
  - intros [<-|H]; [auto|]. destruct (IH _ H); auto.
Qed.

Lemma In_insert_url (pool : list Task) (i : nat) (t t' : Task) (x : Task) :
  pool !! i = Some t -> u_url (t_unit t') = u_url (t_unit t) ->
  In x pool ->
  exists x', In x' (<[i := t']> pool) /\ u_url (t_unit x') = u_url (t_unit x).
Proof.
  revert i. induction pool as [|a pool IH]; intros i Hi Hu; [intros []|].
  destruct i as [|i]; simpl in *.
  - injection Hi as ->. intros [<-|H]; eauto.
  - intros [<-|H]; [eauto|]. destruct (IH _ Hi Hu H) as (x' & H1 & H2). eauto.
Qed.

Lemma lookup_In {A} (l : list A) (i : nat) (x : A) : l !! i = Some x -> In x l.
Proof.
  revert i. induction l as [|a l IH]; intros i; [discriminate|].
  destruct i as [|i]; simpl; [intros [= <-]; auto|eauto].
Qed.

Lemma move_effect (k : kind) (url : string) (gid : Z) (w w' : World) :
  move k url gid w w' ->
  (exists evs, trace w' = trace w ++ evs)
  /\ (forall x, tracked w' x -> tracked w x \/ x = url).
Proof.
  unfold tracked, succeeded, failed, in_flight. destruct k; cbn [move].
  - intros (S & evs & T & _). rewrite S. split; [eauto|auto].
  - intros (S & F & P & T). rewrite S, F, P. split; [eauto|].
    intros x [H|[H|H]]; auto.
    apply lookup_insert_is_Some' in H as [<-|H]; auto.
  - intros (P & Hc & evs & T & _). rewrite P. split; [eauto|].
    intros x Hx.
    destruct (decide (url = x)) as [<-|N]; [auto|left].
    rewrite lookup_delete_ne in Hx by assumption.
    destruct Hc as [(p & HS & HF)|(fp & HF & HS)]; rewrite HS, HF in Hx;
      rewrite lookup_insert_ne in Hx by assumption; exact Hx.
Qed.

Section StepFacts.
Variable E : Env.

Lemma unit_step_effect (u : Unit) (w : World) (u' : Unit) (w' : World) :
  unit_step E u w = Done u' w' ->
  u_url u' = u_url u
  /\ (exists evs, trace w' = trace w ++ evs)
  /\ (forall x, tracked w' x -> tracked w x \/ x = u_url u).
Proof.
  intros H. pose proof (unit_step_move E _ _ _ _ H) as (U & _ & M).
  split; [exact U|].
  destruct (u_pc u); destruct M as (M & _); eapply move_effect; eauto.
Qed.

Lemma unit_step_own_page (u : Unit) (w : World) (u' : Unit) (w' : World) :
  unit_step E u w = Done u' w' -> own_page u -> own_page u'.
Proof.
  assert (G : match unit_step E u w with
              | Done u' _ => own_page u -> own_page u'
              | Panic => True
              end).
  { destruct u as [gid url p].
    destruct p; cbv [unit_step u_pc u_url u_gid]; unfold_run; split_paths;
      try exact I; unfold own_page; cbn [u_pc u_url u_gid Page]; intros O;
      auto; try discriminate; try (intros ? [= <-]); auto. }
  intros H. now rewrite H in G.
Qed.

End StepFacts.

(** *** Every schedule: the levels of the frames and of their goroutines *)

Section DepthFacts.
Variable E : Env.
Variable c : Collector.
Hypothesis positive_depth : (1 <= Depth c)%Z.

(** The world moves on: events are added, and a URL that enters the
    tracker is the URL of a goroutine. *)
Lemma inv_world (s : Run) (w' : World) :
  depth_inv c s ->
  (exists evs, trace w' = trace (r_world s) ++ evs) ->
  (forall x, tracked w' x ->
             tracked (r_world s) x
             \/ exists t, In t (r_pool s) /\ u_url (t_unit t) = x) ->
  depth_inv c (mkRun w' (r_pool s) (r_stack s) (r_ctl s) (r_chans s)).
Proof.
  intros (IT & IF & IN & IK & IC) (evs & T) K. unfold depth_inv.
  cbn [r_world r_pool r_stack r_ctl r_chans]. rewrite T.
  split; [|split; [|split; [exact IN|split]]].
  - intros t Ht. destruct (IT t Ht) as (H1 & H2 & H3 & H4).
    split; [now apply reached_app|]. split; [exact H2|]. split; [exact H3|].
    intros f Hf Hc. apply reached_app. auto.
  - intros f Hf. destruct (IF f Hf) as (H1 & H2 & H3).
    split; [exact H1|]. split; [exact H2|]. intros u Hu. apply reached_app. auto.
  - intros x Hx. destruct (K x Hx) as [H|H]; auto.
  - destruct (r_ctl s); auto;
      destruct IC as (f & rest & Hs & Hp); exists f, rest; (split; [exact Hs|]);
      intros p Pp; destruct (Hp p Pp) as (H1 & H2);
      (split; [apply in_or_app; now left|now apply reached_app]).
Qed.

Lemma level_le (f : Frame) :
  (1 <= f_depth f)%Z -> (level c f <= Z.to_nat (Depth c - 1))%nat.
Proof. unfold level. lia. Qed.

Lemma NoDup_chan (f : Frame) (rest : list Frame) (f0 : Frame) :
  List.NoDup (map f_chan (f :: rest)) -> In f0 rest -> f_chan f0 <> f_chan f.
Proof.
  intros N H E0. inversion N as [|? ? Hn _]; subst. apply Hn.
  rewrite <- E0. now apply List.in_map.
Qed.

(** A goroutine takes a step of [Scrape]. *)
Lemma inv_goroutine (i : nat) (s s' : Run) :
  depth_inv c s -> goroutine_step E i s = Some s' -> depth_inv c s'.
Proof.
  intros I H. unfold goroutine_step in H.
  destruct (r_pool s !! i) as [t|] eqn:Hi; [|discriminate].
  destruct (blocked (u_pc (t_unit t))); [discriminate|].
  destruct (unit_step E (t_unit t) (r_world s)) as [u' w'|] eqn:Hs;
    [|discriminate].
  injection H as <-.
  pose proof (unit_step_effect E _ _ _ _ Hs) as (U & T & K).
  pose proof (lookup_In _ _ _ Hi) as Ht.
  assert (I1 : depth_inv c (mkRun w' (r_pool s) (r_stack s) (r_ctl s)
                                  (r_chans s))).
  { apply inv_world; [exact I|exact T|]. intros x Hx.
    destruct (K x Hx) as [H | ->]; eauto. }
  destruct I1 as (IT & IF & IN & IK & IC). unfold depth_inv.
  cbn [r_world r_pool r_stack r_ctl r_chans] in *.
  split; [|split; [exact IF|split; [exact IN|split; [|exact IC]]]].
  - intros x Hx. apply In_insert in Hx as [-> | Hx]; [|auto].
    destruct (IT t Ht) as (H1 & H2 & H3 & H4).
    cbn [t_unit t_chan]. rewrite U. split; [exact H1|].
    split; [eapply unit_step_own_page; eauto|]. auto.
  - intros x Hx. destruct (IK x Hx) as (t0 & H0 & <-).
    eapply In_insert_url; eauto.
Qed.

(** A goroutine sends and the loop of the innermost frame receives. *)
Lemma inv_receive (i : nat) (s s' : Run) :
  depth_inv c s -> receive_step i s = Some s' -> depth_inv c s'.
Proof.
  intros I H. unfold receive_step in H.
  destruct (r_ctl s) eqn:Hc; try discriminate.
  destruct (r_stack s) as [|f rest] eqn:Hst; [discriminate|].
  destruct (r_pool s !! i) as [t|] eqn:Hi; [|discriminate].
  destruct (f_todo f) eqn:Htodo; [|discriminate].
  destruct (f_wait f) as [|n] eqn:Hw; [discriminate|].
  destruct (u_pc (t_unit t)) eqn:Hpc; try discriminate.
  destruct (Nat.eqb_spec (t_chan t) (f_chan f)) as [Hch|]; [|discriminate].
  injection H as <-.
  pose proof (lookup_In _ _ _ Hi) as Ht.
  assert (I1 : depth_inv c (mkRun (logged (logged (r_world s) (EvSend r))
                                          (EvRecv r))
                                  (r_pool s) (r_stack s) (r_ctl s) (r_chans s))).
  { apply inv_world; [exact I| |].
    - exists [EvSend r; EvRecv r]. cbn [logged trace].
      now rewrite <- app_assoc.
    - intros x Hx. now left. }
  destruct I1 as (IT & IF & IN & IK & _). unfold depth_inv.
  cbn [r_world r_pool r_stack r_ctl r_chans] in *. rewrite Hst in *.
  assert (Hlev : level c (mkFrame (f_chan f) (f_depth f) [] n) = level c f)
    by reflexivity.
  destruct (IT t Ht) as (T1 & T2 & T3 & T4).
  split; [|split; [|split; [exact IN|split]]].
  - intros x Hx.
    assert (Hx' : exists x0, In x0 (r_pool s)
                             /\ u_url (t_unit x) = u_url (t_unit x0)
                             /\ t_chan x = t_chan x0
                             /\ (own_page (t_unit x0) -> own_page (t_unit x))).
    { apply In_insert in Hx as [-> | Hx]; [|exists x; auto].
      exists t. cbn [t_unit t_chan u_url]. repeat split; auto.
      unfold own_page. cbn [u_pc u_url]. now rewrite Hpc. }
    destruct Hx' as (x0 & H0 & Hu & Hch' & Ho).
    destruct (IT x0 H0) as (H1 & H2 & H3 & H4). rewrite Hu, Hch'.
    split; [exact H1|]. split; [auto|]. split; [exact H3|].
    intros f0 [<- | Hf0] Hf0c.
    + rewrite Hlev. apply H4; [now left|exact Hf0c].
    + apply H4; [now right|exact Hf0c].
  - intros f0 [<- | Hf0].
    + destruct (IF f (or_introl eq_refl)) as (H1 & H2 & _).
      cbn [f_depth f_chan f_todo]. split; [exact H1|]. split; [exact H2|].
      intros u [].
    + apply IF. now right.
  - intros x Hx. destruct (IK x Hx) as (t0 & H0 & <-).
    eapply In_insert_url; eauto.
  - eexists _, _. split; [reflexivity|]. intros p Pp. split.
    + cbn [logged trace]. apply in_or_app. left. apply in_or_app. right.
      now left.
    + rewrite Hlev. unfold own_page in T2. rewrite Hpc in T2.
      rewrite (T2 p Pp). apply T4; [now left|auto].
Qed.

(** The orchestrator takes a step. *)
Lemma inv_orchestrator (s s' : Run) :
  depth_inv c s -> orchestrator_step E c s = Some s' -> depth_inv c s'.
Proof.
  intros I H. unfold orchestrator_step in H.
  destruct (r_ctl s) eqn:Hc.
  - (* CBegin *)
    match type of H with
    | match ?m (r_world s) with _ => _ end = _ =>
        destruct (m (r_world s)) as [a w'|] eqn:Hm; [|discriminate]
    end.
    injection H as <-. bind_inv Hm.
    apply emit_Done in H. apply Log_Done in Hm.
    pose proof (same_tracker_trans _ _ _ _ _ H Hm) as (S & T & _).
    assert (I1 : depth_inv c (mkRun w' (r_pool s) (r_stack s) (r_ctl s)
                                    (r_chans s))).
    { apply inv_world; [exact I|eauto|]. intros x Hx. left.
      unfold tracked, succeeded, failed, in_flight in *. now rewrite <- S. }
    destruct I1 as (IT & _ & _ & IK & _). unfold depth_inv.
    cbn [r_world r_pool r_stack r_ctl r_chans] in *.
    split; [|split; [|split; [|split; [exact IK|exact Logic.I]]]].
    + intros t Ht. destruct (IT t Ht) as (H1 & H2 & H3 & _).
      split; [exact H1|]. split; [exact H2|]. split; [lia|].
      intros f [<-|[]] Hf. cbn [f_chan] in Hf. lia.
    + intros f [<-|[]]. cbn [f_depth f_chan f_todo]. split; [lia|].
      split; [lia|]. intros u [<-|[]]. constructor.
    + repeat constructor. intros [].
  - (* CLoop *)
    destruct (r_stack s) as [|f rest] eqn:Hst; [discriminate|].
    destruct (f_todo f) as [|u todo] eqn:Htodo.
    + destruct (f_wait f) eqn:Hw; [|discriminate].
      destruct rest as [|f1 rest].
      * destruct (finish E c (r_world s)) as [res w'|] eqn:Hf; [|discriminate].
        injection H as <-.
        assert (Q : quiet (finish E c)).
        { unfold finish. apply quiet_bind; [apply quiet_save|intros ?].
          apply quiet_bind; [apply quiet_NumberOfPagesSucceed|intros ?].
          apply quiet_ret. }
        destruct (Q _ _ _ Hf) as (evs & (S & T & _) & _).
        assert (I1 : depth_inv c (mkRun w' (r_pool s) (r_stack s) (r_ctl s)
                                        (r_chans s))).
        { apply inv_world; [exact I|eauto|]. intros x Hx. left.
          unfold tracked, succeeded, failed, in_flight in *. now rewrite <- S. }
        destruct I1 as (IT & _ & _ & IK & _). unfold depth_inv.
        cbn [r_world r_pool r_stack r_ctl r_chans] in *.
        split; [|split; [|split; [constructor|split; [exact IK|exact Logic.I]]]].
        -- intros t Ht. destruct (IT t Ht) as (H1 & H2 & H3 & _).
           repeat split; auto. intros f0 [].
        -- intros f0 [].
      * injection H as <-. destruct I as (IT & IF & IN & IK & _).
        unfold depth_inv. cbn [r_world r_pool r_stack r_ctl r_chans] in *.
        rewrite Hst in *.
        split; [|split; [|split; [|split; [exact IK|exact Logic.I]]]].
        -- intros t Ht. destruct (IT t Ht) as (H1 & H2 & H3 & H4).
           repeat split; auto. intros f0 Hf0. apply H4. now right.
        -- intros f0 Hf0. apply IF. now right.
        -- now inversion IN.
    + destruct (spawn u (r_world s)) as [gid w'|] eqn:Hsp; [|discriminate].
      injection H as <-. apply spawn_Done in Hsp as (S & T & _).
      assert (I1 : depth_inv c (mkRun w' (r_pool s) (r_stack s) (r_ctl s)
                                      (r_chans s))).
      { apply inv_world; [exact I|eauto|]. intros x Hx. left.
        unfold tracked, succeeded, failed, in_flight in *. now rewrite <- S. }
      destruct I1 as (IT & IF & IN & IK & _). unfold depth_inv.
      cbn [r_world r_pool r_stack r_ctl r_chans] in *. rewrite Hst in *.
      destruct (IF f (or_introl eq_refl)) as (F1 & F2 & F3).
      assert (Hlev : level c (mkFrame (f_chan f) (f_depth f) todo (f_wait f))
                     = level c f) by reflexivity.
      split; [|split; [|split; [exact IN|split; [|exact Logic.I]]]].
      * intros t Ht. apply in_app_or in Ht as [Ht|[<-|[]]].
        -- destruct (IT t Ht) as (H1 & H2 & H3 & H4).
           repeat split; auto. intros f0 [<- | Hf0] Hf0c.
           ++ rewrite Hlev. apply H4; [now left|exact Hf0c].
           ++ apply H4; [now right|exact Hf0c].
        -- cbn [t_unit t_chan u_url].
           assert (Hu : reached (trace w') (Seed c) (level c f) u)
             by (apply F3; rewrite Htodo; now left).
           split; [apply (reached_le _ _ (level c f)); [apply level_le; lia|exact Hu]|].
           split; [exact Logic.I|]. split; [exact F2|].
           intros f0 [<- | Hf0] Hf0c; [rewrite Hlev; exact Hu|].
           exfalso. eapply NoDup_chan; eauto.
      * intros f0 [<- | Hf0].
        -- cbn [f_depth f_chan f_todo]. split; [exact F1|]. split; [exact F2|].
           intros v Hv. apply F3. rewrite Htodo. now right.
        -- apply IF. now right.
      * intros x Hx. destruct (IK x Hx) as (t0 & H0 & <-).
        exists t0. split; [apply in_or_app; now left|reflexivity].
  - (* CGot *)
    destruct (log_scrape_error r (r_world s)) as [a w'|] eqn:Hl; [|discriminate].
    injection H as <-. apply log_scrape_error_Done in Hl as (S & T & _).
    assert (I1 : depth_inv c (mkRun w' (r_pool s) (r_stack s) (r_ctl s)
                                    (r_chans s))).
    { apply inv_world; [exact I|eauto|]. intros x Hx. left.
      unfold tracked, succeeded, failed, in_flight in *. now rewrite <- S. }
    destruct I1 as (IT & IF & IN & IK & IC). unfold depth_inv.
    cbn [r_world r_pool r_stack r_ctl r_chans] in *. rewrite Hc in IC.
    split; [exact IT|split; [exact IF|split; [exact IN|split; [exact IK|]]]].
    exact IC.
  - (* CCall *)
    destruct I as (IT & IF & IN & IK & IC). rewrite Hc in IC.
    destruct IC as (f & rest & Hst & Hp). rewrite Hst in H.
    destruct (Page r) as [page|] eqn:Pr.
    + destruct (Z.leb_spec (f_depth f - 1) 0) as [Hd|Hd].
      * injection H as <-. unfold depth_inv.
        cbn [r_world r_pool r_stack r_ctl r_chans]. rewrite <- Hst.
        split; [exact IT|split; [exact IF|split; [exact IN|split; [exact IK|]]]].
        exact Logic.I.
      * injection H as <-. unfold depth_inv.
        cbn [r_world r_pool r_stack r_ctl r_chans].
        destruct (Hp page eq_refl) as (Hsend & Hreach).
        rewrite Hst in *.
        destruct (IF f (or_introl eq_refl)) as (F1 & F2 & F3).
        split; [|split; [|split; [|split; [exact IK|exact Logic.I]]]].
        -- intros t Ht. destruct (IT t Ht) as (H1 & H2 & H3 & H4).
           split; [exact H1|]. split; [exact H2|]. split; [lia|].
           intros f0 [<- | Hf0] Hf0c; [cbn [f_chan] in Hf0c; lia|].
           apply H4; auto.
        -- intros f0 [<- | Hf0].
           ++ cbn [f_depth f_chan f_todo]. split; [lia|]. split; [lia|].
              intros v Hv.
              replace (level c (mkFrame (r_chans s) (f_depth f - 1)
                                  (SucceededPage.Urls page)
                                  (List.length (SucceededPage.Urls page))))
                with (S (level c f)) by (unfold level; cbn [f_depth]; lia).
              econstructor; [exact Hreach|]. exists r, page. auto.
           ++ destruct (IF f0 Hf0) as (G1 & G2 & G3). repeat split; auto; lia.
        -- cbn [map]. constructor; [|exact IN]. cbn [f_chan].
           intros Hin. change (In (r_chans s) (map f_chan (f :: rest))) in Hin.
           apply List.in_map_iff in Hin as (f0 & Hf0c & Hf0).
           destruct (IF f0 Hf0) as (_ & G2 & _). lia.
    + injection H as <-. unfold depth_inv.
      cbn [r_world r_pool r_stack r_ctl r_chans]. rewrite <- Hst.
      split; [exact IT|split; [exact IF|split; [exact IN|split; [exact IK|]]]].
      exact Logic.I.
  - discriminate.
Qed.

Lemma inv_step (ch : Choice) (s s' : Run) :
  depth_inv c s -> crawl_step E c ch s = Some s' -> depth_inv c s'.
Proof.
  destruct ch; cbn [crawl_step];
    eauto using inv_orchestrator, inv_goroutine, inv_receive.
Qed.

Lemma inv_start (w0 : World) :
  scrapper w0 = NewScrapper -> depth_inv c (start w0).
Proof.
  intros S0. unfold depth_inv, start.
  cbn [r_world r_pool r_stack r_ctl r_chans].
  split; [intros t []|]. split; [intros f []|]. split; [constructor|].
  split; [|exact Logic.I].
  intros x. unfold tracked, succeeded, failed, in_flight. rewrite S0.
  cbn [NewScrapper Succeed Failed InProcess]. rewrite !lookup_empty.
  intros [[? ?]|[[? ?]|[? ?]]]; discriminate.
Qed.

Lemma crawling_inv (w0 : World) (s : Run) :
  scrapper w0 = NewScrapper -> crawling E c w0 s -> depth_inv c s.
Proof.
  intros S0. induction 1 as [|s ch s' _ IH Hs].
  - now apply inv_start.
  - eapply inv_step; eauto.
Qed.

End DepthFacts.

(** *** Every schedule: the frames, one inside the other *)

Lemma nested_top (d : Z) (f f' : Frame) (rest : list Frame) :
  f_depth f' = f_depth f -> nested d (f :: rest) -> nested d (f' :: rest).
Proof.
  intros Hd H. inversion H; subst; constructor; auto; congruence.
Qed.

Lemma nested_pop (d : Z) (f : Frame) (rest : list Frame) :
  nested d (f :: rest) -> nested d rest.
Proof. intros H. inversion H; subst; [constructor|assumption]. Qed.

Section NestedFacts.
Variable E : Env.
Variable c : Collector.

Lemma nested_step (ch : Choice) (s s' : Run) :
  nested (Depth c) (r_stack s) -> crawl_step E c ch s = Some s' ->
  nested (Depth c) (r_stack s').
Proof.
  intros N H. destruct ch; cbn [crawl_step] in H.
  - unfold orchestrator_step in H. destruct (r_ctl s).
    + match type of H with
      | match ?m with _ => _ end = _ => destruct m; [|discriminate]
      end.
      injection H as <-. now constructor.
    + destruct (r_stack s) as [|f rest]; [discriminate|].
      destruct (f_todo f).
      * destruct (f_wait f); [|discriminate]. destruct rest.
        -- destruct (finish E c (r_world s)); [|discriminate].
           injection H as <-. constructor.
        -- injection H as <-. eapply nested_pop; eauto.
      * destruct (spawn s0 (r_world s)); [|discriminate].
        injection H as <-. eapply nested_top; [|exact N]. reflexivity.
    + destruct (log_scrape_error r (r_world s)); [|discriminate].
      now injection H as <-.
    + destruct (r_stack s) as [|f rest] eqn:Hst; [discriminate|].
      destruct (Page r); [|now injection H as <-].
      destruct (f_depth f - 1 <=? 0)%Z; injection H as <-; [exact N|].
      now constructor.
    + discriminate.
  - unfold goroutine_step in H. destruct (r_pool s !! i); [|discriminate].
    destruct (blocked _); [discriminate|].
    destruct (unit_step E _ _); [|discriminate]. now injection H as <-.
  - unfold receive_step in H. destruct (r_ctl s); try discriminate.
    destruct (r_stack s) as [|f rest]; [discriminate|].
    destruct (r_pool s !! i); [|discriminate].
    destruct (f_todo f); [|discriminate].
    destruct (f_wait f); [discriminate|].
    destruct (u_pc _); try discriminate.
    destruct (Nat.eqb _ _); [|discriminate]. injection H as <-.
    eapply nested_top; [|exact N]. reflexivity.
Qed.

Lemma crawling_nested (w0 : World) (s : Run) :
  crawling E c w0 s -> nested (Depth c) (r_stack s).
Proof.
  induction 1 as [|s ch s' _ IH Hs]; [constructor|].
  eapply nested_step; eauto.
Qed.

Lemma crun_crawling (w0 : World) (sched : list Choice) :
  forall s s', crawling E c w0 s -> crun E c sched s = Some s' ->
               crawling E c w0 s'.
Proof.
  induction sched as [|ch sched IH]; intros s s' R H.
  - now injection H as <-.
  - cbn [crun] in H. destruct (crawl_step E c ch s) as [s1|] eqn:Hs;
      [|discriminate].
    eapply IH; [|exact H]. econstructor; eauto.
Qed.

Lemma drive_crawling (w0 : World) (pick : nat -> nat) (fuel : nat) :
  forall n s, crawling E c w0 s -> crawling E c w0 (drive E c pick n fuel s).
Proof.
  induction fuel as [|fuel IH]; intros n s R; [exact R|].
  cbn [drive]. destruct (enabled E c s) as [|ch0 chs]; [exact R|].
  destruct (crawl_step E c _ s) as [s1|] eqn:Hs; [|exact R].
  apply IH. econstructor; eauto.
Qed.

End NestedFacts.

(** *** Every schedule: requests, commits and results, counted *)

Lemma summed_app (f : pc -> nat) (a b : list Task) :
  summed f (a ++ b) = (summed f a + summed f b)%nat.
Proof. unfold summed. now rewrite map_app, list_sum_app. Qed.

Lemma summed_insert (f : pc -> nat) (pool : list Task) (i : nat) (t t' : Task) :
  pool !! i = Some t ->
  (summed f (<[i := t']> pool) + f (u_pc (t_unit t))
   = summed f pool + f (u_pc (t_unit t')))%nat.
Proof.
  revert i. induction pool as [|a pool IH]; intros i; [discriminate|].
  destruct i as [|i].
  - intros [= ->]. unfold summed. simpl. lia.
  - intros H. specialize (IH _ H). unfold summed in *. simpl. lia.
Qed.

Lemma summed_le (f : pc -> nat) (k : nat) (pool : list Task) :
  (forall p, f p <= k)%nat -> (summed f pool <= k * List.length pool)%nat.
Proof.
  intros H. unfold summed. induction pool as [|t pool IH]; simpl; [lia|].
  specialize (H (u_pc (t_unit t))). lia.
Qed.

Section BudgetFacts.
Variable E : Env.
Variable c : Collector.

Lemma unit_step_counts (u : Unit) (w : World) :
  blocked (u_pc u) = false ->
  match unit_step E u w with
  | Panic => True
  | Done u' w' =>
      exists evs,
        trace w' = trace w ++ evs
        /\ (count is_request evs + spent (u_pc u) <= spent (u_pc u'))%nat
        /\ (count is_commit evs + committed (u_pc u) <= committed (u_pc u'))%nat
        /\ count is_go evs = 0%nat /\ count is_send evs = 0%nat
        /\ count is_recv evs = 0%nat /\ count is_write evs = 0%nat
        /\ is_done (u_pc u') = false /\ is_done (u_pc u) = false
  end.
Proof.
  destruct u as [gid url p]. cbn [u_pc].
  destruct p; cbn [blocked]; try discriminate; intros _;
    cbv [unit_step u_pc u_url u_gid]; unfold_run; split_paths;
    try exact I;
    first [ exists []; split; [now rewrite app_nil_r|]
          | eexists; split; [rewrite <- ?app_assoc; reflexivity|] ];
    cbn; repeat split; lia.
Qed.

(** [SaveResultsToFile]: what is written, and what is returned. *)
Lemma SaveResultsToFile_Done (w : World) (y : bool * option error)
      (w' : World) :
  SaveResultsToFile E c w = Done y w' ->
  scrapper w' = scrapper w
  /\ match json_MarshalIndent E, ioutil_WriteFile E (FileName c) with
     | None, None =>
         y = (true, None)
         /\ trace w' = trace w ++ [EvWriteFile (FileName c) (result_data c w)]
     | Some err, _ | None, Some err =>
         y = (false, Some err) /\ trace w' = trace w
     end.
Proof.
  unfold SaveResultsToFile, NumberOfPagesSucceed, NumberOfPagesFailed,
    bind, ret, get_scrapper, emit, Log. proj.
  destruct (loggers w); [|discriminate]. proj.
  destruct (json_MarshalIndent E) as [err|]; proj.
  - intros H. injection H as <- <-. auto.
  - destruct (ioutil_WriteFile E (FileName c)) as [err|]; proj.
    + intros H. injection H as <- <-. auto.
    + intros H. injection H as <- <-. auto.
Qed.

Lemma finish_Done (w : World) (x : Z * option error) (w' : World) :
  finish E c w = Done x w' ->
  scrapper w' = scrapper w
  /\ x = (Z.of_nat (size (Succeed (scrapper w))), None)
  /\ trace w' = trace w ++ (if saves E c
                            then [EvWriteFile (FileName c) (result_data c w)]
                            else []).
Proof.
  unfold finish, saves. intros H. bind_inv H. bind_inv H.
  injection H as <- <-.
  unfold NumberOfPagesSucceed, bind, ret, get_scrapper in H1.
  injection H1 as <- <-.
  destruct (SaveToFile c).
  - bind_inv H0. injection H0 as _ <-.
    apply SaveResultsToFile_Done in H as (S & H). rewrite S.
    destruct (json_MarshalIndent E);
      [|destruct (ioutil_WriteFile E (FileName c))];
      destruct H as (_ & T); rewrite T, ?app_nil_r; auto.
  - injection H0 as _ <-. rewrite app_nil_r. auto.
Qed.

Lemma budget_step (ch : Choice) (s s' : Run) :
  budget_inv E c s -> crawl_step E c ch s = Some s' -> budget_inv E c s'.
Proof.
  intros (Bg & Bq & Bc & Bs & Br & Bw) H. unfold budget_inv.
  destruct ch; cbn [crawl_step] in H.
  - unfold orchestrator_step in H. destruct (r_ctl s) eqn:Hc.
    + match type of H with
      | match ?m (r_world s) with _ => _ end = _ =>
          destruct (m (r_world s)) as [a w'|] eqn:Hm; [|discriminate]
      end.
      injection H as <-. bind_inv Hm.
      apply emit_Done in H as (_ & T1 & _). apply Log_Done in Hm as (_ & T2 & _).
      cbn [r_world r_pool r_ctl]. rewrite T2, T1, app_nil_r, !count_app.
      cbn. repeat split; lia.
    + destruct (r_stack s) as [|f rest]; [discriminate|].
      destruct (f_todo f) as [|u todo].
      * destruct (f_wait f); [|discriminate]. destruct rest.
        -- destruct (finish E c (r_world s)) as [res w'|] eqn:Hf; [|discriminate].
           injection H as <-. apply finish_Done in Hf as (_ & _ & T).
           cbn [r_world r_pool r_ctl]. rewrite T, !count_app.
           destruct (saves E c); cbn; repeat split; lia.
        -- injection H as <-. cbn [r_world r_pool r_ctl]. repeat split; auto.
      * destruct (spawn u (r_world s)) as [gid w'|] eqn:Hsp; [|discriminate].
        injection H as <-. apply spawn_Done in Hsp as (_ & T & _).
        cbn [r_world r_pool r_ctl]. rewrite T, !count_app, !summed_app, length_app.
        cbn. repeat split; lia.
    + destruct (log_scrape_error r (r_world s)) as [a w'|] eqn:Hl; [|discriminate].
      injection H as <-. apply log_scrape_error_Done in Hl as (_ & T & _).
      cbn [r_world r_pool r_ctl]. rewrite T, app_nil_r. repeat split; auto.
    + destruct (r_stack s) as [|f rest]; [discriminate|].
      destruct (Page r); [destruct (f_depth f - 1 <=? 0)%Z|];
        injection H as <-; cbn [r_world r_pool r_ctl]; repeat split; auto.
    + discriminate.
  - unfold goroutine_step in H.
    destruct (r_pool s !! i) as [t|] eqn:Hi; [|discriminate].
    destruct (blocked (u_pc (t_unit t))) eqn:Hb; [discriminate|].
    pose proof (unit_step_counts (t_unit t) (r_world s) Hb) as Hu.
    destruct (unit_step E (t_unit t) (r_world s)) as [u' w'|]; [|discriminate].
    injection H as <-.
    destruct Hu as (evs & T & Rq & Rc & Rg & Rs & Rr & Rw & Hd' & Hd).
    cbn [r_world r_pool r_ctl]. rewrite T, !count_app.
    pose proof (summed_insert spent _ _ _ (mkTask u' (t_chan t)) Hi) as Ts.
    pose proof (summed_insert committed _ _ _ (mkTask u' (t_chan t)) Hi) as Tc.
    pose proof (summed_insert returned _ _ _ (mkTask u' (t_chan t)) Hi) as Td.
    cbn [t_unit] in *. unfold returned in Td at 2 4. rewrite Hd, Hd' in Td.
    rewrite length_insert.
    repeat split; lia.
  - unfold receive_step in H. destruct (r_ctl s) eqn:Hc; try discriminate.
    destruct (r_stack s) as [|f rest]; [discriminate|].
    destruct (r_pool s !! i) as [t|] eqn:Hi; [|discriminate].
    destruct (f_todo f); [|discriminate].
    destruct (f_wait f); [discriminate|].
    destruct (u_pc (t_unit t)) eqn:Hpc; try discriminate.
    destruct (Nat.eqb _ _); [|discriminate]. injection H as <-.
    cbn [r_world r_pool r_ctl logged trace]. rewrite !count_app.
    set (t' := mkTask (mkUnit (u_gid (t_unit t)) (u_url (t_unit t)) (PDone r))
                      (t_chan t)).
    pose proof (summed_insert spent _ _ _ t' Hi) as Ts.
    pose proof (summed_insert committed _ _ _ t' Hi) as Tc.
    pose proof (summed_insert returned _ _ _ t' Hi) as Td.
    cbn [t' t_unit u_pc] in *. rewrite Hpc in *.
    cbn in Ts, Tc, Td. rewrite length_insert. cbn.
    repeat split; lia.
Qed.

Lemma budget_start (w0 : World) : initial w0 -> budget_inv E c (start w0).
Proof.
  intros (_ & T). unfold budget_inv, start. cbn [r_world r_pool r_ctl].
  assert (Z : forall p, (forall m, p (EvPrint m) = false) ->
                        count p (trace w0) = 0%nat).
  { intros p Hp. unfold count. induction T as [|e tr (m & ->) _ IH]; [reflexivity|].
    simpl. now rewrite Hp. }
  rewrite !Z by reflexivity. cbn. repeat split; lia.
Qed.

Lemma crawling_budget (w0 : World) (s : Run) :
  initial w0 -> crawling E c w0 s -> budget_inv E c s.
Proof.
  intros I0. induction 1 as [|s ch s' _ IH Hs].
  - now apply budget_start.
  - eapply budget_step; eauto.
Qed.

End BudgetFacts.

(** *** Every schedule: what the frames wait for *)

Lemma live_app (ch : nat) (a b : list Task) :
  live ch (a ++ b) = (live ch a + live ch b)%nat.
Proof. unfold live. now rewrite List.filter_app, length_app. Qed.

Lemma live_insert (ch : nat) (pool : list Task) (i : nat) (t t' : Task) :
  pool !! i = Some t ->
  (live ch (<[i := t']> pool) + live ch [t] = live ch pool + live ch [t'])%nat.
Proof.
  revert i. induction pool as [|a pool IH]; intros i; [discriminate|].
  destruct i as [|i].
  - intros [= ->]. unfold live. simpl.
    destruct (_ && _), (_ && _); simpl; lia.
  - intros H. specialize (IH _ H). unfold live in *. simpl in *.
    destruct (Nat.eqb (t_chan a) ch && negb (is_done (u_pc (t_unit a))));
      simpl; lia.
Qed.

Lemma live_zero (ch : nat) (pool : list Task) (t : Task) :
  live ch pool = 0%nat -> In t pool -> t_chan t = ch ->
  is_done (u_pc (t_unit t)) = true.
Proof.
  unfold live. induction pool as [|a pool IH]; [intros _ []|].
  simpl. intros H [-> | Ht] Hc.
  - rewrite Hc, Nat.eqb_refl in H. simpl in H.
    destruct (is_done (u_pc (t_unit t))); [reflexivity|discriminate].
  - destruct (_ && _); [discriminate|auto].
Qed.

Lemma live_fresh (ch : nat) (pool : list Task) :
  (forall t, In t pool -> t_chan t < ch)%nat -> live ch pool = 0%nat.
Proof.
  unfold live. induction pool as [|a pool IH]; [reflexivity|].
  intros H. simpl.
  destruct (Nat.eqb_spec (t_chan a) ch) as [Heq|Hne].
  - specialize (H a (or_introl eq_refl)). lia.
  - simpl. apply IH. intros t Ht. apply H. now right.
Qed.

Lemma In_insert_other {A} (l : list A) (i : nat) (t t' x : A) :
  l !! i = Some t -> In x l -> x = t \/ In x (<[i := t']> l).
Proof.
  revert i. induction l as [|a l IH]; intros i; [discriminate|].
  destruct i as [|i]; simpl.
  - intros [= ->] [->|H]; auto.
  - intros Hi [->|H]; [auto|]. destruct (IH _ Hi H); auto.
Qed.

Lemma In_insert_self {A} (l : list A) (i : nat) (t t' : A) :
  l !! i = Some t -> In t' (<[i := t']> l).
Proof.
  revert i. induction l as [|a l IH]; intros i; [discriminate|].
  destruct i as [|i]; simpl; [auto|]. intros H. right. eauto.
Qed.

Lemma covered_same (w w' : World) (evs : list Event) :
  scrapper w' = scrapper w -> trace w' = trace w ++ evs -> no_initiate evs ->
  covered w -> covered w'.
Proof.
  intros S T N C. apply (move_covered KSame "" 0 w w'); [|exact C].
  split; [exact S|]. eauto.
Qed.

Section JoinFacts.
Variable E : Env.
Variable c : Collector.

Lemma unit_step_mid (u : Unit) (w : World) :
  blocked (u_pc u) = false ->
  match unit_step E u w with
  | Panic => True
  | Done u' w' =>
      (forall x, in_flight w' x ->
                 in_flight w x \/ (x = u_url u /\ mid (u_pc u') = true))
      /\ (mid (u_pc u) = true ->
          mid (u_pc u') = true \/ ~ in_flight w' (u_url u))
  end.
Proof.
  destruct u as [gid url p]. cbn [u_pc u_url].
  destruct p; cbn [blocked]; try discriminate; intros _;
    cbv [unit_step u_pc u_url u_gid]; unfold_run; split_paths;
    try exact I; unfold in_flight; proj; cbn [mid];
    (split; [intros x Hx|intros Hm; try discriminate Hm]);
    try solve [left; exact Hx]; try solve [left; reflexivity].
  all: try solve [destruct (decide (url = x)) as [<- | Hne];
                  [right; auto
                  |left; rewrite lookup_insert_ne in Hx by assumption; auto]].
  all: try solve [destruct (decide (url = x)) as [<- | Hne];
                  [rewrite lookup_delete_eq in Hx; destruct Hx; discriminate
                  |left; rewrite lookup_delete_ne in Hx by assumption;
                   exact Hx]].
  all: try solve [right; rewrite lookup_delete_eq; intros [? ?]; discriminate].
Qed.

Lemma live_one (ch : nat) (t : Task) :
  live ch [t] = if Nat.eqb (t_chan t) ch && negb (is_done (u_pc (t_unit t)))
                then 1%nat else 0%nat.
Proof. unfold live. simpl. now destruct (_ && _). Qed.

Lemma tracked_same (w w' : World) (u : string) :
  scrapper w' = scrapper w -> in_flight w' u -> in_flight w u.
Proof. unfold in_flight. now intros ->. Qed.

Lemma result_data_same (w w' : World) :
  scrapper w' = scrapper w -> result_data c w' = result_data c w.
Proof. unfold result_data. now intros ->. Qed.

Lemma join_orchestrator (s s' : Run) :
  depth_inv c s -> join_inv E c s -> orchestrator_step E c s = Some s' ->
  join_inv E c s'.
Proof.
  intros (DT & DF & DN & _ & _) (JW & JT & JM & JC & JE) H.
  unfold orchestrator_step in H. unfold join_inv.
  destruct (r_ctl s) eqn:Hc.
  - (* CBegin *)
    match type of H with
    | match ?m (r_world s) with _ => _ end = _ =>
        destruct (m (r_world s)) as [a w'|] eqn:Hm; [|discriminate]
    end.
    injection H as <-. bind_inv Hm.
    apply emit_Done in H. apply Log_Done in Hm.
    pose proof (same_tracker_trans _ _ _ _ _ H Hm) as (S & T & _).
    cbn [r_world r_pool r_stack r_ctl]. rewrite JE in *.
    split; [|split; [|split; [|split]]].
    + intros f [<-|[]]. reflexivity.
    + intros t [].
    + intros u Hu. apply (tracked_same _ _ _ S) in Hu.
      destruct (JM u Hu) as (t & [] & _).
    + eapply covered_same; [exact S|exact T| |exact JC].
      intros u [Hu|[]]. discriminate.
    + exact Logic.I.
  - (* CLoop *)
    destruct (r_stack s) as [|f rest] eqn:Hst; [discriminate|].
    destruct (f_todo f) as [|u todo] eqn:Htodo.
    + destruct (f_wait f) eqn:Hw; [|discriminate].
      assert (Hlive : live (f_chan f) (r_pool s) = 0%nat).
      { pose proof (JW f (or_introl eq_refl)) as W0.
        rewrite Hw, Htodo in W0. simpl in W0. lia. }
      assert (Hdone : forall t, In t (r_pool s) ->
                is_done (u_pc (t_unit t)) = true
                \/ exists f0, In f0 rest /\ f_chan f0 = t_chan t).
      { intros t Ht. destruct (JT t Ht) as [Hd|(f0 & [<-|Hf0] & Hch)]; eauto.
        left. eapply live_zero; eauto. }
      destruct rest as [|f1 rest].
      * destruct (finish E c (r_world s)) as [res w'|] eqn:Hf; [|discriminate].
        injection H as <-. apply (finish_Done E c) in Hf as (S & Hx & T).
        cbn [r_world r_pool r_stack r_ctl].
        split; [intros f0 []|]. split; [|split; [|split; [|split; [|split]]]].
        -- intros t Ht. destruct (Hdone t Ht) as [Hd|(f0 & [] & _)]. now left.
        -- intros x Hx0. apply (tracked_same _ _ _ S) in Hx0. auto.
        -- eapply covered_same; [exact S|exact T| |exact JC].
           intros x Hx0. destruct (saves E c); [|destruct Hx0].
           destruct Hx0 as [Hx0|[]]. discriminate.
        -- reflexivity.
        -- now rewrite S.
        -- intros Hs. rewrite Hs in T. rewrite (result_data_same _ _ S). eauto.
      * injection H as <-. cbn [r_world r_pool r_stack r_ctl].
        split; [|split; [exact Hdone|split; [exact JM|split; [exact JC|]]]].
        -- intros f0 Hf0. apply JW. now right.
        -- exact Logic.I.
    + destruct (spawn u (r_world s)) as [gid w'|] eqn:Hsp; [|discriminate].
      injection H as <-. apply spawn_Done in Hsp as (S & T & _).
      cbn [r_world r_pool r_stack r_ctl].
      split; [|split; [|split; [|split]]].
      * intros f0 [<-|Hf0].
        -- cbn [f_wait f_todo f_chan]. rewrite (JW f (or_introl eq_refl)).
           rewrite Htodo, live_app, live_one. cbn [t_chan t_unit u_pc is_done].
           rewrite Nat.eqb_refl. simpl. lia.
        -- rewrite (JW f0 (or_intror Hf0)), live_app, live_one.
           cbn [t_chan t_unit u_pc is_done].
           destruct (Nat.eqb_spec (f_chan f) (f_chan f0)) as [Heq|Hne];
             [|simpl; lia].
           exfalso. eapply (NoDup_chan f rest f0); eauto.
      * intros t Ht. apply in_app_or in Ht as [Ht|[<-|[]]].
        -- destruct (JT t Ht) as [Hd|(f0 & [<-|Hf0] & Hch)]; [now left|right..].
           ++ eexists. split; [now left|exact Hch].
           ++ exists f0. split; [now right|exact Hch].
        -- right. eexists. split; [now left|reflexivity].
      * intros x Hx. apply (tracked_same _ _ _ S) in Hx.
        destruct (JM x Hx) as (t & Ht & Hu). exists t.
        split; [apply in_or_app; now left|exact Hu].
      * eapply covered_same; [exact S|exact T| |exact JC].
        intros x [Hx|[]]. discriminate.
      * exact Logic.I.
  - (* CGot *)
    destruct (log_scrape_error r (r_world s)) as [a w'|] eqn:Hl; [|discriminate].
    injection H as <-. apply log_scrape_error_Done in Hl as (S & T & _).
    cbn [r_world r_pool r_stack r_ctl].
    split; [exact JW|]. split; [exact JT|]. split; [|split].
    + intros x Hx. apply (tracked_same _ _ _ S) in Hx. auto.
    + eapply covered_same; [exact S|exact T| |exact JC]. intros x [].
    + exact Logic.I.
  - (* CCall *)
    destruct (r_stack s) as [|f rest] eqn:Hst; [discriminate|].
    destruct (Page r) as [page|].
    + destruct (f_depth f - 1 <=? 0)%Z.
      * injection H as <-. cbn [r_world r_pool r_stack r_ctl].
        repeat split; auto.
      * injection H as <-. cbn [r_world r_pool r_stack r_ctl].
        split; [|split; [|split; [exact JM|split; [exact JC|exact Logic.I]]]].
        -- intros f0 [<-|Hf0]; [|now apply JW].
           cbn [f_wait f_todo f_chan]. rewrite live_fresh; [lia|].
           intros t Ht. now destruct (DT t Ht) as (_ & _ & Hlt & _).
        -- intros t Ht. destruct (JT t Ht) as [Hd|(f0 & Hf0 & Hch)]; [now left|].
           right. exists f0. split; [now right|exact Hch].
    + injection H as <-. cbn [r_world r_pool r_stack r_ctl]. repeat split; auto.
  - discriminate.
Qed.

Lemma join_goroutine (i : nat) (s s' : Run) :
  join_inv E c s -> goroutine_step E i s = Some s' -> join_inv E c s'.
Proof.
  intros (JW & JT & JM & JC & JE) H. unfold goroutine_step in H.
  destruct (r_pool s !! i) as [t|] eqn:Hi; [|discriminate].
  destruct (blocked (u_pc (t_unit t))) eqn:Hb; [discriminate|].
  pose proof (unit_step_counts E (t_unit t) (r_world s) Hb) as Hcount.
  pose proof (unit_step_mid (t_unit t) (r_world s) Hb) as Hmid.
  destruct (unit_step E (t_unit t) (r_world s)) as [u' w'|] eqn:Hs;
    [|discriminate].
  injection H as <-.
  destruct Hcount as (_ & _ & _ & _ & _ & _ & _ & _ & Hd' & Hd).
  destruct Hmid as (M1 & M2).
  pose proof (lookup_In _ _ _ Hi) as Ht.
  assert (Hlive : forall ch, live ch (<[i := mkTask u' (t_chan t)]> (r_pool s))
                             = live ch (r_pool s)).
  { intros ch. pose proof (live_insert ch _ _ _ (mkTask u' (t_chan t)) Hi) as L.
    rewrite !live_one in L. cbn [t_chan t_unit] in L. rewrite Hd, Hd' in L. lia. }
  unfold join_inv. cbn [r_world r_pool r_stack r_ctl].
  split; [|split; [|split; [|split]]].
  - intros f Hf. rewrite Hlive. auto.
  - intros x Hx. apply In_insert in Hx as [-> | Hx]; [|auto].
    cbn [t_unit t_chan]. destruct (JT t Ht) as [Hdone|Hf]; [congruence|auto].
  - intros x Hx. destruct (M1 x Hx) as [Hold|(-> & Hm)].
    + destruct (JM x Hold) as (t0 & H0 & Hu & Hm0).
      destruct (In_insert_other _ _ _ (mkTask u' (t_chan t)) _ Hi H0)
        as [-> | Hin]; [|eauto].
      destruct (M2 Hm0) as [Hm'|Hn]; [|rewrite Hu in Hn; contradiction].
      exists (mkTask u' (t_chan t)). split; [eapply In_insert_self; eauto|].
      cbn [t_unit]. split; [|exact Hm'].
      destruct (unit_step_effect E _ _ _ _ Hs) as (U & _). congruence.
    + exists (mkTask u' (t_chan t)). split; [eapply In_insert_self; eauto|].
      cbn [t_unit]. split; [|exact Hm].
      now destruct (unit_step_effect E _ _ _ _ Hs) as (U & _).
  - pose proof (unit_step_move E _ _ _ _ Hs) as (_ & _ & M).
    destruct (u_pc (t_unit t)); destruct M as (M & _); eapply move_covered; eauto.
  - destruct (r_ctl s); auto.
    + rewrite JE in Hi. discriminate.
    + destruct JE as (Hst & _). exfalso.
      destruct (JT t Ht) as [Hdone|(f & Hf & _)]; [congruence|].
      rewrite Hst in Hf. destruct Hf.
Qed.

Lemma join_receive (i : nat) (s s' : Run) :
  depth_inv c s -> join_inv E c s -> receive_step i s = Some s' ->
  join_inv E c s'.
Proof.
  intros (_ & _ & DN & _ & _) (JW & JT & JM & JC & JE) H.
  unfold receive_step in H.
  destruct (r_ctl s) eqn:Hc; try discriminate.
  destruct (r_stack s) as [|f rest] eqn:Hst; [discriminate|].
  destruct (r_pool s !! i) as [t|] eqn:Hi; [|discriminate].
  destruct (f_todo f) eqn:Htodo; [|discriminate].
  destruct (f_wait f) as [|n] eqn:Hw; [discriminate|].
  destruct (u_pc (t_unit t)) eqn:Hpc; try discriminate.
  destruct (Nat.eqb_spec (t_chan t) (f_chan f)) as [Hch|]; [|discriminate].
  injection H as <-.
  pose proof (lookup_In _ _ _ Hi) as Ht.
  set (t' := mkTask (mkUnit (u_gid (t_unit t)) (u_url (t_unit t)) (PDone r))
                    (t_chan t)).
  assert (Hlive : forall ch,
             (live ch (<[i := t']> (r_pool s))
              + (if Nat.eqb (t_chan t) ch then 1 else 0)
              = live ch (r_pool s))%nat).
  { intros ch. pose proof (live_insert ch _ _ _ t' Hi) as L.
    rewrite !live_one in L. cbn [t' t_chan t_unit u_pc is_done] in L.
    rewrite Hpc in L. cbn [is_done negb] in L.
    rewrite andb_true_r, andb_false_r in L. lia. }
  unfold join_inv. cbn [r_world r_pool r_stack r_ctl].
  split; [|split; [|split; [|split]]].
  - intros f0 [<-|Hf0].
    + cbn [f_wait f_todo f_chan]. pose proof (Hlive (f_chan f)) as L.
      rewrite Hch, Nat.eqb_refl in L.
      pose proof (JW f (or_introl eq_refl)) as W0.
      rewrite Hw, Htodo in W0. simpl in *. lia.
    + pose proof (Hlive (f_chan f0)) as L.
      destruct (Nat.eqb_spec (t_chan t) (f_chan f0)) as [Heq|Hne].
      * exfalso. eapply (NoDup_chan f rest f0); eauto. congruence.
      * rewrite (JW f0 (or_intror Hf0)). lia.
  - intros x Hx. apply In_insert in Hx as [-> | Hx]; [now left|].
    destruct (JT x Hx) as [Hd|(f0 & [<-|Hf0] & Hc0)]; [now left|right..].
    + eexists. split; [now left|exact Hc0].
    + exists f0. split; [now right|exact Hc0].
  - intros x Hx.
    assert (Hold : in_flight (r_world s) x) by exact Hx.
    destruct (JM x Hold) as (t0 & H0 & Hu & Hm0).
    destruct (In_insert_other _ _ _ t' _ Hi H0) as [-> | Hin]; [|eauto].
    rewrite Hpc in Hm0. discriminate.
  - eapply (covered_same (r_world s) _ [EvSend r; EvRecv r]);
      [reflexivity| | |exact JC].
    + cbn [logged trace]. now rewrite <- app_assoc.
    + intros x [Hx|[Hx|[]]]; discriminate.
  - exact Logic.I.
Qed.

Lemma join_start (w0 : World) : initial w0 -> join_inv E c (start w0).
Proof.
  intros I0. destruct (initial_holds _ I0) as (_ & C). destruct I0 as (S0 & _).
  unfold join_inv, start. cbn [r_world r_pool r_stack r_ctl].
  split; [intros f []|]. split; [intros t []|]. split; [|split; [exact C|]].
  - intros u [g Hg]. rewrite S0 in Hg. cbn in Hg. rewrite lookup_empty in Hg.
    discriminate.
  - reflexivity.
Qed.

Lemma crawling_join (w0 : World) (s : Run) :
  (1 <= Depth c)%Z -> initial w0 -> crawling E c w0 s -> join_inv E c s.
Proof.
  intros Hd I0 R.
  assert (S0 : scrapper w0 = NewScrapper) by now destruct I0.
  induction R as [|s ch s' R IH Hs]; [now apply join_start|].
  pose proof (crawling_inv E c Hd w0 s S0 R) as D.
  destruct ch; cbn [crawl_step] in Hs;
    eauto using join_orchestrator, join_goroutine, join_receive.
Qed.

End JoinFacts.

(** *** Every schedule: the seed and the tracker *)

Lemma move_tracked (k : kind) (url : string) (gid : Z) (w w' : World) (x : string) :
  move k url gid w w' -> tracked w x -> tracked w' x.
Proof.
  unfold tracked, succeeded, failed, in_flight. destruct k; cbn [move].
  - intros (S & _). now rewrite S.
  - intros (S & F & P & _). rewrite S, F, P. intros [H|[H|H]]; auto.
    right. right. apply lookup_insert_is_Some'. auto.
  - intros (P & Hc & _) H. rewrite P.
    destruct (decide (url = x)) as [<-|N].
    + destruct Hc as [(p & -> & _)|(fp & -> & _)];
        [left|right; left]; rewrite lookup_insert_eq; eauto.
    + rewrite lookup_delete_ne by assumption.
      destruct Hc as [(p & -> & ->)|(fp & -> & ->)];
        rewrite lookup_insert_ne by assumption; exact H.
Qed.

Section SettleFacts.
Variable E : Env.
Variable c : Collector.

Lemma unit_step_tracked (u : Unit) (w : World) (u' : Unit) (w' : World) (x : string) :
  unit_step E u w = Done u' w' -> tracked w x -> tracked w' x.
Proof.
  intros H. pose proof (unit_step_move E _ _ _ _ H) as (_ & _ & M).
  destruct (u_pc u); destruct M as (M & _); eapply move_tracked; eauto.
Qed.

Lemma unit_step_settle (u : Unit) (w : World) :
  blocked (u_pc u) = false ->
  match unit_step E u w with
  | Panic => True
  | Done u' w' =>
      is_late (u_pc u') = true ->
      is_late (u_pc u) = true \/ u_url u = "" \/ tracked w' (u_url u)
  end.
Proof.
  destruct u as [gid url p]. cbn [u_pc u_url].
  destruct p; cbn [blocked]; try discriminate; intros _;
    cbv [unit_step u_pc u_url u_gid]; unfold_run; split_paths;
    try exact I; cbn [is_late]; intros L; try discriminate L;
    try solve [left; reflexivity].
  all: unfold tracked, succeeded, failed, in_flight; proj.
  - right; left; now apply String.eqb_eq.
  - right; right; left; eauto.
  - right; right; right; right; eauto.
  - discriminate.
  - right; right; right; right; rewrite lookup_insert_eq; eauto.
Qed.

Lemma tracked_eq (w w' : World) (x : string) :
  scrapper w' = scrapper w -> tracked w x -> tracked w' x.
Proof. unfold tracked, succeeded, failed, in_flight. now intros ->. Qed.

Lemma settle_orchestrator (s s' : Run) :
  settle_inv c s -> orchestrator_step E c s = Some s' -> settle_inv c s'.
Proof.
  intros (ST & SS) H. unfold orchestrator_step in H. unfold settle_inv.
  destruct (r_ctl s) eqn:Hc.
  - match type of H with
    | match ?m (r_world s) with _ => _ end = _ =>
        destruct (m (r_world s)) as [a w'|] eqn:Hm; [|discriminate]
    end.
    injection H as <-. bind_inv Hm.
    apply emit_Done in H. apply Log_Done in Hm.
    pose proof (same_tracker_trans _ _ _ _ _ H Hm) as (S & _).
    cbn [r_world r_pool r_stack r_ctl]. split.
    + intros t Ht L. destruct (ST t Ht L); eauto using tracked_eq.
    + left. eexists. split; [now left|]. now left.
  - destruct (r_stack s) as [|f rest] eqn:Hst; [discriminate|].
    destruct (f_todo f) as [|u todo] eqn:Htodo.
    + destruct (f_wait f) eqn:Hw; [|discriminate].
      assert (Hseed : (exists f0, In f0 rest /\ In (Seed c) (f_todo f0))
                      \/ exists t, In t (r_pool s) /\ u_url (t_unit t) = Seed c).
      { destruct SS as [(f0 & [<-|Hf0] & Hin)|SS]; eauto.
        rewrite Htodo in Hin. destruct Hin. }
      destruct rest as [|f1 rest].
      * destruct (finish E c (r_world s)) as [res w'|] eqn:Hf; [|discriminate].
        injection H as <-. apply (finish_Done E c) in Hf as (S & _).
        cbn [r_world r_pool r_stack r_ctl]. split.
        -- intros t Ht L. destruct (ST t Ht L); eauto using tracked_eq.
        -- exact Hseed.
      * injection H as <-. cbn [r_world r_pool r_stack r_ctl].
        split; [exact ST|exact Hseed].
    + destruct (spawn u (r_world s)) as [gid w'|] eqn:Hsp; [|discriminate].
      injection H as <-. apply spawn_Done in Hsp as (S & _).
      cbn [r_world r_pool r_stack r_ctl]. split.
      * intros t Ht L. apply in_app_or in Ht as [Ht|[<-|[]]]; [|discriminate L].
        destruct (ST t Ht L); eauto using tracked_eq.
      * destruct SS as [(f0 & [<-|Hf0] & Hin)|(t & Ht & Hu)].
        -- rewrite Htodo in Hin. destruct Hin as [->|Hin].
           ++ right. eexists. split; [apply in_or_app; right; now left|].
              reflexivity.
           ++ left. eexists. split; [now left|exact Hin].
        -- left. exists f0. split; [now right|exact Hin].
        -- right. exists t. split; [apply in_or_app; now left|exact Hu].
  - destruct (log_scrape_error r (r_world s)) as [a w'|] eqn:Hl; [|discriminate].
    injection H as <-. apply log_scrape_error_Done in Hl as (S & _).
    cbn [r_world r_pool r_stack r_ctl]. split; [|exact SS].
    intros t Ht L. destruct (ST t Ht L); eauto using tracked_eq.
  - destruct (r_stack s) as [|f rest] eqn:Hst; [discriminate|].
    assert (Hkeep : forall g,
               (exists f0, In f0 (g :: f :: rest) /\ In (Seed c) (f_todo f0))
               \/ exists t, In t (r_pool s) /\ u_url (t_unit t) = Seed c).
    { intros g. destruct SS as [(f0 & Hf0 & Hin)|SS]; [left|now right].
      exists f0. split; [now right|exact Hin]. }
    destruct (Page r) as [page|].
    + destruct (f_depth f - 1 <=? 0)%Z; injection H as <-;
        cbn [r_world r_pool r_stack r_ctl]; split; auto.
    + injection H as <-. cbn [r_world r_pool r_stack r_ctl]. split; auto.
  - discriminate.
Qed.

Lemma settle_goroutine (i : nat) (s s' : Run) :
  settle_inv c s -> goroutine_step E i s = Some s' -> settle_inv c s'.
Proof.
  intros (ST & SS) H. unfold goroutine_step in H.
  destruct (r_pool s !! i) as [t|] eqn:Hi; [|discriminate].
  destruct (blocked (u_pc (t_unit t))) eqn:Hb; [discriminate|].
  pose proof (unit_step_settle (t_unit t) (r_world s) Hb) as Hset.
  destruct (unit_step E (t_unit t) (r_world s)) as [u' w'|] eqn:Hs;
    [|discriminate].
  injection H as <-.
  pose proof (lookup_In _ _ _ Hi) as Ht.
  destruct (unit_step_effect E _ _ _ _ Hs) as (U & _).
  unfold settle_inv. cbn [r_world r_pool r_stack r_ctl]. split.
  - intros x Hx L. apply In_insert in Hx as [-> | Hx].
    + cbn [t_unit] in *. rewrite U.
      destruct (Hset L) as [L0|[H0|H0]]; auto.
      destruct (ST t Ht L0); eauto using unit_step_tracked.
    + destruct (ST x Hx L); eauto using unit_step_tracked.
  - destruct (r_ctl s); auto;
      (destruct SS as [SS|(t0 & Hx & Hu)]; [now left|right];
       destruct (In_insert_url _ i t (mkTask u' (t_chan t)) t0 Hi U Hx)
         as (x' & H1 & H2); exists x'; split; [exact H1|congruence]).
Qed.

Lemma settle_receive (i : nat) (s s' : Run) :
  settle_inv c s -> receive_step i s = Some s' -> settle_inv c s'.
Proof.
  intros (ST & SS) H. unfold receive_step in H.
  destruct (r_ctl s) eqn:Hc; try discriminate.
  destruct (r_stack s) as [|f rest] eqn:Hst; [discriminate|].
  destruct (r_pool s !! i) as [t|] eqn:Hi; [|discriminate].
  destruct (f_todo f) eqn:Htodo; [|discriminate].
  destruct (f_wait f) as [|n] eqn:Hw; [discriminate|].
  destruct (u_pc (t_unit t)) eqn:Hpc; try discriminate.
  destruct (Nat.eqb (t_chan t) (f_chan f)); [|discriminate].
  injection H as <-.
  pose proof (lookup_In _ _ _ Hi) as Ht.
  unfold settle_inv. cbn [r_world r_pool r_stack r_ctl]. split.
  - intros x Hx L. apply In_insert in Hx as [-> | Hx].
    + cbn [t_unit u_url]. apply (ST t Ht). now rewrite Hpc.
    + exact (ST x Hx L).
  - destruct SS as [(f0 & [<-|Hf0] & Hin)|(x & Hx & Hu)].
    + rewrite Htodo in Hin. destruct Hin.
    + left. exists f0. split; [now right|exact Hin].
    + right.
      destruct (In_insert_url _ i t
                  (mkTask (mkUnit (u_gid (t_unit t)) (u_url (t_unit t)) (PDone r))
                          (t_chan t)) x Hi eq_refl Hx)
        as (x' & H1 & H2). exists x'. split; [exact H1|congruence].
Qed.

Lemma crawling_settle (w0 : World) (s : Run) :
  crawling E c w0 s -> settle_inv c s.
Proof.
  induction 1 as [|s ch s' R IH Hs].
  - split; [intros t []|exact Logic.I].
  - destruct ch; cbn [crawl_step] in Hs;
      eauto using settle_orchestrator, settle_goroutine, settle_receive.
Qed.

End SettleFacts.

(** *** Every schedule: the next step *)

Lemma live_pick (ch : nat) (pool : list Task) :
  (0 < live ch pool)%nat ->
  exists i t, pool !! i = Some t /\ t_chan t = ch
              /\ is_done (u_pc (t_unit t)) = false.
Proof.
  unfold live. induction pool as [|a pool IH]; simpl; [lia|].
  destruct (Nat.eqb_spec (t_chan a) ch) as [Heq|Hne].
  - destruct (is_done (u_pc (t_unit a))) eqn:Hd; simpl.
    + intros H. destruct (IH H) as (i & t & Hi & Ht). exists (S i), t. auto.
    + intros _. exists 0%nat, a. auto.
  - simpl. intros H. destruct (IH H) as (i & t & Hi & Ht). exists (S i), t. auto.
Qed.

Section AwakeFacts.
Variable E : Env.
Variable c : Collector.

Lemma unit_step_alive (u : Unit) (w : World) :
  is_Some (loggers w) ->
  exists u' w', unit_step E u w = Done u' w' /\ is_Some (loggers w').
Proof.
  intros [l Hl]. destruct u as [gid url p].
  destruct p; cbv [unit_step u_pc u_url u_gid]; unfold_run;
    unfold Log; cbn [loggers]; rewrite ?Hl; split_paths;
    eexists _, _; (split; [reflexivity|]); cbn [loggers]; eauto.
Qed.

Lemma Log_alive (t : Z) (msg : string) (w : World) :
  is_Some (loggers w) ->
  exists w', Log t msg w = Done tt w' /\ is_Some (loggers w').
Proof.
  intros [l Hl]. unfold Log. rewrite Hl. eexists. split; [reflexivity|].
  cbn [loggers]. eauto.
Qed.

Lemma emit_alive (e : Event) (w : World) :
  is_Some (loggers w) ->
  exists w', emit e w = Done tt w' /\ is_Some (loggers w').
Proof. intros L. eexists. split; [reflexivity|exact L]. Qed.

Lemma finish_alive (w : World) :
  is_Some (loggers w) ->
  exists x w', finish E c w = Done x w' /\ is_Some (loggers w').
Proof.
  intros [l Hl].
  unfold finish, SaveResultsToFile, NumberOfPagesSucceed, NumberOfPagesFailed,
    bind, ret, get_scrapper, emit, Log.
  destruct (SaveToFile c);
    [destruct (json_MarshalIndent E);
     [|destruct (ioutil_WriteFile E (FileName c))]|];
    proj; rewrite ?Hl; proj;
    eexists _, _; (split; [reflexivity|]); cbn [loggers]; eauto.
Qed.

Lemma awake_step (ch : Choice) (s s' : Run) :
  awake_inv s -> crawl_step E c ch s = Some s' -> awake_inv s'.
Proof.
  intros (L & W) H. unfold awake_inv. destruct ch; cbn [crawl_step] in H.
  - unfold orchestrator_step in H. destruct (r_ctl s) eqn:Hc.
    + match type of H with
      | match ?m (r_world s) with _ => _ end = _ =>
          destruct (m (r_world s)) as [a w'|] eqn:Hm; [|discriminate]
      end.
      injection H as <-. bind_inv Hm.
      apply emit_Done in H. apply Log_Done in Hm.
      pose proof (same_tracker_trans _ _ _ _ _ H Hm) as (_ & _ & K).
      cbn [r_world r_ctl r_stack]. split; [auto|discriminate].
    + destruct (r_stack s) as [|f rest] eqn:Hst; [discriminate|].
      destruct (f_todo f) as [|u todo].
      * destruct (f_wait f); [|discriminate].
        destruct rest as [|f1 rest].
        -- destruct (finish_alive (r_world s) L) as (x & w' & Hf & K).
           rewrite Hf in H. injection H as <-. split; [exact K|exact Logic.I].
        -- injection H as <-. split; [exact L|discriminate].
      * destruct (spawn u (r_world s)) as [gid w'|] eqn:Hsp; [|discriminate].
        injection H as <-. apply spawn_Done in Hsp as (_ & _ & K).
        cbn [r_world r_ctl r_stack]. split; [auto|discriminate].
    + destruct (log_scrape_error r (r_world s)) as [a w'|] eqn:Hl;
        [|discriminate].
      injection H as <-. apply log_scrape_error_Done in Hl as (_ & _ & K).
      cbn [r_world r_ctl r_stack]. split; [auto|exact W].
    + destruct (r_stack s) as [|f rest] eqn:Hst; [discriminate|].
      destruct (Page r) as [page|]; [destruct (f_depth f - 1 <=? 0)%Z|];
        injection H as <-; cbn [r_world r_ctl r_stack];
        (split; [exact L|discriminate]).
    + discriminate.
  - unfold goroutine_step in H.
    destruct (r_pool s !! i) as [t|]; [|discriminate].
    destruct (blocked (u_pc (t_unit t))); [discriminate|].
    destruct (unit_step_alive (t_unit t) (r_world s) L) as (u' & w' & Hu & K).
    rewrite Hu in H. injection H as <-. cbn [r_world r_ctl r_stack]. split; [exact K|exact W].
  - unfold receive_step in H.
    destruct (r_ctl s); try discriminate.
    destruct (r_stack s) as [|f rest]; [discriminate|].
    destruct (r_pool s !! i) as [t|]; [|discriminate].
    destruct (f_todo f); [|discriminate].
    destruct (f_wait f); [discriminate|].
    destruct (u_pc (t_unit t)); try discriminate.
    destruct (Nat.eqb (t_chan t) (f_chan f)); [|discriminate].
    injection H as <-. cbn [r_world r_ctl r_stack logged loggers].
    split; [exact L|discriminate].
Qed.

Lemma awake_start (w0 : World) :
  is_Some (loggers w0) -> awake_inv (start w0).
Proof. intros L. split; [exact L|exact Logic.I]. Qed.

Lemma crawling_awake (w0 : World) (s : Run) :
  is_Some (loggers w0) -> crawling E c w0 s -> awake_inv s.
Proof.
  intros L. induction 1 as [|s ch s' R IH Hs]; [now apply awake_start|].
  eapply awake_step; eauto.
Qed.

Lemma step_enabled (s : Run) :
  awake_inv s -> join_inv E c s ->
  (exists x, r_ctl s = CEnd x)
  \/ exists ch s', crawl_step E c ch s = Some s'.
Proof.
  intros (L & W) (JW & _). destruct (r_ctl s) eqn:Hc; [right..|left; eauto].
  - exists Orchestrator. cbn [crawl_step]. unfold orchestrator_step.
    rewrite Hc. unfold bind at 1.
    destruct (emit_alive (EvPrint ("Crawling starting for url: " +:+ Seed c
                                   +:+ " with depth: " +:+ itoa (Depth c) +:+ nl))
                (r_world s) L) as (w1 & -> & L1).
    destruct (Log_alive INFO ("Crawling starting for url: " +:+ Seed c
                              +:+ " with depth: " +:+ itoa (Depth c) +:+ nl)
                w1 L1) as (w2 & -> & _).
    eauto.
  - destruct (r_stack s) as [|f rest] eqn:Hst; [contradiction|].
    destruct (f_todo f) as [|u todo] eqn:Htodo.
    + destruct (f_wait f) as [|n] eqn:Hw.
      * exists Orchestrator. cbn [crawl_step]. unfold orchestrator_step.
        rewrite Hc, Hst, Htodo, Hw. destruct rest as [|f1 rest]; [|eauto].
        destruct (finish_alive (r_world s) L) as (x & w' & -> & _). eauto.
      * pose proof (JW f (or_introl eq_refl)) as W0.
        rewrite Hw, Htodo in W0. cbn [List.length] in W0.
        destruct (live_pick (f_chan f) (r_pool s)) as (i & t & Hi & Hch & Hd);
          [lia|].
        destruct (blocked (u_pc (t_unit t))) eqn:Hb.
        -- exists (Receive i). cbn [crawl_step]. unfold receive_step.
           rewrite Hc, Hst, Hi, Htodo, Hw.
           destruct (u_pc (t_unit t)); try discriminate.
           rewrite Hch, Nat.eqb_refl. eauto.
        -- exists (Goroutine i). cbn [crawl_step]. unfold goroutine_step.
           rewrite Hi, Hb.
           destruct (unit_step_alive (t_unit t) (r_world s) L)
             as (u' & w' & -> & _). eauto.
    + exists Orchestrator. cbn [crawl_step]. unfold orchestrator_step.
      rewrite Hc, Hst, Htodo. cbv [spawn]. eauto.
  - exists Orchestrator. cbn [crawl_step]. unfold orchestrator_step.
    rewrite Hc. unfold log_scrape_error. destruct (Error r) as [e|].
    + destruct (Log_alive ERROR ("Scrape error: " +:+ e +:+ nl) (r_world s) L)
        as (w' & -> & _). eauto.
    + cbv [ret]. eauto.
  - exists Orchestrator. cbn [crawl_step]. unfold orchestrator_step.
    rewrite Hc. destruct (r_stack s) as [|f rest]; [contradiction|].
    destruct (Page r) as [page|]; [destruct (f_depth f - 1 <=? 0)%Z|]; eauto.
Qed.

End AwakeFacts.

(** *** Every schedule: the depth bound, and whole runs *)

Lemma reached_within (w : World) (seed : string) (n : nat) (u : string) :
  links_kept w -> reached (trace w) seed n u -> within w seed n u.
Proof.
  intros K. induction 1 as [n|n m u _ IH (r & p & Hr & Hp & <- & Hin)].
  - constructor.
  - econstructor; [exact IH|].
    destruct (K r p Hr Hp) as (q & Hq & Hl). exists q. split; [exact Hq|].
    now rewrite Hl.
Qed.

Lemma reached_zero (tr : list Event) (seed u : string) :
  reached tr seed 0 u -> u = seed.
Proof. now inversion 1. Qed.

Lemma summed_returned (pool : list Task) :
  (forall t, In t pool -> is_done (u_pc (t_unit t)) = true) ->
  summed returned pool = List.length pool.
Proof.
  unfold summed. induction pool as [|t pool IH]; [reflexivity|].
  intros H. simpl. unfold returned at 1. rewrite (H t) by now left.
  rewrite IH; [reflexivity|]. intros x Hx. apply H. now right.
Qed.

Lemma empty_seed_refused : NetURL.ParseRequestURI "" = None.
Proof. reflexivity. Qed.

Lemma NewCollector_start (E : Env) (seed : string) (depth : Z)
      (saveToFile : bool) (fileName : string) (c : Collector) (w0 : World) :
  NewCollector E seed depth saveToFile fileName = Ok (c, w0) ->
  c = mkCollector seed depth saveToFile fileName
  /\ (1 <= Depth c)%Z /\ seed <> "" /\ scrapper w0 = NewScrapper /\ initial w0
  /\ (os_OpenFile E LogFile = None -> is_Some (loggers w0)).
Proof.
  intros H.
  assert (Hseed : seed <> "").
  { intros ->. unfold NewCollector in H. rewrite empty_seed_refused in H.
    discriminate. }
  apply NewCollector_Ok in H as (-> & Hd & S0 & L0 & I0).
  split; [reflexivity|]. split; [cbn [Depth]; lia|]. split; [exact Hseed|].
  split; [exact S0|]. split; [exact I0|].
  intros Ho. rewrite L0. unfold CreateLoggers. rewrite Ho. cbn. eauto.
Qed.

(** C6. For a crawl started by [NewCollector] with seed [seed] and maximum
    depth [depth], at every instant of the run and under every schedule of
    the orchestrator and its goroutines, every URL in the succeeded or in
    the failed collection is at most [depth] links away from the seed,
    over the links of the page records the goroutines have sent. Two
    goroutines for one URL can both pass the entry checks, and the second
    to commit replaces the record of the first; when no record that was
    sent has been replaced by one with other links, the bound holds in the
    link graph of the succeeded collection itself. The frames on the stack
    are calls of [Crawl] one inside the other, each with the depth of its
    caller lowered by one, and all with a positive depth: the call for a
    result without page, or with a depth that is not positive, returns at
    once and leaves everything as it is, and any other call starts a frame
    for the links of the page with the lowered depth. *)
Theorem crawl_depth_bound (E : Env) (seed : string) (depth : Z)
        (saveToFile : bool) (fileName : string) (c : Collector) (w0 : World)
        (s : Run) :
  NewCollector E seed depth saveToFile fileName = Ok (c, w0) ->
  crawling E c w0 s ->
  (forall u, succeeded (r_world s) u \/ failed (r_world s) u ->
             reached (trace (r_world s)) seed (Z.to_nat depth) u)
  /\ (links_kept (r_world s) ->
      forall u, succeeded (r_world s) u \/ failed (r_world s) u ->
                within (r_world s) seed (Z.to_nat depth) u)
  /\ nested depth (r_stack s)
  /\ (forall f, In f (r_stack s) -> (0 < f_depth f)%Z)
  /\ (forall r f rest,
         r_ctl s = CCall r -> r_stack s = f :: rest ->
         Page r = None \/ (f_depth f - 1 <= 0)%Z ->
         crawl_step E c Orchestrator s
         = Some (mkRun (r_world s) (r_pool s) (r_stack s) CLoop (r_chans s)))
  /\ (forall r f rest page,
         r_ctl s = CCall r -> r_stack s = f :: rest ->
         Page r = Some page -> (0 < f_depth f - 1)%Z ->
         crawl_step E c Orchestrator s
         = Some (mkRun (r_world s) (r_pool s)
                       (mkFrame (r_chans s) (f_depth f - 1)
                                (SucceededPage.Urls page)
                                (List.length (SucceededPage.Urls page))
                        :: r_stack s)
                       CLoop (S (r_chans s))))
  /\ (forall d w, Crawl E None d w = Done tt w)
  /\ (forall page d w, (d <= 0)%Z -> Crawl E page d w = Done tt w).
Proof.
  intros HN R.
  apply NewCollector_start in HN as (Hcol & Hd & _ & S0 & _).
  pose proof (crawling_inv E c Hd w0 s S0 R) as (IT & IF & _ & IK & _).
  pose proof (crawling_nested E c w0 s R) as N.
  rewrite Hcol in IT, IF, N, Hd. cbn [Seed Depth] in *.
  assert (B : forall u, succeeded (r_world s) u \/ failed (r_world s) u ->
                        reached (trace (r_world s)) seed (Z.to_nat depth) u).
  { intros u Hu.
    destruct (IK u) as (t & Ht & <-); [unfold tracked; tauto|].
    destruct (IT t Ht) as (H & _).
    eapply reached_le; [|exact H]. lia. }
  split; [exact B|].
  split; [intros K u Hu; apply reached_within; auto|].
  split; [exact N|]. split; [|split; [|split; [|split]]].
  - intros f Hf. destruct (IF f Hf) as (H & _). lia.
  - intros r f rest Hc Hst Hleaf. cbn [crawl_step]. unfold orchestrator_step.
    rewrite Hc, Hst. destruct (Page r) as [page|]; [|reflexivity].
    destruct Hleaf as [|Hleaf]; [discriminate|].
    destruct (Z.leb_spec (f_depth f - 1) 0); [reflexivity|lia].
  - intros r f rest page Hc Hst Hp Hpos. cbn [crawl_step].
    unfold orchestrator_step. rewrite Hc, Hst, Hp.
    destruct (Z.leb_spec (f_depth f - 1) 0); [lia|reflexivity].
  - intros d w. unfold Crawl. now destruct (Z.to_nat d).
  - intros page d w Hle. unfold Crawl.
    replace (Z.to_nat d) with 0%nat by lia. now destruct page.
Qed.

Lemma crawl_depth_bound_witness :
  r_ctl demo_run = CEnd (3%Z, None)
  /\ succeeded (r_world demo_run) Examples.flaky
  /\ reached (trace (r_world demo_run)) Examples.seed 3 Examples.flaky.
Proof.
  split; [vm_compute; reflexivity|].
  assert (Hs : succeeded (r_world demo_run) Examples.flaky)
    by (eexists; vm_compute; reflexivity).
  split; [exact Hs|].
  refine (proj1 (crawl_depth_bound Examples.env_flaky Examples.seed 3 false
                   "out.json" demo_collector Examples.world0 demo_run eq_refl _)
                Examples.flaky (or_introl Hs)).
  apply drive_crawling. constructor.
Defined.

(** X14. The budget of a run, at every instant and under every
    schedule: every launch has its goroutine; the requests made so far are
    at most twice the launches and the commits at most the launches; every
    result sent has been received, and the results are at most the
    launches; at most one result file is written, none when the collector
    was not asked to save, and none before [StartCrawling] has
    returned. *)
Theorem run_budget (E : Env) (seed : string) (depth : Z)
        (saveToFile : bool) (fileName : string) (c : Collector) (w0 : World)
        (s : Run) :
  NewCollector E seed depth saveToFile fileName = Ok (c, w0) ->
  crawling E c w0 s ->
  count is_go (trace (r_world s)) = List.length (r_pool s)
  /\ (count is_request (trace (r_world s))
      <= 2 * count is_go (trace (r_world s)))%nat
  /\ (count is_commit (trace (r_world s))
      <= count is_go (trace (r_world s)))%nat
  /\ count is_recv (trace (r_world s)) = count is_send (trace (r_world s))
  /\ (count is_send (trace (r_world s))
      <= count is_go (trace (r_world s)))%nat
  /\ (count is_write (trace (r_world s)) <= 1)%nat
  /\ (saveToFile = false -> count is_write (trace (r_world s)) = 0%nat)
  /\ ((forall x, r_ctl s <> CEnd x) ->
      count is_write (trace (r_world s)) = 0%nat).
Proof.
  intros HN R.
  apply NewCollector_start in HN as (Hcol & _ & _ & _ & I0 & _).
  destruct (crawling_budget E c w0 s I0 R) as (G & Q & C & S & V & W).
  rewrite Hcol in W.
  assert (T2 : (summed spent (r_pool s) <= 2 * List.length (r_pool s))%nat)
    by (apply summed_le; intros p; destruct p; simpl; lia).
  assert (T1 : (summed committed (r_pool s) <= 1 * List.length (r_pool s))%nat)
    by (apply summed_le; intros p; destruct p; simpl; lia).
  assert (T0 : (summed returned (r_pool s) <= 1 * List.length (r_pool s))%nat)
    by (apply summed_le; intros p; unfold returned; destruct (is_done p); lia).
  split; [exact G|]. rewrite G, V, S.
  split; [lia|]. split; [lia|]. split; [reflexivity|]. split; [lia|].
  rewrite W. split; [|split].
  - destruct (r_ctl s); try lia. destruct (saves E _); lia.
  - intros ->. destruct (r_ctl s); reflexivity.
  - intros Hn. destruct (r_ctl s); try reflexivity. now destruct (Hn x).
Qed.

Lemma run_budget_witness :
  r_ctl demo_run = CEnd (3%Z, None)
  /\ List.length (r_pool demo_run) = 4%nat
  /\ (count is_request (trace (r_world demo_run))
      <= 2 * count is_go (trace (r_world demo_run)))%nat
  /\ count is_write (trace (r_world demo_run)) = 0%nat.
Proof.
  split; [vm_compute; reflexivity|]. split; [vm_compute; reflexivity|].
  destruct (run_budget Examples.env_flaky Examples.seed 3 false "out.json"
              demo_collector Examples.world0 demo_run eq_refl
              (drive_crawling _ _ _ _ _ _ _ (crawling_start _ _ _)))
    as (_ & Q & _ & _ & _ & _ & W & _).
  split; [exact Q|]. apply W. reflexivity.
Defined.

(** X15. When the collector is asked to save and
    marshalling and writing succeed, then under every schedule the last
    thing a run that has returned did is to write the one file of the run,
    under the collector's file name: it holds the two collections as they
    are at the end, its total is the sum of their sizes, and the count
    [StartCrawling] returns is the number of succeeded pages in the
    file. *)
Theorem run_saves_final_state (E : Env) (seed : string) (depth : Z)
        (fileName : string) (c : Collector) (w0 : World)
        (s : Run) (x : Z * option error) :
  NewCollector E seed depth true fileName = Ok (c, w0) ->
  json_MarshalIndent E = None ->
  ioutil_WriteFile E fileName = None ->
  crawling E c w0 s ->
  r_ctl s = CEnd x ->
  (exists tr, trace (r_world s)
              = tr ++ [EvWriteFile fileName (result_data c (r_world s))]
              /\ count is_write tr = 0%nat)
  /\ x = (rd_SucceededPages (result_data c (r_world s)), None)
  /\ rd_TotalPages (result_data c (r_world s))
     = Z.of_nat (size (rd_Succeed (result_data c (r_world s)))
                 + size (rd_Failed (result_data c (r_world s))))
  /\ rd_Succeed (result_data c (r_world s)) = Succeed (scrapper (r_world s))
  /\ rd_Failed (result_data c (r_world s)) = Failed (scrapper (r_world s)).
Proof.
  intros HN Hj Hw R Hc.
  apply NewCollector_start in HN as (Hcol & Hd & _ & _ & I0 & _).
  destruct (crawling_budget E c w0 s I0 R) as (_ & _ & _ & _ & _ & W).
  destruct (crawling_join E c w0 s Hd I0 R) as (_ & _ & _ & _ & JE).
  rewrite Hc in JE, W. destruct JE as (_ & -> & JS). subst c.
  assert (Hs : saves E (mkCollector seed depth true fileName) = true).
  { unfold saves. cbn [SaveToFile FileName]. now rewrite Hj, Hw. }
  rewrite Hs in W. destruct (JS Hs) as (tr & T). cbn [FileName] in T.
  split; [|split; [reflexivity|split; [|split; reflexivity]]].
  - exists tr. split; [exact T|]. rewrite T, count_app in W.
    unfold count at 2 in W. simpl in W. lia.
  - unfold result_data. cbn [rd_TotalPages rd_Succeed rd_Failed]. lia.
Qed.

Lemma run_saves_final_state_witness :
  r_ctl pdf_run = CEnd (1%Z, None)
  /\ exists tr, trace (r_world pdf_run)
                = tr ++ [EvWriteFile "out.json"
                           (result_data pdf_collector (r_world pdf_run))].
Proof.
  assert (Hc : r_ctl pdf_run = CEnd (1%Z, None)) by (vm_compute; reflexivity).
  split; [exact Hc|].
  destruct (run_saves_final_state Examples.env_pdf "https://a.test/doc.pdf" 1
              "out.json" pdf_collector Examples.world0 pdf_run (1%Z, None)
              eq_refl eq_refl eq_refl
              (drive_crawling _ _ _ _ _ _ _ (crawling_start _ _ _)) Hc)
    as ((tr & T & _) & _).
  exists tr. exact T.
Defined.

(** X16. Under every schedule, when [StartCrawling] has
    returned it has returned the number of page records in the succeeded
    collection and no error; no frame is left and every goroutine has
    returned; no URL is in-flight; the seed is in the succeeded or in the
    failed collection; every launch has sent its result and every result
    was received; and nothing takes a step any more. *)
Theorem run_ends_clean (E : Env) (seed : string) (depth : Z)
        (saveToFile : bool) (fileName : string) (c : Collector) (w0 : World)
        (s : Run) (x : Z * option error) :
  NewCollector E seed depth saveToFile fileName = Ok (c, w0) ->
  crawling E c w0 s ->
  r_ctl s = CEnd x ->
  x = (Z.of_nat (size (Succeed (scrapper (r_world s)))), None)
  /\ r_stack s = []
  /\ (forall t, In t (r_pool s) -> exists r, u_pc (t_unit t) = PDone r)
  /\ (forall u, ~ in_flight (r_world s) u)
  /\ (succeeded (r_world s) seed \/ failed (r_world s) seed)
  /\ count is_send (trace (r_world s)) = count is_go (trace (r_world s))
  /\ count is_recv (trace (r_world s)) = count is_go (trace (r_world s))
  /\ (forall ch, crawl_step E c ch s = None).
Proof.
  intros HN R Hc.
  apply NewCollector_start in HN as (Hcol & Hd & Hseed & _ & I0 & _).
  destruct (crawling_budget E c w0 s I0 R) as (G & _ & _ & S & V & _).
  destruct (crawling_join E c w0 s Hd I0 R) as (_ & JT & JM & _ & JE).
  destruct (crawling_settle E c w0 s R) as (ST & SS).
  rewrite Hc in JE, SS. destruct JE as (Hst & -> & _).
  rewrite Hcol in SS. cbn [Seed] in SS.
  assert (D : forall t, In t (r_pool s) -> is_done (u_pc (t_unit t)) = true).
  { intros t Ht. destruct (JT t Ht) as [H|(f & Hf & _)]; [exact H|].
    rewrite Hst in Hf. destruct Hf. }
  assert (F : forall u, ~ in_flight (r_world s) u).
  { intros u Hu. destruct (JM u Hu) as (t & Ht & _ & Hm).
    specialize (D t Ht). destruct (u_pc (t_unit t)); discriminate. }
  split; [reflexivity|]. split; [exact Hst|].
  split; [|split; [exact F|split; [|split; [|split]]]].
  - intros t Ht. specialize (D t Ht).
    destruct (u_pc (t_unit t)); try discriminate. eauto.
  - destruct SS as [(f & Hf & _)|(t & Ht & Hu)];
      [rewrite Hst in Hf; destruct Hf|].
    specialize (D t Ht).
    destruct (ST t Ht) as [H|[H|[H|H]]].
    + destruct (u_pc (t_unit t)); try discriminate. reflexivity.
    + congruence.
    + left. now rewrite <- Hu.
    + right. now rewrite <- Hu.
    + destruct (F _ H).
  - now rewrite S, G, summed_returned.
  - now rewrite V, G, summed_returned.
  - intros [|i|i]; cbn [crawl_step].
    + unfold orchestrator_step. now rewrite Hc.
    + unfold goroutine_step. destruct (r_pool s !! i) as [t|] eqn:Hi;
        [|reflexivity].
      specialize (D t (lookup_In _ _ _ Hi)).
      destruct (u_pc (t_unit t)); try discriminate. reflexivity.
    + unfold receive_step. now rewrite Hc.
Qed.

Lemma run_ends_clean_witness :
  r_ctl demo_run = CEnd (3%Z, None)
  /\ (succeeded (r_world demo_run) Examples.seed
      \/ failed (r_world demo_run) Examples.seed)
  /\ count is_recv (trace (r_world demo_run))
     = count is_go (trace (r_world demo_run)).
Proof.
  assert (Hc : r_ctl demo_run = CEnd (3%Z, None)) by (vm_compute; reflexivity).
  split; [exact Hc|].
  destruct (run_ends_clean Examples.env_flaky Examples.seed 3 false "out.json"
              demo_collector Examples.world0 demo_run (3%Z, None) eq_refl
              (drive_crawling _ _ _ _ _ _ _ (crawling_start _ _ _)) Hc)
    as (_ & _ & _ & _ & H & _ & V & _).
  split; [exact H|exact V].
Defined.

(** X17. The seed counts as the first level:
    with maximum depth [depth], at every instant and under every schedule,
    every URL a goroutine was launched for, and so every URL the tracker
    holds, is at most [depth - 1] seen links away from the seed. With depth
    1 the seed is the only URL launched. *)
Theorem crawl_reaches_depth_minus_one (E : Env) (seed : string) (depth : Z)
        (saveToFile : bool) (fileName : string) (c : Collector) (w0 : World)
        (s : Run) :
  NewCollector E seed depth saveToFile fileName = Ok (c, w0) ->
  crawling E c w0 s ->
  (forall t, In t (r_pool s) ->
             reached (trace (r_world s)) seed (Z.to_nat (depth - 1))
                     (u_url (t_unit t)))
  /\ (forall u, tracked (r_world s) u ->
                reached (trace (r_world s)) seed (Z.to_nat (depth - 1)) u)
  /\ (depth = 1%Z ->
      (forall t, In t (r_pool s) -> u_url (t_unit t) = seed)
      /\ forall u, tracked (r_world s) u -> u = seed).
Proof.
  intros HN R.
  apply NewCollector_start in HN as (Hcol & Hd & _ & S0 & _).
  pose proof (crawling_inv E c Hd w0 s S0 R) as (IT & _ & _ & IK & _).
  rewrite Hcol in IT. cbn [Seed Depth] in *.
  assert (A : forall t, In t (r_pool s) ->
                        reached (trace (r_world s)) seed (Z.to_nat (depth - 1))
                                (u_url (t_unit t)))
    by (intros t Ht; now destruct (IT t Ht)).
  assert (B : forall u, tracked (r_world s) u ->
                        reached (trace (r_world s)) seed (Z.to_nat (depth - 1)) u).
  { intros u Hu. destruct (IK u Hu) as (t & Ht & <-). auto. }
  split; [exact A|]. split; [exact B|].
  intros ->. split.
  - intros t Ht. eapply reached_zero. exact (A t Ht).
  - intros u Hu. eapply reached_zero. exact (B u Hu).
Qed.

Lemma crawl_reaches_depth_minus_one_witness :
  succeeded (r_world demo_run) Examples.flaky
  /\ reached (trace (r_world demo_run)) Examples.seed 2 Examples.flaky.
Proof.
  assert (Hs : succeeded (r_world demo_run) Examples.flaky)
    by (eexists; vm_compute; reflexivity).
  split; [exact Hs|].
  refine (proj1 (proj2 (crawl_reaches_depth_minus_one Examples.env_flaky
                          Examples.seed 3 false "out.json" demo_collector
                          Examples.world0 demo_run eq_refl _))
                Examples.flaky (or_introl Hs)).
  apply drive_crawling. constructor.
Defined.

(** X25. A frame of [Crawl] is a barrier. At every
    instant and under every schedule, a frame waits for as many results as
    it has URLs to launch and goroutines that have not returned; a
    goroutine that has not returned has its frame on the stack, so no frame
    returns before the goroutines it launched, and those of the calls
    inside it, have returned; the frames have channels of their own; an
    in-flight URL has a goroutine between its mark and its commit; and the
    orchestrator does not move while the innermost frame waits for a
    result. *)
Theorem frame_is_barrier (E : Env) (seed : string) (depth : Z)
        (saveToFile : bool) (fileName : string) (c : Collector) (w0 : World)
        (s : Run) :
  NewCollector E seed depth saveToFile fileName = Ok (c, w0) ->
  crawling E c w0 s ->
  (forall f, In f (r_stack s) ->
             f_wait f = (List.length (f_todo f)
                         + live (f_chan f) (r_pool s))%nat)
  /\ (forall t, In t (r_pool s) ->
                is_done (u_pc (t_unit t)) = false ->
                exists f, In f (r_stack s) /\ f_chan f = t_chan t)
  /\ List.NoDup (map f_chan (r_stack s))
  /\ (forall u, in_flight (r_world s) u ->
                exists t, In t (r_pool s) /\ u_url (t_unit t) = u
                          /\ mid (u_pc (t_unit t)) = true)
  /\ (forall f rest,
         r_ctl s = CLoop -> r_stack s = f :: rest ->
         f_todo f = [] -> (0 < f_wait f)%nat ->
         crawl_step E c Orchestrator s = None).
Proof.
  intros HN R.
  apply NewCollector_start in HN as (_ & Hd & _ & S0 & I0 & _).
  pose proof (crawling_inv E c Hd w0 s S0 R) as (_ & _ & IN & _).
  destruct (crawling_join E c w0 s Hd I0 R) as (JW & JT & JM & _).
  split; [exact JW|]. split; [|split; [exact IN|split; [exact JM|]]].
  - intros t Ht Hn. destruct (JT t Ht) as [H|H]; [congruence|exact H].
  - intros f rest Hc Hst Htodo Hw. cbn [crawl_step]. unfold orchestrator_step.
    rewrite Hc, Hst, Htodo. destruct (f_wait f); [lia|reflexivity].
Qed.

Lemma frame_is_barrier_witness :
  let s := drive Examples.env_flaky demo_collector (fun n => n) 0 20
                 (start Examples.world0) in
  exists f rest, r_stack s = f :: rest
                 /\ f_wait f = (List.length (f_todo f)
                                + live (f_chan f) (r_pool s))%nat.
Proof.
  intros s.
  assert (Hst : exists f rest, r_stack s = f :: rest)
    by (eexists _, _; vm_compute; reflexivity).
  destruct Hst as (f & rest & Hst). exists f, rest. split; [exact Hst|].
  refine (proj1 (frame_is_barrier Examples.env_flaky Examples.seed 3 false
                   "out.json" demo_collector Examples.world0 s eq_refl _) f _).
  - apply drive_crawling. constructor.
  - rewrite Hst. now left.
Defined.

(** X26. No schedule runs into a deadlock or a panic
    when the log file could be opened: at every instant of a run either
    [StartCrawling] has returned, or the orchestrator or one of the
    goroutines can take a step. *)
Theorem crawl_never_stuck (E : Env) (seed : string) (depth : Z)
        (saveToFile : bool) (fileName : string) (c : Collector) (w0 : World)
        (s : Run) :
  NewCollector E seed depth saveToFile fileName = Ok (c, w0) ->
  os_OpenFile E LogFile = None ->
  crawling E c w0 s ->
  (exists x, r_ctl s = CEnd x)
  \/ exists ch s', crawl_step E c ch s = Some s'.
Proof.
  intros HN Ho R.
  apply NewCollector_start in HN as (_ & Hd & _ & _ & I0 & L0).
  apply (step_enabled E c).
  - eapply crawling_awake; eauto.
  - eapply crawling_join; eauto.
Qed.

Lemma crawl_never_stuck_witness :
  let s := drive Examples.env_flaky demo_collector (fun n => n) 0 20
                 (start Examples.world0) in
  r_ctl s = CLoop
  /\ exists ch s', crawl_step Examples.env_flaky demo_collector ch s = Some s'.
Proof.
  intros s.
  assert (Hc : r_ctl s = CLoop) by (vm_compute; reflexivity).
  split; [exact Hc|].
  destruct (crawl_never_stuck Examples.env_flaky Examples.seed 3 false
              "out.json" demo_collector Examples.world0 s eq_refl eq_refl
              (drive_crawling _ _ _ _ _ _ _ (crawling_start _ _ _)))
    as [(x & Hx)|H]; [congruence|exact H].
Defined.

(** *** A record replaced during the crawl *)

Lemma Shifting_crawling :
  crawling Shifting.env Shifting.collector Examples.world0 Shifting.final.
Proof.
  eapply (crun_crawling _ _ _ Shifting.schedule); [constructor|].
  vm_compute. reflexivity.
Qed.

(** X27. What the race at the entry checks does
    to the link graph. On a site whose page [page_a] drops its link to
    [page_c] during the crawl, and a schedule on which two goroutines for
    [page_a] both pass the entry checks, the record of the second replaces
    the record of the first while the first goroutine waits at its send;
    the orchestrator then receives the first record and follows its link.
    The run ends with [page_c] in the succeeded collection, two seen links
    from the seed, and with no record in the collection that links to
    it. *)
Theorem overwritten_record_race :
  crun Shifting.env Shifting.collector Shifting.schedule (start Examples.world0)
  = Some Shifting.final
  /\ r_ctl Shifting.final = CEnd (4%Z, None)
  /\ succeeded (r_world Shifting.final) Shifting.page_c
  /\ reached (trace (r_world Shifting.final)) Shifting.seed 2 Shifting.page_c
  /\ (forall u, ~ edge (r_world Shifting.final) u Shifting.page_c)
  /\ (forall n, ~ within (r_world Shifting.final) Shifting.seed n Shifting.page_c)
  /\ ~ links_kept (r_world Shifting.final).
Proof.
  assert (R : reached (trace (r_world Shifting.final)) Shifting.seed 2
                      Shifting.page_c).
  { pose proof (crawling_inv Shifting.env Shifting.collector
                  ltac:(cbn; lia) Examples.world0 Shifting.final eq_refl
                  Shifting_crawling) as (IT & _).
    destruct (r_pool Shifting.final !! 4%nat) as [t|] eqn:Ht;
      [|vm_compute in Ht; discriminate].
    destruct (IT t (lookup_In _ _ _ Ht)) as (H & _).
    vm_compute in Ht. injection Ht as <-. exact H. }
  assert (Ed : forall u, ~ edge (r_world Shifting.final) u Shifting.page_c).
  { intros u (p & Hp & Hin).
    apply elem_of_map_to_list, list_elem_of_In in Hp.
    revert Hp. set (l := map_to_list _). vm_compute in l. subst l.
    intros [H|[H|[H|[H|[]]]]]; injection H as <- <-; vm_compute in Hin;
      intuition discriminate. }
  assert (W : forall n, ~ within (r_world Shifting.final) Shifting.seed n
                          Shifting.page_c).
  { intros n H. inversion H as [k Hk|k m u _ He]; try discriminate.
    exact (Ed _ He). }
  split; [vm_compute; reflexivity|]. split; [vm_compute; reflexivity|].
  split; [eexists; vm_compute; reflexivity|].
  split; [exact R|]. split; [exact Ed|]. split; [exact W|].
  intros K. exact (W 2%nat (reached_within _ _ _ _ K R)).
Qed.

(** *** Every schedule: the work that is left *)

Lemma less_work_lower (N : nat) (k : nat)
      (IHk : forall j, (j < k)%nat -> forall g,
             (forall d, (S N <= d)%nat -> g d = 0%nat) -> g N = j ->
             Acc less_work g) :
  forall h, Acc less_work h ->
  forall g, (forall d, (S N <= d)%nat -> g d = 0%nat) -> g N = k ->
            (forall d, (d < N)%nat -> g d = h d) ->
            (forall d, (N <= d)%nat -> h d = 0%nat) ->
            Acc less_work g.
Proof.
  induction 1 as [h _ IH]. intros g Hsup Hk Hlow Hh.
  constructor. intros f (d & Hlt & Hsame).
  destruct (Nat.lt_trichotomy d N) as [Hd|[->|Hd]].
  - apply (IH (fun x => if Nat.ltb x N then f x else 0%nat)).
    + exists d. split.
      * destruct (Nat.ltb_spec d N); [|lia]. rewrite <- Hlow by lia. exact Hlt.
      * intros d' Hd'. destruct (Nat.ltb_spec d' N).
        -- rewrite <- Hlow by lia. auto.
        -- symmetry. apply Hh. lia.
    + intros x Hx. rewrite Hsame by lia. apply Hsup. lia.
    + rewrite Hsame by lia. exact Hk.
    + intros x Hx. destruct (Nat.ltb_spec x N); [reflexivity|lia].
    + intros x Hx. destruct (Nat.ltb_spec x N); [lia|reflexivity].
  - apply (IHk (f N)); [lia| |reflexivity].
    intros x Hx. rewrite Hsame by lia. apply Hsup. lia.
  - rewrite (Hsup d) in Hlt by lia. lia.
Qed.

Lemma less_work_Acc (N : nat) :
  forall g, (forall d, (N <= d)%nat -> g d = 0%nat) -> Acc less_work g.
Proof.
  induction N as [|N IHN]; intros g Hsup.
  - constructor. intros f (d & Hlt & _). rewrite Hsup in Hlt by lia. lia.
  - remember (g N) as k eqn:Hk. symmetry in Hk. revert g Hsup Hk.
    induction k as [k IHk] using lt_wf_ind. intros g Hsup Hk.
    apply (less_work_lower N k IHk (fun x => if Nat.ltb x N then g x else 0%nat)).
    + apply IHN. intros d Hd. destruct (Nat.ltb_spec d N); [lia|reflexivity].
    + exact Hsup.
    + exact Hk.
    + intros d Hd. destruct (Nat.ltb_spec d N); [reflexivity|lia].
    + intros d Hd. destruct (Nat.ltb_spec d N); [lia|reflexivity].
Qed.

Lemma pool_ahead_app (ch : nat) (a b : list Task) :
  pool_ahead ch (a ++ b) = (pool_ahead ch a + pool_ahead ch b)%nat.
Proof. unfold pool_ahead. now rewrite map_app, list_sum_app. Qed.

Lemma pool_ahead_insert (ch : nat) (pool : list Task) (i : nat) (t t' : Task) :
  pool !! i = Some t ->
  (pool_ahead ch (<[i := t']> pool) + pool_ahead ch [t]
   = pool_ahead ch pool + pool_ahead ch [t'])%nat.
Proof.
  revert i. induction pool as [|a pool IH]; intros i; [discriminate|].
  destruct i as [|i].
  - intros [= ->]. unfold pool_ahead. simpl. lia.
  - intros H. specialize (IH _ H). unfold pool_ahead in *. simpl in *. lia.
Qed.

Lemma pool_ahead_one (ch : nat) (t : Task) :
  pool_ahead ch [t]
  = if Nat.eqb (t_chan t) ch then ahead (u_pc (t_unit t)) else 0%nat.
Proof. unfold pool_ahead. simpl. lia. Qed.

Lemma stack_ahead_same (pool pool' : list Task) (d : nat) (stack : list Frame) :
  (forall f, In f stack ->
             pool_ahead (f_chan f) pool' = pool_ahead (f_chan f) pool) ->
  stack_ahead pool' d stack = stack_ahead pool d stack.
Proof.
  induction stack as [|f rest IH]; [reflexivity|]. intros H.
  cbn [stack_ahead]. rewrite IH by (intros g Hg; apply H; now right).
  unfold frame_ahead. rewrite (H f) by now left. reflexivity.
Qed.

Lemma stack_ahead_high (pool : list Task) (d : nat) (stack : list Frame) :
  (forall f, In f stack -> (Z.to_nat (f_depth f) < d)%nat) ->
  stack_ahead pool d stack = 0%nat.
Proof.
  induction stack as [|f rest IH]; [reflexivity|]. intros H.
  cbn [stack_ahead]. rewrite IH by (intros g Hg; apply H; now right).
  unfold at_level. specialize (H f (or_introl eq_refl)).
  destruct (Nat.eqb_spec (Z.to_nat (f_depth f)) d); lia.
Qed.

(** The goroutines of one frame have moved on, the others stand. *)
Lemma stack_ahead_less (pool pool' : list Task) (stack : list Frame) (f0 : Frame) :
  List.NoDup (map f_chan stack) -> In f0 stack ->
  (pool_ahead (f_chan f0) pool' < pool_ahead (f_chan f0) pool)%nat ->
  (forall ch, ch <> f_chan f0 -> pool_ahead ch pool' = pool_ahead ch pool) ->
  (stack_ahead pool' (Z.to_nat (f_depth f0)) stack
   < stack_ahead pool (Z.to_nat (f_depth f0)) stack)%nat
  /\ forall d, d <> Z.to_nat (f_depth f0) ->
               stack_ahead pool' d stack = stack_ahead pool d stack.
Proof.
  intros ND Hin Hlt Hsame.
  assert (Hle : forall d stack,
             (stack_ahead pool' d stack <= stack_ahead pool d stack)%nat).
  { intros d st. induction st as [|g st IH]; [reflexivity|].
    cbn [stack_ahead]. unfold frame_ahead.
    destruct (Nat.eq_dec (f_chan g) (f_chan f0)) as [Heq|Hne].
    - rewrite Heq. destruct (at_level d g); lia.
    - rewrite (Hsame _ Hne). lia. }
  split.
  - induction stack as [|g rest IH]; [destruct Hin|].
    cbn [stack_ahead]. destruct Hin as [->|Hin].
    + unfold at_level at 1 2. rewrite Nat.eqb_refl. unfold frame_ahead.
      specialize (Hle (Z.to_nat (f_depth f0)) rest). lia.
    + inversion ND as [|? ? Hnot ND']; subst.
      specialize (IH ND' Hin).
      assert (Hne : f_chan g <> f_chan f0).
      { intros Heq. apply Hnot. rewrite Heq. now apply in_map. }
      unfold frame_ahead. rewrite (Hsame _ Hne). lia.
  - intros d Hd. induction stack as [|g rest IH]; [reflexivity|].
    cbn [stack_ahead]. inversion ND as [|? ? Hnot ND']; subst.
    destruct Hin as [->|Hin].
    + unfold at_level at 1 2.
      destruct (Nat.eqb_spec (Z.to_nat (f_depth f0)) d); [congruence|].
      apply stack_ahead_same. intros f Hf. apply Hsame.
      intros Heq. apply Hnot. rewrite <- Heq. now apply in_map.
    + rewrite (IH ND' Hin).
      assert (Hne : f_chan g <> f_chan f0).
      { intros Heq. apply Hnot. rewrite Heq. now apply in_map. }
      unfold frame_ahead. now rewrite (Hsame _ Hne).
Qed.

Section WorkFacts.
Variable E : Env.
Variable c : Collector.

Lemma unit_step_ahead (u : Unit) (w : World) :
  blocked (u_pc u) = false ->
  match unit_step E u w with
  | Panic => True
  | Done u' _ => (ahead (u_pc u') < ahead (u_pc u))%nat
  end.
Proof.
  destruct u as [gid url p].
  destruct p; cbn [blocked u_pc]; try discriminate; intros _;
    cbv [unit_step u_pc u_url u_gid]; unfold_run; split_paths;
    try exact Logic.I; cbn; lia.
Qed.

(** The innermost frame, or the orchestrator in it, has moved on. *)
Lemma top_less (s s' : Run) (f f' : Frame) (rest : list Frame) :
  r_stack s = f :: rest -> r_stack s' = f' :: rest ->
  f_depth f' = f_depth f ->
  r_ctl s <> CBegin -> r_ctl s' <> CBegin ->
  (forall d, stack_ahead (r_pool s') d rest = stack_ahead (r_pool s) d rest) ->
  (frame_ahead (r_pool s') f' + ctl_ahead (r_ctl s')
   < frame_ahead (r_pool s) f + ctl_ahead (r_ctl s))%nat ->
  less_work (work c s') (work c s).
Proof.
  intros Hst Hst' Hd Hc Hc' Hrest Hlt.
  assert (W : forall d s0 f0, r_stack s0 = f0 :: rest -> r_ctl s0 <> CBegin ->
                work c s0 d
                = ((if at_level d f0
                    then frame_ahead (r_pool s0) f0 + ctl_ahead (r_ctl s0) else 0)
                   + stack_ahead (r_pool s0) d rest)%nat).
  { intros d s0 f0 H0 Hn. unfold work. rewrite H0. cbn [stack_ahead].
    destruct (r_ctl s0); try contradiction; destruct (at_level d f0); lia. }
  exists (Z.to_nat (f_depth f)). split.
  - rewrite (W _ s' f' Hst' Hc'), (W _ s f Hst Hc), Hrest.
    unfold at_level. rewrite Hd, Nat.eqb_refl. lia.
  - intros d Hlt'. rewrite (W _ s' f' Hst' Hc'), (W _ s f Hst Hc), Hrest.
    unfold at_level. rewrite Hd.
    destruct (Nat.eqb_spec (Z.to_nat (f_depth f)) d); [lia|reflexivity].
Qed.

Lemma step_less_work (ch : Choice) (s s' : Run) :
  depth_inv c s -> join_inv E c s ->
  crawl_step E c ch s = Some s' -> less_work (work c s') (work c s).
Proof.
  intros (DT & DF & DN & _ & DC) (_ & JT & _) H.
  destruct ch; cbn [crawl_step] in H.
  - unfold orchestrator_step in H. destruct (r_ctl s) eqn:Hc.
    + (* the first step *)
      match type of H with
      | match ?m (r_world s) with _ => _ end = _ =>
          destruct (m (r_world s)) as [a w'|]; [|discriminate]
      end.
      injection H as <-. exists (S (Z.to_nat (Depth c))).
      assert (W0 : forall d, (Z.to_nat (Depth c) < d)%nat ->
                     work c s d
                     = if Nat.eqb d (S (Z.to_nat (Depth c))) then 1%nat else 0%nat).
      { intros d Hd. unfold work. rewrite Hc.
        rewrite stack_ahead_high
          by (intros f Hf; destruct (DF f Hf) as (B & _); lia).
        destruct (r_stack s) as [|f rest]; [reflexivity|].
        cbn [ctl_ahead]. now destruct (at_level d f). }
      assert (W1 : forall d w' n, (Z.to_nat (Depth c) < d)%nat ->
                     work c (mkRun w' (r_pool s)
                                   [mkFrame (r_chans s) (Depth c) [Seed c] 1]
                                   CLoop n) d = 0%nat).
      { intros d w1 n Hd. unfold work. cbn [r_stack r_pool r_ctl stack_ahead].
        unfold at_level. cbn [f_depth].
        destruct (Nat.eqb_spec (Z.to_nat (Depth c)) d); [lia|reflexivity]. }
      split.
      * rewrite W0, W1 by lia. rewrite Nat.eqb_refl. lia.
      * intros d Hd. rewrite W0, W1 by lia.
        destruct (Nat.eqb_spec d (S (Z.to_nat (Depth c)))); [lia|reflexivity].
    + destruct (r_stack s) as [|f rest] eqn:Hst; [discriminate|].
      destruct (f_todo f) as [|u todo] eqn:Htodo.
      * destruct (f_wait f); [|discriminate].
        (* the frame returns *)
        assert (Hpop : forall s1, r_pool s1 = r_pool s -> r_stack s1 = rest ->
                         r_ctl s1 <> CBegin ->
                         match rest with _ :: _ => r_ctl s1 = CLoop | [] => True end ->
                         less_work (work c s1) (work c s)).
        { intros s1 Hp1 Hs1 Hc1 Hk. exists (Z.to_nat (f_depth f)).
          assert (W1 : forall d, work c s1 d = stack_ahead (r_pool s) d rest).
          { intros d. unfold work. rewrite Hp1, Hs1.
            destruct rest as [|f1 rest'].
            - destruct (r_ctl s1); try contradiction; reflexivity.
            - rewrite Hk. cbn [ctl_ahead]. destruct (at_level d f1); lia. }
          assert (W0 : forall d, work c s d
                                 = ((if at_level d f then frame_ahead (r_pool s) f
                                     else 0) + stack_ahead (r_pool s) d rest)%nat).
          { intros d. unfold work. rewrite Hst, Hc. cbn [stack_ahead ctl_ahead].
            destruct (at_level d f); lia. }
          split.
          - rewrite W1, W0. unfold at_level. rewrite Nat.eqb_refl.
            unfold frame_ahead. lia.
          - intros d Hd. rewrite W1, W0. unfold at_level.
            destruct (Nat.eqb_spec (Z.to_nat (f_depth f)) d); [lia|reflexivity]. }
        destruct rest as [|f1 rest].
        -- destruct (finish E c (r_world s)) as [res w'|]; [|discriminate].
           injection H as <-. apply Hpop; auto; discriminate.
        -- injection H as <-. apply Hpop; auto; discriminate.
      * (* a launch *)
        destruct (spawn u (r_world s)) as [gid w'|]; [|discriminate].
        injection H as <-.
        eapply top_less; cbn [r_stack r_pool r_ctl];
          [exact Hst|reflexivity|reflexivity|congruence|discriminate| |].
        -- intros d. apply stack_ahead_same. intros g Hg.
           rewrite pool_ahead_app, pool_ahead_one. cbn [t_chan].
           destruct (Nat.eqb_spec (f_chan f) (f_chan g)) as [Heq|]; [|lia].
           exfalso. eapply (NoDup_chan f rest g); eauto.
        -- unfold frame_ahead. cbn [f_todo f_chan].
           rewrite pool_ahead_app, pool_ahead_one, Htodo, Hc.
           cbn [t_chan t_unit u_pc ahead ctl_ahead List.length].
           rewrite Nat.eqb_refl. lia.
    + (* the error of the result is logged *)
      destruct (log_scrape_error r (r_world s)) as [a w'|]; [|discriminate].
      injection H as <-. destruct DC as (f & rest & Hst & _).
      eapply top_less; cbn [r_stack r_pool r_ctl];
        [exact Hst|exact Hst|reflexivity|congruence|discriminate|reflexivity|].
      rewrite Hc. cbn [ctl_ahead]. lia.
    + destruct (r_stack s) as [|f rest] eqn:Hst; [discriminate|].
      assert (Hback : less_work
                        (work c (mkRun (r_world s) (r_pool s) (f :: rest) CLoop
                                       (r_chans s)))
                        (work c s)).
      { eapply top_less; cbn [r_stack r_pool r_ctl];
          [exact Hst|reflexivity|reflexivity|congruence|discriminate|reflexivity|].
        rewrite Hc. cbn [ctl_ahead]. lia. }
      destruct (Page r) as [page|]; [|injection H as <-; exact Hback].
      destruct (Z.leb_spec (f_depth f - 1) 0) as [|Hpos];
        injection H as <-; [exact Hback|].
      (* the call starts a frame one level down *)
      exists (Z.to_nat (f_depth f)). unfold work. rewrite Hst, Hc.
      cbn [r_stack r_pool r_ctl stack_ahead ctl_ahead].
      unfold at_level. cbn [f_depth]. split.
      * rewrite Nat.eqb_refl.
        destruct (Nat.eqb_spec (Z.to_nat (f_depth f - 1)) (Z.to_nat (f_depth f)));
          lia.
      * intros d Hd.
        destruct (Nat.eqb_spec (Z.to_nat (f_depth f - 1)) d); [lia|].
        destruct (Nat.eqb_spec (Z.to_nat (f_depth f)) d); lia.
    + discriminate.
  - (* a goroutine *)
    unfold goroutine_step in H.
    destruct (r_pool s !! i) as [t|] eqn:Hi; [|discriminate].
    destruct (blocked (u_pc (t_unit t))) eqn:Hb; [discriminate|].
    pose proof (unit_step_ahead (t_unit t) (r_world s) Hb) as Ha.
    destruct (unit_step E (t_unit t) (r_world s)) as [u' w'|]; [|discriminate].
    cbv beta iota in Ha. injection H as <-.
    destruct (JT t (lookup_In _ _ _ Hi)) as [Hd|(f0 & Hf0 & Hch)].
    { destruct (u_pc (t_unit t)); discriminate. }
    destruct (stack_ahead_less (r_pool s) (<[i := mkTask u' (t_chan t)]> (r_pool s))
                (r_stack s) f0 DN Hf0) as (Hlt & Hsame).
    { pose proof (pool_ahead_insert (f_chan f0) _ _ _ (mkTask u' (t_chan t)) Hi) as P.
      rewrite !pool_ahead_one in P. cbn [t_chan t_unit] in P.
      replace (Nat.eqb (t_chan t) (f_chan f0)) with true in P
        by (symmetry; apply Nat.eqb_eq; congruence).
      lia. }
    { intros ch Hne.
      pose proof (pool_ahead_insert ch _ _ _ (mkTask u' (t_chan t)) Hi) as P.
      rewrite !pool_ahead_one in P. cbn [t_chan t_unit] in P.
      destruct (Nat.eqb_spec (t_chan t) ch); [congruence|lia]. }
    exists (Z.to_nat (f_depth f0)). unfold work. cbn [r_stack r_pool r_ctl].
    split; [lia|]. intros d Hd. rewrite Hsame by lia. reflexivity.
  - (* a result is sent and received *)
    unfold receive_step in H.
    destruct (r_ctl s) eqn:Hc; try discriminate.
    destruct (r_stack s) as [|f rest] eqn:Hst; [discriminate|].
    destruct (r_pool s !! i) as [t|] eqn:Hi; [|discriminate].
    destruct (f_todo f) eqn:Htodo; [|discriminate].
    destruct (f_wait f) as [|n]; [discriminate|].
    destruct (u_pc (t_unit t)) eqn:Hpc; try discriminate.
    destruct (Nat.eqb_spec (t_chan t) (f_chan f)) as [Hch|]; [|discriminate].
    injection H as <-.
    eapply top_less; cbn [r_stack r_pool r_ctl];
      [exact Hst|reflexivity|reflexivity|congruence|discriminate| |].
    + intros d. apply stack_ahead_same. intros g Hg.
      match goal with
      | |- pool_ahead _ (<[i := ?t']> _) = _ =>
          pose proof (pool_ahead_insert (f_chan g) _ _ _ t' Hi) as P
      end.
      rewrite !pool_ahead_one in P. cbn [t_chan t_unit u_pc ahead] in P.
      destruct (Nat.eqb_spec (t_chan t) (f_chan g)) as [Heq|]; [|lia].
      exfalso. eapply (NoDup_chan f rest g); eauto. congruence.
    + unfold frame_ahead. cbn [f_todo f_chan List.length]. rewrite Htodo, Hc.
      match goal with
      | |- context [pool_ahead _ (<[i := ?t']> _)] =>
          pose proof (pool_ahead_insert (f_chan f) _ _ _ t' Hi) as P
      end.
      rewrite !pool_ahead_one in P. cbn [t_chan t_unit u_pc ahead] in P.
      replace (Nat.eqb (t_chan t) (f_chan f)) with true in P
        by (symmetry; apply Nat.eqb_eq; congruence).
      rewrite Hpc in P. cbn [ahead ctl_ahead List.length] in *.
      lia.
Qed.

Lemma work_support (s : Run) :
  depth_inv c s ->
  forall d, (S (S (Z.to_nat (Depth c))) <= d)%nat -> work c s d = 0%nat.
Proof.
  intros (_ & DF & _) d Hd. unfold work.
  rewrite stack_ahead_high
    by (intros f Hf; destruct (DF f Hf) as (B & _); lia).
  assert (Htop : match r_stack s with
                 | f :: _ => if at_level d f then ctl_ahead (r_ctl s) else 0
                 | [] => 0
                 end = 0%nat).
  { destruct (r_stack s) as [|f rest] eqn:Hst; [reflexivity|].
    destruct (DF f) as (B & _); [now left|].
    unfold at_level. destruct (Nat.eqb_spec (Z.to_nat (f_depth f)) d); [lia|].
    reflexivity. }
  rewrite Htop.
  destruct (r_ctl s); try reflexivity.
  destruct (Nat.eqb_spec d (S (Z.to_nat (Depth c)))); [lia|reflexivity].
Qed.

Lemma crawling_Acc (w0 : World) (s : Run) :
  (1 <= Depth c)%Z -> initial w0 -> crawling E c w0 s ->
  Acc (steps_to E c) s.
Proof.
  intros Hd I0 R.
  assert (S0 : scrapper w0 = NewScrapper) by now destruct I0.
  pose proof (less_work_Acc (S (S (Z.to_nat (Depth c)))) (work c s)
                (work_support s (crawling_inv E c Hd w0 s S0 R))) as A.
  remember (work c s) as m eqn:Hm. revert s R Hm.
  induction A as [m _ IH]. intros s R ->.
  constructor. intros s' (ch & Hs).
  apply (IH (work c s')).
  - eapply step_less_work; eauto.
    + eapply crawling_inv; eauto.
    + eapply crawling_join; eauto.
  - econstructor; eauto.
  - reflexivity.
Qed.

End WorkFacts.

Section EndFacts.
Variable E : Env.
Variable c : Collector.

Lemma enabled_In (s : Run) (ch : Choice) :
  In ch (enabled E c s) <-> exists s', crawl_step E c ch s = Some s'.
Proof.
  unfold enabled. rewrite List.filter_In. split.
  - intros (_ & H). destruct (crawl_step E c ch s); [eauto|discriminate].
  - intros (s' & H). rewrite H. split; [|reflexivity].
    destruct ch as [|i|i]; [now left|right; apply in_or_app..].
    + left. apply in_map, in_seq. cbn [crawl_step] in H.
      unfold goroutine_step in H.
      destruct (r_pool s !! i) as [t|] eqn:Hi; [|discriminate].
      apply lookup_lt_Some in Hi. lia.
    + right. apply in_map, in_seq. cbn [crawl_step] in H.
      unfold receive_step in H.
      destruct (r_ctl s); try discriminate.
      destruct (r_stack s); try discriminate.
      destruct (r_pool s !! i) as [t|] eqn:Hi; [|discriminate].
      apply lookup_lt_Some in Hi. lia.
Qed.

Lemma drive_ends (w0 : World) (pick : nat -> nat) (s : Run) :
  (1 <= Depth c)%Z -> initial w0 -> is_Some (loggers w0) ->
  crawling E c w0 s ->
  forall n, exists fuel x, r_ctl (drive E c pick n fuel s) = CEnd x.
Proof.
  intros Hd I0 L0 R.
  pose proof (crawling_Acc E c w0 s Hd I0 R) as A.
  revert R. induction A as [s _ IH]. intros R n.
  destruct (step_enabled E c s) as [(x & Hx)|(ch & s1 & Hs)].
  - eapply crawling_awake; eauto.
  - eapply crawling_join; eauto.
  - exists 0%nat, x. exact Hx.
  - assert (Hin : In ch (enabled E c s)) by (apply enabled_In; eauto).
    destruct (enabled E c s) as [|ch0 chs] eqn:He; [destruct Hin|].
    set (pk := nth (pick n mod List.length (ch0 :: chs)) (ch0 :: chs) ch0).
    assert (Hpk : In pk (enabled E c s)).
    { rewrite He. apply nth_In. apply Nat.mod_upper_bound. discriminate. }
    apply enabled_In in Hpk as (s2 & Hs2).
    destruct (IH s2 (ex_intro _ pk Hs2) (crawling_step _ _ _ _ _ _ R Hs2) (S n))
      as (fuel & x & Hx).
    exists (S fuel), x. cbn [drive]. rewrite He. fold pk. rewrite Hs2.
      exact Hx.
Qed.

End EndFacts.

(** X28. Every run comes to an end. From every state of
    a run no schedule goes on for ever: each step lowers the work that is
    left, counted level by level. When the log file could be opened, the
    run driven by any rule for picking the next step reaches the return of
    [StartCrawling] with enough fuel. *)
Theorem crawl_terminates (E : Env) (seed : string) (depth : Z)
        (saveToFile : bool) (fileName : string) (c : Collector) (w0 : World)
        (s : Run) :
  NewCollector E seed depth saveToFile fileName = Ok (c, w0) ->
  crawling E c w0 s ->
  Acc (steps_to E c) s
  /\ (os_OpenFile E LogFile = None ->
      forall pick n, exists fuel x,
        r_ctl (drive E c pick n fuel s) = CEnd x).
Proof.
  intros HN R.
  apply NewCollector_start in HN as (_ & Hd & _ & _ & I0 & L0).
  split; [eapply crawling_Acc; eauto|].
  intros Ho pick n. eapply drive_ends; eauto.
Qed.

Lemma crawl_terminates_witness :
  Acc (steps_to Examples.env_flaky demo_collector) (start Examples.world0)
  /\ exists fuel x,
       r_ctl (drive Examples.env_flaky demo_collector (fun n => n) 0 fuel
                    (start Examples.world0)) = CEnd x.
Proof.
  destruct (crawl_terminates Examples.env_flaky Examples.seed 3 false
              "out.json" demo_collector Examples.world0
              (start Examples.world0) eq_refl (crawling_start _ _ _))
    as (A & D).
  split; [exact A|]. exact (D eq_refl (fun n => n) 0%nat).
Defined.
